(** * Language-model core of langchain-core: cache keys, token counting,
      input normalisation, callbacks and structured output

    Shallow embedding of [langchain-core/src/language_models/base.ts] and of
    the parts of the invocation path that the specification describes. *)

From Stdlib Require Import ZArith String Ascii List Decimal DecimalString.
From stdpp Require Import base tactics option list strings gmap sorting.

Local Open Scope string_scope.

(** ** JavaScript values, objects and [JSON.stringify] *)

Module Js.

(** The double quote and the backslash, named once. *)
Definition dquote : ascii := "034"%char.
Definition backslash : ascii := "092"%char.

(** [dq s] is [s] with every apostrophe turned into a double quote, to write
    JSON texts as literals. *)
Fixpoint dq (s : string) : string :=
  match s with
  | EmptyString => EmptyString
  | String c s' => String (if decide (c = "'"%char) then dquote else c) (dq s')
  end.

(** Numbers: [NInt z] is the number of integral value [z], for the values
    [Number::toString] prints in plain decimal (magnitude below 10^21; both
    zeros are [NInt 0]); then the three non-finite numbers. *)
Inductive Num : Type :=
| NInt (z : Z)
| NNaN
| NPosInf
| NNegInf.

(** Values as [JSON.stringify] sees them. An object is the list of its own
    enumerable string-keyed properties in enumeration order, each name once
    (the place JavaScript gives to integer-like names is not modelled; the
    cache key sorts its entries, so the order of the parameter record plays
    no role in it). *)
#[local] Unset Elimination Schemes.
Inductive Value : Type :=
| VUndefined
| VNull
| VBool (b : bool)
| VNum (n : Num)
| VStr (s : string)
| VArr (xs : list Value)
| VObj (fields : list (string * Value)).
#[local] Set Elimination Schemes.

Abbreviation Obj := (list (string * Value)).

Definition is_undefined (v : Value) : bool :=
  match v with VUndefined => true | _ => false end.

(** [Array.prototype.join] on an array of strings. *)
Fixpoint join (sep : string) (l : list string) : string :=
  match l with
  | [] => ""
  | [x] => x
  | x :: l' => x ++ sep ++ join sep l'
  end.

(** [Array.prototype.sort] without comparator on an array of strings: the
    ascending order of code units. The order is total and antisymmetric, so
    the sorted array does not depend on the algorithm. *)
Definition sort (l : list string) : list string := merge_sort String.le l.

(** *** QuoteJSONString *)

Definition hex_digit (n : nat) : ascii :=
  nth n (list_ascii_of_string "0123456789abcdef") "0"%char.

Definition unicode_escape (c : ascii) : string :=
  let n := nat_of_ascii c in
  String backslash
    (String "u" (String "0" (String "0"
       (String (hex_digit (n / 16)) (String (hex_digit (n mod 16)) ""))))).

Definition escape_char (c : ascii) : string :=
  let n := nat_of_ascii c in
  if decide (n = 8) then String backslash "b"
  else if decide (n = 9) then String backslash "t"
  else if decide (n = 10) then String backslash "n"
  else if decide (n = 12) then String backslash "f"
  else if decide (n = 13) then String backslash "r"
  else if decide (n = 34) then String backslash (String dquote "")
  else if decide (n = 92) then String backslash (String backslash "")
  else if decide (n < 32) then unicode_escape c
  else String c "".

Fixpoint escape (s : string) : string :=
  match s with
  | EmptyString => EmptyString
  | String c s' => escape_char c ++ escape s'
  end.

Definition quote (s : string) : string :=
  String dquote (escape s ++ String dquote "").

(** *** SerializeJSONProperty *)

Definition number_to_json (n : Num) : string :=
  match n with
  | NInt z => NilEmpty.string_of_int (Z.to_int z)
  | NNaN | NPosInf | NNegInf => "null"
  end.

(** [JSON.stringify value] with no replacer and no indentation; [None] is
    the result [undefined]. In an array an [undefined] element prints as
    [null]; in an object a property whose value is [undefined] is left out. *)
Fixpoint JSON_stringify (v : Value) : option string :=
  match v with
  | VUndefined => None
  | VNull => Some "null"
  | VBool b => Some (if b then "true" else "false")
  | VNum n => Some (number_to_json n)
  | VStr s => Some (quote s)
  | VArr xs =>
      let elems :=
        (fix go (l : list Value) : list string :=
           match l with
           | [] => []
           | x :: l' =>
               match JSON_stringify x with
               | Some s => s
               | None => "null"
               end :: go l'
           end) xs in
      Some ("[" ++ join "," elems ++ "]")
  | VObj fields =>
      let props :=
        (fix go (l : list (string * Value)) : list string :=
           match l with
           | [] => []
           | (k, x) :: l' =>
               match JSON_stringify x with
               | Some s => (quote k ++ ":" ++ s) :: go l'
               | None => go l'
               end
           end) fields in
      Some ("{" ++ join "," props ++ "}")
  end.

(** A template literal prints [undefined] as the word. *)
Definition template (o : option string) : string :=
  match o with
  | Some s => s
  | None => "undefined"
  end.

(** *** Objects *)

Definition obj_get (o : Obj) (k : string) : option Value :=
  snd <$> List.find (fun e => bool_decide (fst e = k)) o.

(** [o[k] = v]: an existing property keeps its place, a new one goes last. *)
Fixpoint obj_set (o : Obj) (k : string) (v : Value) : Obj :=
  match o with
  | [] => [(k, v)]
  | (k', v') :: o' =>
      if decide (k' = k) then (k, v) :: o' else (k', v') :: obj_set o' k v
  end.

(** [{...target, ...source}]: the properties of [source] are assigned in
    order; a property holding [undefined] is assigned like any other. *)
Definition obj_spread (target source : Obj) : Obj :=
  fold_left (fun o e => obj_set o (fst e) (snd e)) source target.

(** [delete o[k]]. *)
Definition obj_delete (o : Obj) (k : string) : Obj :=
  filter (fun e => fst e ≠ k) o.

Definition Object_entries (o : Obj) : list (string * Value) := o.

(** *** Reading a key back

    A scanner over the characters of a key: it tracks whether it is inside a
    JSON string and how many brackets are open, and stops ([None]) at a
    comma outside every string and bracket, the place where [join] puts its
    separator. *)

Inductive Mode : Type := Out | InStr | InEsc.

Definition ScanState : Type := (nat * Mode)%type.

Definition scan0 : ScanState := (0, Out).

Definition opening (c : ascii) : bool :=
  bool_decide (c = "["%char) || bool_decide (c = "{"%char).

Definition closing (c : ascii) : bool :=
  bool_decide (c = "]"%char) || bool_decide (c = "}"%char).

Definition step (st : ScanState) (c : ascii) : option ScanState :=
  let '(d, m) := st in
  match m with
  | InEsc => Some (d, InStr)
  | InStr =>
      if decide (c = backslash) then Some (d, InEsc)
      else if decide (c = dquote) then Some (d, Out)
      else Some (d, InStr)
  | Out =>
      if decide (c = dquote) then Some (d, InStr)
      else if opening c then Some (S d, Out)
      else if closing c then Some (pred d, Out)
      else if decide (c = ","%char) then
        match d with 0 => None | S _ => Some (d, Out) end
      else Some (d, Out)
  end.

Fixpoint run (st : ScanState) (s : string) : option ScanState :=
  match s with
  | EmptyString => Some st
  | String c s' =>
      match step st c with
      | Some st' => run st' s'
      | None => None
      end
  end.

(** An entry of a key: not empty, and scanned from the start state back to
    the start state without meeting a separator. *)
Definition closed (e : string) : Prop :=
  e ≠ "" ∧ run scan0 e = Some scan0.

(** What follows a closed string inside a key: nothing, or a separator. *)
Definition sep_tail (t : string) : Prop :=
  t = "" ∨ ∃ t', t = String ","%char t'.

(** A text that leaves the scanner where it found it, at every depth. *)
Definition balanced (s : string) : Prop :=
  ∀ d, run (d, Out) s = Some (d, Out).

(** *** Induction on values *)

Section ValueInd.
Variable P : Value → Prop.
Hypothesis Hundefined : P VUndefined.
Hypothesis Hnull : P VNull.
Hypothesis Hbool : ∀ b, P (VBool b).
Hypothesis Hnum : ∀ n, P (VNum n).
Hypothesis Hstr : ∀ s, P (VStr s).
Hypothesis Harr : ∀ xs, Forall P xs → P (VArr xs).
Hypothesis Hobj : ∀ fields, Forall (fun e => P (snd e)) fields → P (VObj fields).

Fixpoint Value_ind (v : Value) : P v :=
  match v with
  | VUndefined => Hundefined
  | VNull => Hnull
  | VBool b => Hbool b
  | VNum n => Hnum n
  | VStr s => Hstr s
  | VArr xs =>
      Harr xs
        ((fix go (l : list Value) : Forall P l :=
            match l with
            | [] => List.Forall_nil P
            | x :: l' => @List.Forall_cons _ P x l' (Value_ind x) (go l')
            end) xs)
  | VObj fields =>
      Hobj fields
        ((fix go (l : list (string * Value)) : Forall (fun e => P (snd e)) l :=
            match l with
            | [] => List.Forall_nil _
            | e :: l' =>
                @List.Forall_cons _ (fun e => P (snd e)) e l'
                  (Value_ind (snd e)) (go l')
            end) fields)
  end.
End ValueInd.

End Js.

Import Js.

(** ** The cache key of a call ([base.ts], lines 459-477) *)

Module CacheKey.

(** What [_getSerializedCacheKeyParametersForCall] reads of the model. *)
Record LanguageModel : Type := {
  _identifyingParams : Obj;
  _llmType : string;
  _modelType : string
}.

Definition params (this : LanguageModel) (callOptions : Obj) : Obj :=
  obj_set
    (obj_set
       (obj_spread (obj_spread [] (_identifyingParams this)) callOptions)
       "_type" (VStr (_llmType this)))
    "_model" (VStr (_modelType this)).

Definition filteredEntries (this : LanguageModel) (callOptions : Obj)
  : list (string * Value) :=
  filter (fun e => ¬ is_undefined (snd e))
    (Object_entries (params this callOptions)).

Definition serializeEntry (e : string * Value) : string :=
  fst e ++ ":" ++ template (JSON_stringify (snd e)).

Definition _getSerializedCacheKeyParametersForCall
    (this : LanguageModel) (callOptions : Obj) : string :=
  let serializedEntries :=
    join "," (sort (serializeEntry <$> filteredEntries this callOptions)) in
  serializedEntries.

(** The contributing fields of a call: each defined field of the merged
    parameter record with the text [JSON.stringify] gives its value. *)
Definition serialized_fields (this : LanguageModel) (callOptions : Obj)
  : gmap string string :=
  list_to_map
    ((fun e => (fst e, template (JSON_stringify (snd e))))
       <$> filteredEntries this callOptions).

(** A field name with none of the characters that structure the key. *)
Definition structural (c : ascii) : bool :=
  bool_decide (c ∈ list_ascii_of_string (dq ",:'[]{}")).

Definition plain_name (k : string) : Prop :=
  Forall (fun c => structural c = false) (list_ascii_of_string k).

Definition plain_names (this : LanguageModel) (callOptions : Obj) : Prop :=
  Forall plain_name (_identifyingParams this).*1
  ∧ Forall plain_name callOptions.*1.

(** The assignments of a spread, on maps. *)
Definition assign_all (s : Obj) (m : gmap string Value) : gmap string Value :=
  fold_left (fun m e => <[fst e:=snd e]> m) s m.

(** The rendered fields of a call, as pairs of a name and a text. *)
Definition field_text (e : string * Value) : string * string :=
  (fst e, template (JSON_stringify (snd e))).

Definition render (e : string * string) : string := fst e ++ ":" ++ snd e.

(** A field of a call: a plain name and a balanced text. *)
Definition good_field (e : string * string) : Prop :=
  plain_name (fst e) ∧ balanced (snd e).

(** The text a value contributes to the key, if any. *)
Definition text_of (v : Value) : option string :=
  if is_undefined v then None else Some (template (JSON_stringify v)).

End CacheKey.

Module CacheKeyExamples.
Import CacheKey.

Definition fake : LanguageModel :=
  {| _identifyingParams := [("temperature", VNum (NInt 0))];
     _llmType := "fake"; _modelType := "base_chat_model" |}.

(** The same call options, inserted in two orders. *)
Definition stop_then_timeout : Obj :=
  [("stop", VArr [VStr "a"; VStr "b"]); ("timeout", VNum (NInt 5))].

Definition timeout_then_stop : Obj :=
  [("timeout", VNum (NInt 5)); ("stop", VArr [VStr "a"; VStr "b"])].

(** A model whose identifying parameters carry its default stop sequence. *)
Definition stopping : LanguageModel :=
  {| _identifyingParams := [("stop", VArr [VStr "x"])];
     _llmType := "fake"; _modelType := "base_chat_model" |}.

(** A model with a separator and a colon inside a parameter name. *)
Definition separators (x y : Z) : LanguageModel :=
  {| _identifyingParams := [("a", VNum (NInt x)); ("a:1,a", VNum (NInt y))];
     _llmType := "fake"; _modelType := "base_chat_model" |}.

End CacheKeyExamples.

(** ** Exceptions and mutable state

    A computation reads and writes a world and either returns or throws.
    What it wrote before throwing stays written, as in JavaScript. *)

Module Eff.

(** Thrown values: an error of the runtime or of a library, by its message,
    and the classes of error the invocation path tells apart. *)
Inductive Exn : Type :=
| JsError (message : string)
| TransientProviderError (message : string)
| NonTransientProviderError (message : string)
| CancellationError
| StructuredOutputParsingError (message : string).

Section Monad.
Context {W : Type}.

Definition M (A : Type) : Type := W → (Exn + A) * W.

Definition ret {A} (a : A) : M A := fun w => (inr a, w).

Definition bind {A B} (m : M A) (k : A → M B) : M B :=
  fun w =>
    match m w with
    | (inr a, w') => k a w'
    | (inl e, w') => (inl e, w')
    end.

Definition throw {A} (e : Exn) : M A := fun w => (inl e, w).

(** [try { body } catch (e) { handler e }]. *)
Definition try_catch {A} (body : M A) (handler : Exn → M A) : M A :=
  fun w =>
    match body w with
    | (inr a, w') => (inr a, w')
    | (inl e, w') => handler e w'
    end.

Definition get : M W := fun w => (inr w, w).

Definition modify (f : W → W) : M unit := fun w => (inr tt, f w).

(** A call into a library that returns or throws without touching the
    world. *)
Definition lift {A} (r : Exn + A) : M A := fun w => (r, w).
End Monad.

Arguments M : clear implicits.

Declare Scope eff_scope.
Delimit Scope eff_scope with eff.
Notation "x <- m ;; k" := (bind m (fun x => k))
  (at level 100, m at next level, right associativity) : eff_scope.
Notation "m ;;; k" := (bind m (fun _ => k))
  (at level 100, right associativity) : eff_scope.

End Eff.

(** ** Token counting ([base.ts], lines 25-108 and 397-432) *)

Module Tokens.
Import Eff.
Local Open Scope eff_scope.

(** [modelName.startsWith(p)]. *)
Definition startsWith (modelName p : string) : bool := String.prefix p modelName.

Definition getModelNameForTiktoken (modelName : string) : string :=
  if startsWith modelName "gpt-3.5-turbo-16k" then "gpt-3.5-turbo-16k"
  else if startsWith modelName "gpt-3.5-turbo-" then "gpt-3.5-turbo"
  else if startsWith modelName "gpt-4-32k" then "gpt-4-32k"
  else if startsWith modelName "gpt-4-" then "gpt-4"
  else modelName.

Definition getEmbeddingContextSize (modelName : option string) : Z :=
  match modelName with
  | Some "text-embedding-ada-002" => 8191
  | _ => 2046
  end%Z.

Definition getModelContextSize (modelName : string) : Z :=
  let name := getModelNameForTiktoken modelName in
  if decide (name = "gpt-3.5-turbo-16k") then 16384
  else if decide (name = "gpt-3.5-turbo") then 4096
  else if decide (name = "gpt-4-32k") then 32768
  else if decide (name = "gpt-4") then 8192
  else if decide (name = "text-davinci-003") then 4097
  else if decide (name = "text-curie-001") then 2048
  else if decide (name = "text-babbage-001") then 2048
  else if decide (name = "text-ada-001") then 2048
  else if decide (name = "code-davinci-002") then 8000
  else if decide (name = "code-cushman-001") then 2048
  else 4097%Z.

(** [Math.ceil(n / d)] on a length. *)
Definition Math_ceil_div (n d : nat) : nat :=
  n / d + (if decide (n mod d = 0) then 0 else 1).

(** The fallback count: one token for every four characters, rounded up. *)
Definition approximate (text : string) : nat :=
  Math_ceil_div (String.length text) 4.

(** A [Tiktoken] encoder of [js-tiktoken]: [encode] returns the tokens of a
    text or throws. *)
Record Tiktoken : Type := {
  encode : string → Exn + list nat
}.

(** [MessageContent]: a string, or an array of content parts. *)
Inductive MessageContentComplex : Type :=
| TextPart (text : string)
| ImageUrlPart (url : string).

Inductive MessageContent : Type :=
| ContentString (s : string)
| ContentParts (parts : list MessageContentComplex).

(** What the tokenizer library was asked. *)
Inductive TiktokenCall : Type :=
| CallEncodingForModel (model : string)
| CallEncode (text : string).

(** The model object: [modelName] is [None] when the object has no such
    property; the cast [this.modelName as string] does not check that the
    property holds a string. *)
Record Instance : Type := {
  modelName : option Value;
  _encoding : option Tiktoken
}.

Record World : Type := {
  this : Instance;
  console : list string;
  tiktoken_calls : list TiktokenCall
}.

Definition set_encoding (enc : Tiktoken) (w : World) : World :=
  {| this := {| modelName := modelName (this w); _encoding := Some enc |};
     console := console w;
     tiktoken_calls := tiktoken_calls w |}.

Definition console_warn (msg : string) : M World unit :=
  modify (fun w =>
    {| this := this w; console := console w ++ [msg];
       tiktoken_calls := tiktoken_calls w |}).

Definition record_call (c : TiktokenCall) : M World unit :=
  modify (fun w =>
    {| this := this w; console := console w;
       tiktoken_calls := tiktoken_calls w ++ [c] |}).

Definition fallback_warning : string :=
  "Failed to calculate number of tokens, falling back to approximate count".

Section WithTiktoken.
(** [encodingForModel] of [utils/tiktoken.js]: it fetches the encoder of a
    model, or throws. *)
Variable encodingForModel_impl : string → Exn + Tiktoken.

Definition encodingForModel (model : string) : M World Tiktoken :=
  record_call (CallEncodingForModel model) ;;;
  lift (encodingForModel_impl model).

Definition encode_with (enc : Tiktoken) (text : string) : M World (list nat) :=
  record_call (CallEncode text) ;;;
  lift (encode enc text).

(** [getModelNameForTiktoken(this.modelName as string)]: [startsWith] is
    a method of strings only, so the call on another value throws. *)
Definition getModelNameForTiktoken_cast (v : Value) : M World string :=
  match v with
  | VStr s => ret (getModelNameForTiktoken s)
  | _ => throw (JsError "TypeError: modelName.startsWith is not a function")
  end.

Definition calculateMaxTokens (prompt modelName : string) : M World Z :=
  numTokens <-
    try_catch
      (enc <- encodingForModel (getModelNameForTiktoken modelName) ;;
       tokens <- encode_with enc prompt ;;
       ret (length tokens))
      (fun error =>
         console_warn fallback_warning ;;;
         ret (approximate prompt)) ;;
  let maxTokens := getModelContextSize modelName in
  ret (maxTokens - Z.of_nat numTokens)%Z.

Definition getNumTokens (content : MessageContent) : M World nat :=
  match content with
  | ContentParts _ => ret 0
  | ContentString content =>
      let numTokens := approximate content in
      w <- get ;;
      match _encoding (this w) with
      | Some _ => ret tt
      | None =>
          try_catch
            (name <-
               match modelName (this w) with
               | Some v => getModelNameForTiktoken_cast v
               | None => ret "gpt2"
               end ;;
             enc <- encodingForModel name ;;
             modify (set_encoding enc))
            (fun error => console_warn fallback_warning)
      end ;;;
      w <- get ;;
      match _encoding (this w) with
      | Some enc =>
          try_catch
            (tokens <- encode_with enc content ;;
             ret (length tokens))
            (fun error =>
               console_warn fallback_warning ;;;
               ret numTokens)
      | None => ret numTokens
      end
  end.

(** The encoder a call of [getNumTokens] ends up with: the cached one, or
    the one fetched for the model's name; [None] when there is none to
    have. *)
Definition available_encoding (i : Instance) : option Tiktoken :=
  match _encoding i with
  | Some enc => Some enc
  | None =>
      match modelName i with
      | Some (VStr s) =>
          match encodingForModel_impl (getModelNameForTiktoken s) with
          | inr enc => Some enc
          | inl _ => None
          end
      | Some _ => None
      | None =>
          match encodingForModel_impl "gpt2" with
          | inr enc => Some enc
          | inl _ => None
          end
      end
  end.

(** The count of the tokenizer, when there is an encoder and it encodes
    the text. *)
Definition tokenizer_count (enc : option Tiktoken) (text : string) : option nat :=
  match enc with
  | Some enc =>
      match encode enc text with
      | inr tokens => Some (length tokens)
      | inl _ => None
      end
  | None => None
  end.

(** The encoder [calculateMaxTokens] fetches for a model, if any. *)
Definition fetched (model : string) : option Tiktoken :=
  match encodingForModel_impl (getModelNameForTiktoken model) with
  | inr enc => Some enc
  | inl _ => None
  end.

End WithTiktoken.

(** Tokenizer libraries to run the code on: one with nothing to offer, one
    whose encoder throws, one that counts words. *)
Definition no_tiktoken : string → Exn + Tiktoken :=
  fun _ => inl (JsError "Unknown model").

Definition broken_tiktoken : string → Exn + Tiktoken :=
  fun _ => inr {| encode := fun _ => inl (JsError "encode failed") |}.

Definition word_tiktoken : string → Exn + Tiktoken :=
  fun _ => inr {| encode := fun s => inr (String.length <$> String.words s) |}.

Definition fresh (name : option Value) : World :=
  {| this := {| modelName := name; _encoding := None |};
     console := []; tiktoken_calls := [] |}.

End Tokens.

(** ** Input normalisation ([base.ts], lines 239-242 and 434-444) *)

Module PromptValues.
Import Eff.

Section WithMessages.
(** The message types of [messages/index.js], and its coercion of a
    message-like value to a message, which returns or throws. *)
Variables BaseMessageLike BaseMessage : Type.
Variable coerceMessageLikeToMessage : BaseMessageLike → Exn + BaseMessage.

(** The two prompt values of [prompt_values.js]. *)
Inductive BasePromptValue : Type :=
| StringPromptValue (value : string)
| ChatPromptValue (messages : list BaseMessage).

(** [BaseLanguageModelInput]: a string, an array of message-likes, or a
    prompt value. *)
Inductive BaseLanguageModelInput : Type :=
| InputString (s : string)
| InputArray (messages : list BaseMessageLike)
| InputPromptValue (p : BasePromptValue).

(** [array.map(f)] for an [f] that may throw: the first throw ends the
    loop. *)
Fixpoint Array_map {A B} (f : A → Exn + B) (l : list A) : Exn + list B :=
  match l with
  | [] => inr []
  | x :: l' =>
      match f x with
      | inl e => inl e
      | inr y =>
          match Array_map f l' with
          | inl e => inl e
          | inr ys => inr (y :: ys)
          end
      end
  end.

Definition _convertInputToPromptValue (input : BaseLanguageModelInput)
  : Exn + BasePromptValue :=
  match input with
  | InputString input => inr (StringPromptValue input)
  | InputArray input =>
      match Array_map coerceMessageLikeToMessage input with
      | inl e => inl e
      | inr messages => inr (ChatPromptValue messages)
      end
  | InputPromptValue input => inr input
  end.
End WithMessages.

Arguments StringPromptValue {BaseMessage} value.
Arguments ChatPromptValue {BaseMessage} messages.
Arguments InputString {BaseMessageLike BaseMessage} s.
Arguments InputArray {BaseMessageLike BaseMessage} messages.
Arguments InputPromptValue {BaseMessageLike BaseMessage} p.
Arguments _convertInputToPromptValue {BaseMessageLike BaseMessage}
  coerceMessageLikeToMessage input.

(** A coercion to run the code on: a message-like is a text, a message is a
    role with a text, and the empty text is refused. *)
Definition coerce_human (text : string) : Exn + (string * string) :=
  if decide (text = "") then inl (JsError "Unable to coerce message")
  else inr ("human", text).

(** A coercion after the one [base.ts] imports from the messages module
    (line 14): a message is a type with a content; a message-like is a
    string, a message, or a pair of a role and a content. A string is a
    human message, a message is kept, and a pair is a message for the
    roles human, user, ai, assistant and system; any other role throws. *)
Record Message : Type := { type : string; content : string }.

Inductive MessageLike : Type :=
| LikeString (s : string)
| LikeMessage (m : Message)
| LikePair (role content : string).

Definition coerceMessageLikeToMessage (messageLike : MessageLike)
  : Exn + Message :=
  match messageLike with
  | LikeString s => inr {| type := "human"; content := s |}
  | LikeMessage m => inr m
  | LikePair role content =>
      if decide (role = "human" ∨ role = "user") then
        inr {| type := "human"; content := content |}
      else if decide (role = "ai" ∨ role = "assistant") then
        inr {| type := "ai"; content := content |}
      else if decide (role = "system") then
        inr {| type := "system"; content := content |}
      else
        inl (JsError "Unable to coerce message from array: only human, AI, or system message coercion is currently supported.")
  end.

End PromptValues.

(** ** The invocation path and the callback manager

    [chat_models.ts], [callbacks/manager.ts], [caches.ts] and
    [utils/async_caller.ts] are described by the specification (sections
    3, 4.1, 4.2 and 6) and modelled from it. The input normalisation and
    the cache key are the functions of [base.ts] above. *)

Module Invocation.
Import Eff PromptValues CacheKey.
Local Open Scope eff_scope.

(** [TokenUsage] of [base.ts], lines 558-562. *)
Record TokenUsage : Type := {
  completionTokens : option nat;
  promptTokens : option nat;
  totalTokens : option nat
}.

(** Modelled from the spec: a GenerationResult (section 3), the text
    produced by one model call with its token-usage metadata. *)
Record Generation : Type := {
  text : string;
  usage : TokenUsage
}.

(** Modelled from the spec: the answer of the provider call interface
    (section 6) as the Async Caller hands it over: the chunks in arrival
    order, and how the request ended once its retries were spent. *)
Record ProviderResponse : Type := {
  chunks : list string;
  outcome : Exn + TokenUsage
}.

Section WithMessages.
Variables BaseMessageLike BaseMessage : Type.
Variable coerceMessageLikeToMessage : BaseMessageLike → Exn + BaseMessage.

(** The text of a prompt, under which the cache files its results. *)
Variable prompt_text : BasePromptValue BaseMessage → string.

(** Modelled from the spec: the provider behind the Async Caller; its answer
    may change from one request to the next, so it reads the number of
    requests made so far. *)
Variable provider : nat → BasePromptValue BaseMessage → Obj → ProviderResponse.

(** Modelled from the spec: the lifecycle events of the Callback Manager
    (section 4.1), each for one runId. *)
Inductive Event : Type :=
| EvStart (runId : nat) (input : BasePromptValue BaseMessage)
| EvNewToken (runId : nat) (token : string)
| EvEnd (runId : nat) (result : Generation)
| EvError (runId : nat) (error : Exn).

(** Modelled from the spec: a CallbackHandler (sections 3 and 6), a set of
    optional callbacks; a callback returns or throws, and an absent one
    means no-op. *)
Record CallbackHandler : Type := {
  handleLLMStart : option (BasePromptValue BaseMessage → Exn + unit);
  handleLLMNewToken : option (string → Exn + unit);
  handleLLMEnd : option (Generation → Exn + unit);
  handleLLMError : option (Exn → Exn + unit)
}.

(** Modelled from the spec: CallOptions (section 3); [call_options] holds
    the options that identify the call (stop sequences, timeout and the
    like), [callbacks] the active callback set. *)
Record CallOptions : Type := {
  call_options : Obj;
  callbacks : list CallbackHandler
}.

(** Modelled from the spec: a Base Language Model (section 2), with its
    model-level default options and whether a Cache is configured. *)
Record ChatModel : Type := {
  lm : LanguageModel;
  defaults : Obj;
  cache_configured : bool
}.

(** Modelled from the spec: the process. The Cache is shared by all
    invocations (section 5) and maps a call fingerprint to the ordered
    results stored under it; [dispatched] lists the events the manager
    dispatched, [delivered] the events each handler (by its place in the
    callback set) received, [handler_errors] what was logged for handlers
    that threw. *)
Record World : Type := {
  cache : gmap (string * string) (list Generation);
  dispatched : list Event;
  delivered : list (nat * Event);
  handler_errors : list (nat * Exn);
  next_run_id : nat;
  provider_requests : nat
}.

(** Modelled from the spec: what a handler does with an event; [None] when
    it has no callback for it. *)
Definition deliver (h : CallbackHandler) (ev : Event) : option (Exn + unit) :=
  match ev with
  | EvStart _ input => (fun f => f input) <$> handleLLMStart h
  | EvNewToken _ token => (fun f => f token) <$> handleLLMNewToken h
  | EvEnd _ result => (fun f => f result) <$> handleLLMEnd h
  | EvError _ error => (fun f => f error) <$> handleLLMError h
  end.

(** Modelled from the spec: delivery to the handler in place [i]; an
    exception of the handler is logged and nothing more. *)
Definition deliver_to (i : nat) (h : CallbackHandler) (ev : Event) (w : World)
  : World :=
  match deliver h ev with
  | None => w
  | Some r =>
      {| cache := cache w;
         dispatched := dispatched w;
         delivered := delivered w ++ [(i, ev)];
         handler_errors :=
           match r with
           | inl e => handler_errors w ++ [(i, e)]
           | inr _ => handler_errors w
           end;
         next_run_id := next_run_id w;
         provider_requests := provider_requests w |}
  end.

(** Modelled from the spec: the fan-out of section 4.1, to every handler in
    registration order. *)
Fixpoint fan_out (hs : list CallbackHandler) (i : nat) (ev : Event) (w : World)
  : World :=
  match hs with
  | [] => w
  | h :: hs' => fan_out hs' (S i) ev (deliver_to i h ev w)
  end.

(** Modelled from the spec: the manager records the event it dispatches. *)
Definition log_event (ev : Event) (w : World) : World :=
  {| cache := cache w;
     dispatched := dispatched w ++ [ev];
     delivered := delivered w;
     handler_errors := handler_errors w;
     next_run_id := next_run_id w;
     provider_requests := provider_requests w |}.

(** Modelled from the spec: one dispatch of the Callback Manager, on the
    world. *)
Definition dispatch_world (hs : list CallbackHandler) (ev : Event) (w : World)
  : World :=
  fan_out hs 0 ev (log_event ev w).

(** Modelled from the spec: one dispatch of the Callback Manager. *)
Definition dispatch (hs : list CallbackHandler) (ev : Event) : M World unit :=
  modify (dispatch_world hs ev).

(** Modelled from the spec: the four dispatch operations of section 4.1. *)
Definition dispatchStart hs (runId : nat) input : M World unit :=
  dispatch hs (EvStart runId input).

(** Modelled from the spec: section 4.1, [dispatchNewToken]. *)
Definition dispatchNewToken hs (runId : nat) (token : string) : M World unit :=
  dispatch hs (EvNewToken runId token).

(** Modelled from the spec: section 4.1, [dispatchEnd]. *)
Definition dispatchEnd hs (runId : nat) (result : Generation) : M World unit :=
  dispatch hs (EvEnd runId result).

(** Modelled from the spec: section 4.1, [dispatchError]. *)
Definition dispatchError hs (runId : nat) (error : Exn) : M World unit :=
  dispatch hs (EvError runId error).

(** Modelled from the spec: step 4 of section 4.2, one [dispatchNewToken]
    for each chunk, in arrival order. *)
Fixpoint dispatchChunks hs (runId : nat) (tokens : list string) : M World unit :=
  match tokens with
  | [] => ret tt
  | token :: tokens' =>
      dispatchNewToken hs runId token ;;;
      dispatchChunks hs runId tokens'
  end.

(** Modelled from the spec: the Cache interface of section 6. *)
Definition cache_lookup (key : string * string) (candidateIndex : nat)
  : M World (option Generation) :=
  w <- get ;;
  ret (cache w !! key ≫= fun results => results !! candidateIndex).

(** Modelled from the spec: [update] appends under the key and overwrites
    nothing (step 5 of section 4.2). *)
Definition store (key : string * string) (result : Generation) (w : World)
  : World :=
  {| cache := <[key := (default [] (cache w !! key) ++ [result])%list]> (cache w);
     dispatched := dispatched w;
     delivered := delivered w;
     handler_errors := handler_errors w;
     next_run_id := next_run_id w;
     provider_requests := provider_requests w |}.

(** Modelled from the spec: the Cache interface of section 6, [update]. *)
Definition cache_update (key : string * string) (result : Generation)
  : M World unit :=
  modify (store key result).

(** Modelled from the spec: the runId counter moves on. *)
Definition bump_run (w : World) : World :=
  {| cache := cache w;
     dispatched := dispatched w;
     delivered := delivered w;
     handler_errors := handler_errors w;
     next_run_id := S (next_run_id w);
     provider_requests := provider_requests w |}.

(** Modelled from the spec: a new invocation takes the next runId. *)
Definition new_run : M World nat :=
  w <- get ;;
  modify bump_run ;;;
  ret (next_run_id w).

(** Modelled from the spec: one more request has gone to the provider. *)
Definition bump_requests (w : World) : World :=
  {| cache := cache w;
     dispatched := dispatched w;
     delivered := delivered w;
     handler_errors := handler_errors w;
     next_run_id := next_run_id w;
     provider_requests := S (provider_requests w) |}.

(** Modelled from the spec: step 3 of section 4.2, the request made through
    the Async Caller. *)
Definition request (prompt : BasePromptValue BaseMessage) (options : Obj)
  : M World ProviderResponse :=
  w <- get ;;
  modify bump_requests ;;;
  ret (provider (provider_requests w) prompt options).

(** Modelled from the spec: the merged CallOptions of section 3; per-call
    values win over the model-level defaults. *)
Definition merged (this : ChatModel) (options : CallOptions) : Obj :=
  obj_spread (obj_spread [] (defaults this)) (call_options options).

(** Modelled from the spec: the fingerprint of a call, the prompt with the
    CacheKey of section 3. *)
Definition fingerprint (this : ChatModel) (prompt : BasePromptValue BaseMessage)
    (options : CallOptions) : string * string :=
  (prompt_text prompt,
   _getSerializedCacheKeyParametersForCall (lm this) (merged this options)).

(** Modelled from the spec: [invoke] of section 4.2, steps 1 to 6, for the
    first candidate. On a hit the cached text is replayed as a new-token
    event between the start and the end event. *)
Definition invoke (this : ChatModel)
    (input : BaseLanguageModelInput BaseMessageLike BaseMessage)
    (options : CallOptions) : M World Generation :=
  prompt <- lift (_convertInputToPromptValue coerceMessageLikeToMessage input) ;;
  runId <- new_run ;;
  let hs := callbacks options in
  let key := fingerprint this prompt options in
  dispatchStart hs runId prompt ;;;
  cached <- (if cache_configured this then cache_lookup key 0 else ret None) ;;
  match cached with
  | Some result =>
      dispatchNewToken hs runId (text result) ;;;
      dispatchEnd hs runId result ;;;
      ret result
  | None =>
      response <- request prompt (merged this options) ;;
      dispatchChunks hs runId (chunks response) ;;;
      match outcome response with
      | inr usage =>
          let result :=
            {| text := String.concat "" (chunks response); usage := usage |} in
          (if cache_configured this then cache_update key result else ret tt) ;;;
          dispatchEnd hs runId result ;;;
          ret result
      | inl error =>
          dispatchError hs runId error ;;;
          throw error
      end
  end.

(** The deliveries one event causes, from place [i] on. *)
Fixpoint deliveries (hs : list CallbackHandler) (i : nat) (ev : Event)
  : list (nat * Event) :=
  match hs with
  | [] => []
  | h :: hs' =>
      match deliver h ev with
      | Some _ => [(i, ev)]
      | None => []
      end ++ deliveries hs' (S i) ev
  end.

(** The world after some dispatches in a row. *)
Definition dispatch_all (hs : list CallbackHandler) (evs : list Event)
    (w : World) : World :=
  fold_left (fun w ev => dispatch_world hs ev w) evs w.

(** Modelled from the spec: the result the Cache holds for a call, when a
    Cache is configured (step 2 of section 4.2). *)
Definition cached_result (this : ChatModel)
    (prompt : BasePromptValue BaseMessage) (options : CallOptions) (w : World)
  : option Generation :=
  if cache_configured this
  then cache w !! fingerprint this prompt options ≫= fun results => results !! 0
  else None.

(** The events of a run that received [tokens] and ended with [last]. *)
Definition live_events (runId : nat) (prompt : BasePromptValue BaseMessage)
    (tokens : list string) (last : Event) : list Event :=
  (EvStart runId prompt :: (EvNewToken runId <$> tokens) ++ [last])%list.

(** The handler has a callback for the event. *)
Definition listens (h : CallbackHandler) (ev : Event) : Prop :=
  is_Some (deliver h ev).

(** The same call options with an empty callback set. *)
Definition without_callbacks (options : CallOptions) : CallOptions :=
  {| call_options := call_options options; callbacks := [] |}.

(** The tokens among some events, in order. *)
Definition tokens_of (evs : list Event) : list string :=
  omap (fun ev => match ev with EvNewToken _ t => Some t | _ => None end) evs.

(** What the handler in place [i] received among some deliveries. *)
Definition received (i : nat) (ds : list (nat * Event)) : list Event :=
  snd <$> filter (fun d => fst d = i) ds.

Definition run_id (ev : Event) : nat :=
  match ev with
  | EvStart r _ | EvNewToken r _ | EvEnd r _ | EvError r _ => r
  end.

(** [earlier a b]: event [a] may come before event [b] in one run. A start
    comes before everything else, a token before tokens and before the end
    or the error, and nothing comes after an end or an error. *)
Definition earlier (a b : Event) : Prop :=
  match a, b with
  | EvStart _ _, EvStart _ _ => False
  | EvStart _ _, _ => True
  | EvNewToken _ _, EvStart _ _ => False
  | EvNewToken _ _, _ => True
  | _, _ => False
  end.

Definition final (ev : Event) : Prop :=
  match ev with
  | EvEnd _ _ | EvError _ _ => True
  | _ => False
  end.

(** The events of the run [r] in a log. *)
Definition run_events (r : nat) (evs : list Event) : list Event :=
  filter (fun ev => run_id ev = r) evs.

(** A log in order: its runIds are below the next one to give out, and the
    events of each run are pairwise in the order [earlier]. *)
Definition log_ordered (w : World) : Prop :=
  Forall (fun ev => (run_id ev < next_run_id w)%nat) (dispatched w)
  ∧ ∀ r, StronglySorted earlier (run_events r (dispatched w)).
End WithMessages.

Arguments EvStart {BaseMessage} runId input.
Arguments EvNewToken {BaseMessage} runId token.
Arguments EvEnd {BaseMessage} runId result.
Arguments EvError {BaseMessage} runId error.
Arguments cache {BaseMessage} w.
Arguments dispatched {BaseMessage} w.
Arguments delivered {BaseMessage} w.
Arguments handler_errors {BaseMessage} w.
Arguments next_run_id {BaseMessage} w.
Arguments provider_requests {BaseMessage} w.
Arguments call_options {BaseMessage} c.
Arguments callbacks {BaseMessage} c.
Arguments deliver {BaseMessage} h ev.
Arguments deliveries {BaseMessage} hs i ev.
Arguments live_events {BaseMessage} runId prompt tokens last.
Arguments listens {BaseMessage} h ev.
Arguments without_callbacks {BaseMessage} options.
Arguments tokens_of {BaseMessage} evs.
Arguments received {BaseMessage} i ds.
Arguments run_id {BaseMessage} ev.
Arguments earlier {BaseMessage} a b.
Arguments final {BaseMessage} ev.
Arguments run_events {BaseMessage} r evs.
Arguments log_ordered {BaseMessage} w.

End Invocation.

(** ** A chat model to run the invocation path on *)

Module InvocationExamples.
Import Eff PromptValues CacheKey CacheKeyExamples Invocation.

Definition example_prompt_text (p : BasePromptValue (string * string)) : string :=
  match p with
  | StringPromptValue s => s
  | ChatPromptValue messages => String.concat (String "010" "") (snd <$> messages)
  end.

(** A provider that streams two chunks and answers differently from its
    second request on. *)
Definition example_provider (n : nat) (p : BasePromptValue (string * string))
    (options : Obj) : ProviderResponse :=
  {| chunks := match n with
               | 0 => ["Hello"; " back"]
               | S _ => ["Something"; " else"]
               end;
     outcome := inr {| completionTokens := Some 2; promptTokens := Some 3;
                       totalTokens := Some 5 |} |}.

(** A provider whose request fails after one chunk. *)
Definition failing_provider (n : nat) (p : BasePromptValue (string * string))
    (options : Obj) : ProviderResponse :=
  {| chunks := ["Hel"];
     outcome := inl (NonTransientProviderError "malformed request") |}.

Definition FakeChatModel : ChatModel :=
  {| lm := fake; defaults := []; cache_configured := true |}.

(** The handler of the tests: a new-token callback and nothing else. *)
Definition accumulating : CallbackHandler (string * string) :=
  {| handleLLMStart := None;
     handleLLMNewToken := Some (fun _ => inr tt);
     handleLLMEnd := None;
     handleLLMError := None |}.

(** A handler that throws on every new token. *)
Definition faulty : CallbackHandler (string * string) :=
  {| handleLLMStart := None;
     handleLLMNewToken := Some (fun _ => inl (JsError "handler failed"));
     handleLLMEnd := Some (fun _ => inr tt);
     handleLLMError := None |}.

Definition no_callbacks : CallOptions (string * string) :=
  {| call_options := []; callbacks := [] |}.

Definition with_callbacks (hs : list (CallbackHandler (string * string)))
  : CallOptions (string * string) :=
  {| call_options := []; callbacks := hs |}.

Definition empty_world : World (string * string) :=
  {| cache := ∅; dispatched := []; delivered := []; handler_errors := [];
     next_run_id := 0; provider_requests := 0 |}.

Definition example_invoke provider :=
  invoke string (string * string) coerce_human example_prompt_text provider.

Definition hello : BaseLanguageModelInput string (string * string) :=
  InputString "Hello there!".

Definition hello_back : Generation :=
  {| text := "Hello back";
     usage := {| completionTokens := Some 2; promptTokens := Some 3;
                 totalTokens := Some 5 |} |}.

(** The world after [FakeChatModel.invoke("Hello there!")]. *)
Definition after_first_call : World (string * string) :=
  snd (example_invoke example_provider FakeChatModel hello no_callbacks
         empty_world).

End InvocationExamples.

(** ** [JSON.parse]

    [JSON.parse] on a text whose code units are below 256, one character of
    the text for each. It reads every number and every escape of the JSON
    grammar. *)

Module JsonParse.

(** What [JSON.parse] returns. A string is the list of its code units. A
    number is kept as the decimal its literal denotes, [mantissa * 10 ^
    exponent] with a sign, the mantissa free of trailing zeros: JavaScript
    rounds it to the nearest double, which nothing below depends on. The
    members of an object are in the order of the text, each name once;
    JavaScript lists the names that are array indices before the others,
    an order that only enumeration shows and nothing below uses. *)
#[local] Unset Elimination Schemes.
Inductive Json : Type :=
| JNull
| JBool (b : bool)
| JNumber (negative : bool) (mantissa : N) (exponent : Z)
| JString (s : list N)
| JArray (xs : list Json)
| JObject (members : list (list N * Json)).
#[local] Set Elimination Schemes.

(** The code units of a text. *)
Definition units (s : string) : list N :=
  N_of_ascii <$> list_ascii_of_string s.

Definition json_get (o : list (list N * Json)) (k : list N) : option Json :=
  snd <$> List.find (fun e => bool_decide (fst e = k)) o.

(** A member named again keeps its place and takes the new value. *)
Fixpoint json_set (o : list (list N * Json)) (k : list N) (v : Json)
  : list (list N * Json) :=
  match o with
  | [] => [(k, v)]
  | (k', v') :: o' =>
      if decide (k' = k) then (k, v) :: o' else (k', v') :: json_set o' k v
  end.

Definition is_ws (c : ascii) : bool :=
  bool_decide (c ∈ [" "; "009"; "010"; "013"]%char).

Fixpoint skip_ws (s : string) : string :=
  match s with
  | EmptyString => EmptyString
  | String c s' => if is_ws c then skip_ws s' else s
  end.

Definition digit_value (c : ascii) : option N :=
  let n := N_of_ascii c in
  if decide (48 ≤ n ∧ n ≤ 57)%N then Some (n - 48)%N else None.

Definition hex_value (c : ascii) : option N :=
  let n := N_of_ascii c in
  if decide (48 ≤ n ∧ n ≤ 57)%N then Some (n - 48)%N
  else if decide (97 ≤ n ∧ n ≤ 102)%N then Some (n - 87)%N
  else if decide (65 ≤ n ∧ n ≤ 70)%N then Some (n - 55)%N
  else None.

(** *** Numbers *)

(** The digits at the head of [s], and what follows them. *)
Fixpoint span_digits (s : string) : string * string :=
  match s with
  | EmptyString => (EmptyString, EmptyString)
  | String c s' =>
      match digit_value c with
      | Some _ => let '(d, rest) := span_digits s' in (String c d, rest)
      | None => (EmptyString, s)
      end
  end.

(** The number a string of digits writes, read onto [acc]. *)
Fixpoint digits_value (acc : N) (d : string) : N :=
  match d with
  | EmptyString => acc
  | String c d' => digits_value (10 * acc + default 0 (digit_value c))%N d'
  end.

(** [int] of the grammar: a zero, or digits that start with none. *)
Definition is_int (d : string) : bool :=
  match d with
  | EmptyString => false
  | String "0" EmptyString => true
  | String "0" _ => false
  | String _ _ => true
  end.

(** [frac]: absent, or a point and digits, at least one. *)
Definition parse_frac (s : string) : option (string * string) :=
  match s with
  | String "." s' =>
      let '(d, rest) := span_digits s' in
      if decide (d = "") then None else Some (d, rest)
  | _ => Some (EmptyString, s)
  end.

(** The digits of an exponent, at least one, with the sign read before
    them. *)
Definition exp_digits (negative : bool) (s : string) : option (Z * string) :=
  let '(d, rest) := span_digits s in
  if decide (d = "") then None
  else
    let e := Z.of_N (digits_value 0 d) in
    Some (if negative then (- e)%Z else e, rest).

(** [exp]: absent, or [e] or [E], a sign or none, and digits. *)
Definition parse_exp (s : string) : option (Z * string) :=
  match s with
  | String c s' =>
      if bool_decide (c ∈ ["e"; "E"]%char) then
        match s' with
        | String "+" s'' => exp_digits false s''
        | String "-" s'' => exp_digits true s''
        | _ => exp_digits false s'
        end
      else Some (0%Z, s)
  | EmptyString => Some (0%Z, s)
  end.

(** A mantissa without its trailing zeros; zero has the exponent 0. *)
Fixpoint normalise (fuel : nat) (m : N) (e : Z) : N * Z :=
  match fuel with
  | 0 => (m, e)
  | S fuel' =>
      if decide (m = 0%N) then (0%N, 0%Z)
      else if decide (m mod 10 = 0)%N then normalise fuel' (m / 10)%N (e + 1)%Z
      else (m, e)
  end.

Definition number_of (negative : bool) (int frac : string) (exp : Z) : Json :=
  let '(m, e) :=
    normalise (String.length int + String.length frac)
      (digits_value 0 (int ++ frac)) (exp - Z.of_nat (String.length frac)) in
  JNumber negative m e.

Definition parse_number (s : string) : option (Json * string) :=
  let '(negative, s1) :=
    match s with
    | String "-" s' => (true, s')
    | _ => (false, s)
    end in
  let '(int, rest1) := span_digits s1 in
  if is_int int then
    match parse_frac rest1 with
    | Some (frac, rest2) =>
        match parse_exp rest2 with
        | Some (exp, rest3) => Some (number_of negative int frac exp, rest3)
        | None => None
        end
    | None => None
    end
  else None.

(** *** Strings *)

(** The code unit an escape letter stands for. *)
Definition unescape (e : ascii) : option N :=
  if decide (e = dquote) then Some 34%N
  else if decide (e = backslash) then Some 92%N
  else if decide (e = "/"%char) then Some 47%N
  else if decide (e = "b"%char) then Some 8%N
  else if decide (e = "f"%char) then Some 12%N
  else if decide (e = "n"%char) then Some 10%N
  else if decide (e = "r"%char) then Some 13%N
  else if decide (e = "t"%char) then Some 9%N
  else None.

Definition hex4 (h1 h2 h3 h4 : ascii) : option N :=
  match hex_value h1, hex_value h2, hex_value h3, hex_value h4 with
  | Some a, Some b, Some c, Some d => Some (((a * 16 + b) * 16 + c) * 16 + d)%N
  | _, _, _, _ => None
  end.

Definition prepend (u : N) (r : list N * string) : list N * string :=
  (u :: fst r, snd r).

(** A string after its opening quote: the code units up to the closing
    quote, and what follows it. *)
Fixpoint parse_string_body (s : string) : option (list N * string) :=
  match s with
  | EmptyString => None
  | String c s' =>
      if decide (c = dquote) then Some ([], s')
      else if decide (c = backslash) then
        match s' with
        | String e s'' =>
            match unescape e with
            | Some u => prepend u <$> parse_string_body s''
            | None =>
                match e, s'' with
                | "u"%char, String h1 (String h2 (String h3 (String h4 s5))) =>
                    match hex4 h1 h2 h3 h4 with
                    | Some code => prepend code <$> parse_string_body s5
                    | None => None
                    end
                | _, _ => None
                end
            end
        | EmptyString => None
        end
      else if decide (N_of_ascii c < 32)%N then None
      else prepend (N_of_ascii c) <$> parse_string_body s'
  end.

(** *** Values *)

(** [s] starts with the word [w]: what follows the word. *)
Fixpoint strip_prefix (w s : string) : option string :=
  match w, s with
  | EmptyString, _ => Some s
  | String a w', String b s' => if decide (a = b) then strip_prefix w' s' else None
  | String _ _, EmptyString => None
  end.

(** [s] starts with the character [c]: what follows it. *)
Definition expect (c : ascii) (s : string) : option string :=
  match s with
  | String c' s' => if decide (c' = c) then Some s' else None
  | EmptyString => None
  end.

(** A value, the elements of an array after its bracket, the members of an
    object after its brace. *)
Fixpoint parse_value (fuel : nat) (s : string) : option (Json * string) :=
  match fuel with
  | 0 => None
  | S fuel' =>
      let s1 := skip_ws s in
      match expect "{" s1 with
      | Some rest =>
          match expect "}" (skip_ws rest) with
          | Some rest' => Some (JObject [], rest')
          | None =>
              match parse_members fuel' rest [] with
              | Some (members, rest') => Some (JObject members, rest')
              | None => None
              end
          end
      | None =>
      match expect "[" s1 with
      | Some rest =>
          match expect "]" (skip_ws rest) with
          | Some rest' => Some (JArray [], rest')
          | None =>
              match parse_elements fuel' rest [] with
              | Some (xs, rest') => Some (JArray xs, rest')
              | None => None
              end
          end
      | None =>
      match expect dquote s1 with
      | Some rest =>
          match parse_string_body rest with
          | Some (str, rest') => Some (JString str, rest')
          | None => None
          end
      | None =>
      match strip_prefix "true" s1 with
      | Some rest' => Some (JBool true, rest')
      | None =>
      match strip_prefix "false" s1 with
      | Some rest' => Some (JBool false, rest')
      | None =>
      match strip_prefix "null" s1 with
      | Some rest' => Some (JNull, rest')
      | None => parse_number s1
      end end end end end end
  end
with parse_elements (fuel : nat) (s : string) (acc : list Json)
  : option (list Json * string) :=
  match fuel with
  | 0 => None
  | S fuel' =>
      match parse_value fuel' s with
      | Some (x, rest) =>
          match expect "," (skip_ws rest) with
          | Some rest' => parse_elements fuel' rest' (acc ++ [x])%list
          | None =>
              match expect "]" (skip_ws rest) with
              | Some rest' => Some ((acc ++ [x])%list, rest')
              | None => None
              end
          end
      | None => None
      end
  end
with parse_members (fuel : nat) (s : string) (acc : list (list N * Json))
  : option (list (list N * Json) * string) :=
  match fuel with
  | 0 => None
  | S fuel' =>
      match expect dquote (skip_ws s) with
      | Some rest =>
          match parse_string_body rest with
          | Some (key, rest1) =>
              match expect ":" (skip_ws rest1) with
              | Some rest2 =>
                  match parse_value fuel' rest2 with
                  | Some (x, rest3) =>
                      match expect "," (skip_ws rest3) with
                      | Some rest4 =>
                          parse_members fuel' rest4 (json_set acc key x)
                      | None =>
                          match expect "}" (skip_ws rest3) with
                          | Some rest4 => Some (json_set acc key x, rest4)
                          | None => None
                          end
                      end
                  | None => None
                  end
              | None => None
              end
          | None => None
          end
      | None => None
      end
  end.

(** [JSON.parse text]; [None] is the [SyntaxError]. The fuel bounds the
    depth of the calls; twice the length of the text is enough for every
    text that parses at all. *)
Definition JSON_parse (text : string) : option Json :=
  match parse_value (2 * String.length text) text with
  | Some (v, rest) => if decide (skip_ws rest = "") then Some v else None
  | None => None
  end.

End JsonParse.

(** ** The JSON grammar

    The texts of ECMA-404 and the values they denote, stated on whole
    texts with concatenation, apart from the functions that read them. *)

Module JsonGrammar.
Import JsonParse.

(** Whitespace: spaces, tabs, line feeds and carriage returns. *)
Definition ws (w : string) : Prop :=
  Forall (fun c => c ∈ [" "; "009"; "010"; "013"]%char) (list_ascii_of_string w).

(** One digit or more. *)
Definition digits (d : string) : Prop :=
  d ≠ "" ∧ Forall (fun c => is_Some (digit_value c)) (list_ascii_of_string d).

(** [int]: a zero, or digits that do not start with a zero. *)
Definition int_text (d : string) : Prop :=
  d = "0" ∨ (digits d ∧ ∀ d', d ≠ String "0" d').

(** [frac]: nothing, or a point and digits. The second component is the
    digits. *)
Inductive frac_text : string → string → Prop :=
| frac_none : frac_text "" ""
| frac_some d : digits d → frac_text (String "." d) d.

(** [exp]: nothing, or [e] or [E], a sign or none, and digits. *)
Inductive exp_text : string → Z → Prop :=
| exp_none : exp_text "" 0
| exp_plain c d :
    c ∈ ["e"; "E"]%char → digits d →
    exp_text (String c d) (Z.of_N (digits_value 0 d))
| exp_plus c d :
    c ∈ ["e"; "E"]%char → digits d →
    exp_text (String c (String "+" d)) (Z.of_N (digits_value 0 d))
| exp_minus c d :
    c ∈ ["e"; "E"]%char → digits d →
    exp_text (String c (String "-" d)) (- Z.of_N (digits_value 0 d)).

(** [number]: a minus or none, [int], [frac], [exp]. *)
Inductive number_text : string → Json → Prop :=
| number_positive int ft frac et exp :
    int_text int → frac_text ft frac → exp_text et exp →
    number_text (int ++ ft ++ et) (number_of false int frac exp)
| number_negative int ft frac et exp :
    int_text int → frac_text ft frac → exp_text et exp →
    number_text (String "-" (int ++ ft ++ et)) (number_of true int frac exp).

(** [characters]: the inside of a string, with the code units it writes. *)
Inductive chars_text : string → list N → Prop :=
| chars_nil : chars_text "" []
| chars_plain c t us :
    c ≠ dquote → c ≠ backslash → (32 ≤ N_of_ascii c)%N →
    chars_text t us →
    chars_text (String c t) (N_of_ascii c :: us)
| chars_escape e u t us :
    unescape e = Some u →
    chars_text t us →
    chars_text (String backslash (String e t)) (u :: us)
| chars_unicode h1 h2 h3 h4 code t us :
    hex4 h1 h2 h3 h4 = Some code →
    chars_text t us →
    chars_text
      (String backslash (String "u" (String h1 (String h2 (String h3 (String h4 t))))))
      (code :: us).

(** A string with its quotes. *)
Definition quoted (body : string) : string :=
  String dquote (body ++ String dquote "").

(** The object a list of members makes: a name met again keeps its place
    and takes the new value. *)
Definition members_value (ms : list (list N * Json)) : list (list N * Json) :=
  fold_left (fun acc e => json_set acc (fst e) (snd e)) ms [].

(** [value], [elements] and [members]. *)
Inductive value_text : string → Json → Prop :=
| value_null : value_text "null" JNull
| value_true : value_text "true" (JBool true)
| value_false : value_text "false" (JBool false)
| value_number t n : number_text t n → value_text t n
| value_string body us :
    chars_text body us → value_text (quoted body) (JString us)
| value_array_empty w : ws w → value_text ("[" ++ w ++ "]") (JArray [])
| value_array t xs :
    elements_text t xs → value_text ("[" ++ t ++ "]") (JArray xs)
| value_object_empty w : ws w → value_text ("{" ++ w ++ "}") (JObject [])
| value_object t ms :
    members_text t ms →
    value_text ("{" ++ t ++ "}") (JObject (members_value ms))
with elements_text : string → list Json → Prop :=
| elements_one w1 t v w2 :
    ws w1 → value_text t v → ws w2 →
    elements_text (w1 ++ t ++ w2) [v]
| elements_more w1 t v w2 ts vs :
    ws w1 → value_text t v → ws w2 → elements_text ts vs →
    elements_text (w1 ++ t ++ w2 ++ "," ++ ts) (v :: vs)
with members_text : string → list (list N * Json) → Prop :=
| members_one w0 key k w1 w2 t v w3 :
    ws w0 → chars_text key k → ws w1 → ws w2 → value_text t v → ws w3 →
    members_text (w0 ++ quoted key ++ w1 ++ ":" ++ w2 ++ t ++ w3) [(k, v)]
| members_more w0 key k w1 w2 t v w3 ts ms :
    ws w0 → chars_text key k → ws w1 → ws w2 → value_text t v → ws w3 →
    members_text ts ms →
    members_text (w0 ++ quoted key ++ w1 ++ ":" ++ w2 ++ t ++ w3 ++ "," ++ ts)
      ((k, v) :: ms).

Scheme value_text_mut := Minimality for value_text Sort Prop
  with elements_text_mut := Minimality for elements_text Sort Prop
  with members_text_mut := Minimality for members_text Sort Prop.
Combined Scheme json_text_mutind
  from value_text_mut, elements_text_mut, members_text_mut.

(** A JSON text: a value between whitespace. *)
Definition json_text (text : string) (v : Json) : Prop :=
  ∃ w1 t w2, text = w1 ++ t ++ w2 ∧ ws w1 ∧ value_text t v ∧ ws w2.

End JsonGrammar.

(** ** The Structured Output Wrapper

    [base.ts] declares [withStructuredOutput] and its option types (lines
    247-252 and 499-551); the wrapper itself is described by the
    specification (sections 3, 4.3 and 7) and modelled from it. *)

Module StructuredOutput.
Import Eff JsonParse.
Local Open Scope eff_scope.

(** [method] of [StructuredOutputMethodOptions]. *)
Inductive Method : Type := functionCalling | jsonMode.

(** [StructuredOutputMethodOptions] of [base.ts], lines 247-252; its
    documentation gives the defaults [functionCalling] and [false]. *)
Record StructuredOutputMethodOptions : Type := {
  name : option string;
  method : option Method;
  includeRaw : option bool
}.

(** Modelled from the spec: a StructuredOutputSchema (section 3), the shape
    a parsed value must have. *)
#[local] Unset Elimination Schemes.
Inductive Schema : Type :=
| SBoolean
| SNumber
| SString
| SArray (item : Schema)
| SObject (shape : list (string * Schema)).
#[local] Set Elimination Schemes.

(** *** Induction on schemas *)

Section SchemaInd.
Variable P : Schema → Prop.
Hypothesis Hboolean : P SBoolean.
Hypothesis Hnumber : P SNumber.
Hypothesis Hstring : P SString.
Hypothesis Harray : ∀ item, P item → P (SArray item).
Hypothesis Hobject : ∀ shape, Forall (fun e => P (snd e)) shape → P (SObject shape).

Fixpoint Schema_ind (s : Schema) : P s :=
  match s with
  | SBoolean => Hboolean
  | SNumber => Hnumber
  | SString => Hstring
  | SArray item => Harray item (Schema_ind item)
  | SObject shape =>
      Hobject shape
        ((fix go (l : list (string * Schema)) : Forall (fun e => P (snd e)) l :=
            match l with
            | [] => List.Forall_nil _
            | e :: l' =>
                @List.Forall_cons _ (fun e => P (snd e)) e l'
                  (Schema_ind (snd e)) (go l')
            end) shape)
  end.
End SchemaInd.

(** Modelled from the spec: a structured call in the output of the model,
    with its arguments as the model wrote them, a text. *)
Record ToolCall : Type := {
  tool_name : string;
  arguments : string
}.

(** Modelled from the spec: the raw output of the underlying model, a
    message with its text and the structured calls it holds. *)
Record AIMessage : Type := {
  content : string;
  tool_calls : list ToolCall
}.

(** Modelled from the spec: what the wrapper instructs the wrapped model to
    do (section 4.3): to emit a single structured call matching the schema,
    under the tool name of the options if there is one, or to emit raw JSON
    text. How a model is made to comply is the provider's concern. *)
Inductive Instruction : Type :=
| EmitCall (name : option string) (schema : Schema)
| EmitJson (schema : Schema).

Definition instruction (m : Method) (name : option string) (schema : Schema)
  : Instruction :=
  match m with
  | functionCalling => EmitCall name schema
  | jsonMode => EmitJson schema
  end.

(** Modelled from the spec: the tagged result of section 9, selected by
    [includeRaw]. *)
Inductive StructuredResult : Type :=
| Parsed (parsed : Json)
| ParsedWithRaw (raw : AIMessage) (parsed : Json).

(** Modelled from the spec: the invariant of section 3, the value has the
    shape of the schema; every field of an object schema is required. *)
Fixpoint conforms (schema : Schema) (v : Json) : bool :=
  match schema, v with
  | SBoolean, JBool _ => true
  | SNumber, JNumber _ _ _ => true
  | SString, JString _ => true
  | SArray item, JArray xs => forallb (conforms item) xs
  | SObject shape, JObject members =>
      (fix all (l : list (string * Schema)) : bool :=
         match l with
         | [] => true
         | (k, field) :: l' =>
             match json_get members (units k) with
             | Some x => conforms field x
             | None => false
             end && all l'
         end) shape
  | _, _ => false
  end.

(** Modelled from the spec: the same invariant as a relation. A boolean, a
    number and a string conform to their types; an array conforms when
    each of its elements conforms to the item; an object conforms when it
    holds, under every field of the schema, a value that conforms to the
    field. *)
#[local] Unset Elimination Schemes.
Inductive Conforms : Schema → Json → Prop :=
| Conforms_boolean b : Conforms SBoolean (JBool b)
| Conforms_number negative mantissa exponent :
    Conforms SNumber (JNumber negative mantissa exponent)
| Conforms_string s : Conforms SString (JString s)
| Conforms_array item xs :
    Forall (Conforms item) xs → Conforms (SArray item) (JArray xs)
| Conforms_object shape members :
    Forall (fun field =>
              ∃ x, json_get members (units (fst field)) = Some x
                   ∧ Conforms (snd field) x) shape →
    Conforms (SObject shape) (JObject members).
#[local] Set Elimination Schemes.

(** Modelled from the spec: [validate] of the Schema interface (section 6);
    a value that conforms is returned as it is, another one is a
    structured-output parsing error. *)
Definition validate (schema : Schema) (v : Json) : Exn + Json :=
  if conforms schema v then inr v
  else inl (StructuredOutputParsingError "Output does not match the schema").

(** Modelled from the spec: the text the wrapper reads, by method (section
    4.3): the arguments of the structured call, or the text of the
    message. *)
Definition payload (m : Method) (raw : AIMessage) : option string :=
  match m with
  | functionCalling =>
      match tool_calls raw with
      | call :: _ => Some (arguments call)
      | [] => None
      end
  | jsonMode => Some (content raw)
  end.

(** Modelled from the spec: the text is parsed as JSON; a message without
    the text to read and a text that is not JSON are parsing errors. *)
Definition extract (m : Method) (raw : AIMessage) : Exn + Json :=
  match payload m raw with
  | Some text =>
      match JSON_parse text with
      | Some v => inr v
      | None => inl (StructuredOutputParsingError "Output is not valid JSON")
      end
  | None => inl (StructuredOutputParsingError "No structured call in the output")
  end.

(** Modelled from the spec: extraction, then validation. *)
Definition parse_output (schema : Schema) (m : Method) (raw : AIMessage)
  : Exn + Json :=
  match extract m raw with
  | inr v => validate schema v
  | inl e => inl e
  end.

(** Modelled from the spec: the output-shape switch of section 4.3. *)
Definition shape_result (withRaw : bool) (raw : AIMessage) (parsed : Json)
  : StructuredResult :=
  if withRaw then ParsedWithRaw raw parsed else Parsed parsed.

(** The method in force: the one of the options, or the default. *)
Definition method_of (config : StructuredOutputMethodOptions) : Method :=
  default functionCalling (method config).

Section WithModel.
(** The wrapped model: any runnable that takes the instruction of the
    wrapper and an input to a message. *)
Context {World Input : Type}.
Variable llm : Instruction → Input → M World AIMessage.

(** Modelled from the spec: the wrapper of section 4.3, invocable like the
    model it wraps. *)
Definition withStructuredOutput (schema : Schema)
    (config : StructuredOutputMethodOptions) (input : Input)
  : M World StructuredResult :=
  let m := method_of config in
  raw <- llm (instruction m (name config) schema) input ;;
  parsed <- lift (parse_output schema m raw) ;;
  ret (shape_result (default false (includeRaw config)) raw parsed).
End WithModel.

(** The value inside a result. *)
Definition parsed_of (r : StructuredResult) : Json :=
  match r with
  | Parsed v => v
  | ParsedWithRaw _ v => v
  end.

(** The same options with [includeRaw] set. *)
Definition with_includeRaw (b : bool) (config : StructuredOutputMethodOptions)
  : StructuredOutputMethodOptions :=
  {| name := name config; method := method config; includeRaw := Some b |}.

(** The schema, the text and the value of the tests of [chat_models.test.ts]:
    [z.object({ test: z.boolean(), nested: z.object({ somethingelse:
    z.string() }) })]. *)
Definition test_schema : Schema :=
  SObject [("test", SBoolean);
           ("nested", SObject [("somethingelse", SString)])].

Definition test_text : string :=
  dq "{ 'test': true, 'nested': { 'somethingelse': 'somevalue' } }".

(** The same output as the specification writes it. *)
Definition claim_text : string :=
  dq "{'test': true, 'nested': {'somethingelse': 'somevalue'}}".

Definition test_value : Json :=
  JObject [(units "test", JBool true);
           (units "nested",
            JObject [(units "somethingelse", JString (units "somevalue"))])].

(** Modelled from the spec: [FakeListChatModel] of the tests, as a model
    that does what the wrapper instructs it to. It answers with its
    responses in turn, starting over after the last; the response is the
    text of its message and, when it is to emit a structured call, the
    arguments of that call. The world is the number of answers given. *)
Definition FakeListChatModel (responses : list string) (todo : Instruction)
    (input : string) : M nat AIMessage :=
  fun i =>
    let response := default "" (responses !! (i mod length responses)%nat) in
    (inr {| content := response;
            tool_calls :=
              match todo with
              | EmitCall name _ =>
                  [{| tool_name := default "extract" name;
                      arguments := response |}]
              | EmitJson _ => []
              end |},
     S i).

End StructuredOutput.

(** ** What a token count leaves behind ([base.ts], lines 86-108 and
       397-432)

    The observable effects of [getNumTokens] and [calculateMaxTokens], as
    functions of the world they start in. *)

Module TokenTrace.
Import Eff Tokens.

(** The fetch [getNumTokens] makes: none with a cached encoder, none when
    the cast name is not a string (the call throws before the fetch), one
    otherwise. *)
Definition fetch_calls (i : Instance) : list TiktokenCall :=
  match _encoding i with
  | Some _ => []
  | None =>
      match modelName i with
      | Some (VStr s) => [CallEncodingForModel (getModelNameForTiktoken s)]
      | Some _ => []
      | None => [CallEncodingForModel "gpt2"]
      end
  end.

Definition encode_calls (enc : option Tiktoken) (text : string)
  : list TiktokenCall :=
  match enc with
  | Some _ => [CallEncode text]
  | None => []
  end.

(** What is printed when the count of [text] with [enc] falls back. *)
Definition warnings (enc : option Tiktoken) (text : string) : list string :=
  match tokenizer_count enc text with
  | Some _ => []
  | None => [fallback_warning]
  end.

(** A tokenizer library whose encoder gives every character one token. *)
Definition char_tiktoken : string → Exn + Tiktoken :=
  fun _ => inr {| encode := fun s => inr (nat_of_ascii <$> list_ascii_of_string s) |}.

End TokenTrace.

(** ** The serialized form of a model ([base.ts], lines 450-452 and
       483-489) *)

Module Serialized.
Import Eff CacheKey.

(** [serialize()]. *)
Definition serialize (this : LanguageModel) : Obj :=
  obj_set
    (obj_set (obj_spread [] (_identifyingParams this))
       "_type" (VStr (_llmType this)))
    "_model" (VStr (_modelType this)).

(** A model of the base class, whose [_identifyingParams()] is empty. *)
Definition base_model (llmType modelType : string) : LanguageModel :=
  {| _identifyingParams := []; _llmType := llmType; _modelType := modelType |}.

End Serialized.

(** ** Key mapping of serialized fields ([unnamed/part_001])

    Objects live in a store and are passed by reference: [setPath] and
    [deletePath] write through whatever object the path leads to, and
    [mapKeys] copies the references held by its argument, so the objects
    nested in the result are those nested in the argument.

    The model covers plain objects with data properties. A property access
    whose meaning depends on more than that is left out of it, and a run
    that meets one has the outcome [Unmodelled]: an access under a name
    that [Object.prototype] defines or under a name made of digits (engines
    enumerate those first), any access to the properties of an array, and
    reading a property of a string, a number or a boolean. *)

Module MapKeys.
Import Eff.

(** A value of type [any]: a primitive, or the reference of an array or of
    an object. *)
Inductive Any : Type :=
| AUndefined
| ANull
| ABool (b : bool)
| ANum (n : Num)
| AStr (s : string)
| AArray (a : nat)
| AObject (l : nat).

(** The own enumerable properties of an object, in enumeration order. *)
Abbreviation Props := (list (string * Any)).

Abbreviation Heap := (gmap nat Props).

Inductive Outcome (A : Type) : Type :=
| Returns (a : A) (h : Heap)
| Throws (e : Exn) (h : Heap)
| Unmodelled.

Arguments Returns {A} a h.
Arguments Throws {A} e h.
Arguments Unmodelled {A}.

Definition H (A : Type) : Type := Heap → Outcome A.

Definition ret {A} (a : A) : H A := fun h => Returns a h.

Definition bind {A B} (m : H A) (k : A → H B) : H B :=
  fun h =>
    match m h with
    | Returns a h' => k a h'
    | Throws e h' => Throws e h'
    | Unmodelled => Unmodelled
    end.

Definition throw {A} (e : Exn) : H A := fun h => Throws e h.

Definition unmodelled {A} : H A := fun _ => Unmodelled.

Declare Scope heap_scope.
Delimit Scope heap_scope with heap.
Notation "x <- m ;; k" := (bind m (fun x => k))
  (at level 100, m at next level, right associativity) : heap_scope.
Notation "m ;;; k" := (bind m (fun _ => k))
  (at level 100, right associativity) : heap_scope.
Local Open Scope heap_scope.

(** A [TypeError] of the runtime, whatever its message. *)
Definition TypeError : Exn := JsError "TypeError".

(** *** Property names *)

Definition Object_prototype_names : list string :=
  ["constructor"; "__defineGetter__"; "__defineSetter__"; "hasOwnProperty";
   "__lookupGetter__"; "__lookupSetter__"; "isPrototypeOf";
   "propertyIsEnumerable"; "toString"; "valueOf"; "__proto__";
   "toLocaleString"].

Definition is_digit (c : ascii) : bool :=
  bool_decide (48 ≤ nat_of_ascii c ≤ 57)%nat.

Definition digits_only (k : string) : bool :=
  forallb is_digit (list_ascii_of_string k).

(** A name whose accesses the model covers. The empty name is one. *)
Definition modelled (k : string) : bool :=
  negb (bool_decide (k ∈ Object_prototype_names))
  && (bool_decide (k = "") || negb (digits_only k)).

(** [s.includes(".")]. *)
Definition includes_dot (s : string) : bool :=
  bool_decide ("."%char ∈ list_ascii_of_string s).

(** [s.split(".")]: never empty. *)
Fixpoint split_dot (s : string) : list string :=
  match s with
  | EmptyString => [""]
  | String c s' =>
      if decide (c = "."%char) then "" :: split_dot s'
      else
        match split_dot s' with
        | x :: l => String c x :: l
        | [] => [String c ""]
        end
  end.

(** *** Own properties *)

Definition prop_get (o : Props) (k : string) : option Any :=
  snd <$> List.find (fun e => bool_decide (fst e = k)) o.

(** [o[k] = v]: an existing property keeps its place, a new one goes last. *)
Fixpoint prop_set (o : Props) (k : string) (v : Any) : Props :=
  match o with
  | [] => [(k, v)]
  | (k', v') :: o' =>
      if decide (k' = k) then (k, v) :: o' else (k', v') :: prop_set o' k v
  end.

Definition prop_delete (o : Props) (k : string) : Props :=
  filter (fun e => fst e ≠ k) o.

Definition is_undefined (v : Any) : bool :=
  match v with AUndefined => true | _ => false end.

(** [Array.isArray(v)]. *)
Definition Array_isArray (v : Any) : bool :=
  match v with AArray _ => true | _ => false end.

(** *** Property accesses *)

(** [part in current]: it throws when [current] is not an object. *)
Definition has_property (part : string) (current : Any) : H bool :=
  match current with
  | AObject l =>
      fun h =>
        match h !! l with
        | Some props =>
            if modelled part then Returns (bool_decide (part ∈ props.*1)) h
            else Unmodelled
        | None => Unmodelled
        end
  | AArray _ => unmodelled
  | AUndefined | ANull | ABool _ | ANum _ | AStr _ => throw TypeError
  end.

(** [current[part]]. *)
Definition get_property (current : Any) (part : string) : H Any :=
  match current with
  | AObject l =>
      fun h =>
        match h !! l with
        | Some props =>
            if modelled part then Returns (default AUndefined (prop_get props part)) h
            else Unmodelled
        | None => Unmodelled
        end
  | AUndefined | ANull => throw TypeError
  | AArray _ | ABool _ | ANum _ | AStr _ => unmodelled
  end.

(** [current[part] = value], in strict code: on a primitive it throws. *)
Definition set_property (current : Any) (part : string) (value : Any) : H unit :=
  match current with
  | AObject l =>
      fun h =>
        match h !! l with
        | Some props =>
            if modelled part then Returns tt (<[l:=prop_set props part value]> h)
            else Unmodelled
        | None => Unmodelled
        end
  | AArray _ => unmodelled
  | AUndefined | ANull | ABool _ | ANum _ | AStr _ => throw TypeError
  end.

(** [delete current[part]]. *)
Definition delete_property (current : Any) (part : string) : H unit :=
  match current with
  | AObject l =>
      fun h =>
        match h !! l with
        | Some props =>
            if modelled part then Returns tt (<[l:=prop_delete props part]> h)
            else Unmodelled
        | None => Unmodelled
        end
  | AUndefined | ANull => throw TypeError
  | ABool _ | ANum _ => ret tt
  | AArray _ | AStr _ => unmodelled
  end.

(** [{}]: a new object, at a reference no object has yet. *)
Definition new_object : H nat :=
  fun h => let l := fresh (dom h) in Returns l (<[l:=[]]> h).

(** *** [getPath], [setPath], [deletePath] *)

(** The loop of [getPath]: [None] when it returned [undefined] from inside
    the loop, the last [current] otherwise. *)
Fixpoint getPath_loop (parts : list string) (current : Any) : H (option Any) :=
  match parts with
  | [] => ret (Some current)
  | part :: parts' =>
      present <- has_property part current ;;
      if negb present || is_undefined current then ret None
      else
        next <- get_property current part ;;
        if Array_isArray next
        then throw (JsError "Aliasing arrays is not supported")
        else getPath_loop parts' next
  end.

Definition getPath (fields : Any) (path : string) : H Any :=
  match split_dot path with
  | last :: rest =>
      current <- getPath_loop (reverse rest) fields ;;
      match current with
      | None => ret AUndefined
      | Some current => get_property current last
      end
  | [] => unmodelled
  end.

Fixpoint setPath_loop (parts : list string) (current : Any) : H Any :=
  match parts with
  | [] => ret current
  | part :: parts' =>
      present <- has_property part current ;;
      held <- (if present then get_property current part else ret AUndefined) ;;
      (if negb present || is_undefined held
       then l <- new_object ;; set_property current part (AObject l)
       else ret tt) ;;;
      next <- get_property current part ;;
      setPath_loop parts' next
  end.

Definition setPath (fields : Any) (path : string) (value : Any) : H unit :=
  match reverse (split_dot path) with
  | last :: rest =>
      current <- setPath_loop (reverse rest) fields ;;
      set_property current last value
  | [] => unmodelled
  end.

(** The loop of [deletePath]: [None] when the function returned from inside
    the loop. *)
Fixpoint deletePath_loop (parts : list string) (current : Any) : H (option Any) :=
  match parts with
  | [] => ret (Some current)
  | part :: parts' =>
      present <- has_property part current ;;
      held <- (if present then get_property current part else ret AUndefined) ;;
      if negb present || is_undefined held then ret None
      else
        next <- get_property current part ;;
        deletePath_loop parts' next
  end.

Definition deletePath (fields : Any) (path : string) : H unit :=
  match reverse (split_dot path) with
  | last :: rest =>
      current <- deletePath_loop (reverse rest) fields ;;
      match current with
      | None => ret tt
      | Some current => delete_property current last
      end
  | [] => unmodelled
  end.

(** *** [keyToJson], [keyFromJson], [mapKeys] *)

(** [SerializedKeyAlias]. *)
Definition SerializedKeyAlias : Type := list (string * string).

(** [map?.[key]], for a key that [Object.prototype] does not define. *)
Definition alias_of (key : string) (map : option SerializedKeyAlias)
  : option string :=
  map ≫= fun m => snd <$> List.find (fun e => bool_decide (fst e = key)) m.

(** [a || b] on strings that may be [undefined]: the empty string is
    falsy. *)
Definition or_else (a : option string) (b : string) : string :=
  match a with
  | Some s => if decide (s = "") then b else s
  | None => b
  end.

Section WithCases.
(** [decamelize] and [camelcase], the two libraries the module imports. *)
Variables snakeCase camelCase : string → string.

Definition keyToJson (key : string) (map : option SerializedKeyAlias) : string :=
  or_else (alias_of key map) (snakeCase key).

Definition keyFromJson (key : string) (map : option SerializedKeyAlias) : string :=
  or_else (alias_of key map) (camelCase key).
End WithCases.

Section WithMapper.
Variable mapper : string → option SerializedKeyAlias → string.
Variable map : option SerializedKeyAlias.

(** The first loop of [mapKeys], over the own keys [fields] had when the
    loop began. *)
Fixpoint mapKeys_copy (keys : list string) (fields mapped : nat) : H unit :=
  match keys with
  | [] => ret tt
  | key :: keys' =>
      let targetKey := mapper key map in
      (if includes_dot targetKey || includes_dot key then ret tt
       else
         held <- get_property (AObject fields) key ;;
         set_property (AObject mapped) targetKey held) ;;;
      mapKeys_copy keys' fields mapped
  end.

Definition nestedMap : list (string * string) :=
  filter (fun paths => includes_dot (fst paths) || includes_dot (snd paths))
    (default [] map).

(** The second loop. *)
Fixpoint mapKeys_nested (entries : list (string * string)) (fields mapped : nat)
  : H unit :=
  match entries with
  | [] => ret tt
  | (source, target) :: entries' =>
      value <- getPath (AObject fields) source ;;
      setPath (AObject mapped) target value ;;;
      deletePath (AObject mapped) source ;;;
      mapKeys_nested entries' fields mapped
  end.

(** The own keys of an object. *)
Definition own_keys (l : nat) : H (list string) :=
  fun h =>
    match h !! l with
    | Some props => Returns props.*1 h
    | None => Unmodelled
    end.

Definition mapKeys (fields : nat) : H nat :=
  mapped <- new_object ;;
  keys <- own_keys fields ;;
  mapKeys_copy keys fields mapped ;;;
  mapKeys_nested nestedMap fields mapped ;;;
  ret mapped.

(** The keys that the first loop copies are names of the model, and so are
    their targets. *)
Definition copies_modelled (props : Props) : Prop :=
  ∀ key, key ∈ props.*1 →
    includes_dot (mapper key map) || includes_dot key = false →
    modelled key = true ∧ modelled (mapper key map) = true.
End WithMapper.

(** *** What a path leads to *)

(** A computation that leaves the store as it found it. *)
Definition read_only {A} (m : H A) (h : Heap) : Prop :=
  match m h with
  | Returns _ h' | Throws _ h' => h' = h
  | Unmodelled => True
  end.

(** The value found from [v] by reading own properties of objects, one name
    after the other. *)
Fixpoint read_chain (h : Heap) (v : Any) (names : list string) : option Any :=
  match names with
  | [] => Some v
  | name :: names' =>
      match v with
      | AObject l =>
          props ← h !! l ;
          held ← prop_get props name ;
          read_chain h held names'
      | _ => None
      end
  end.

(** A segment of a path: a modelled name without a dot. *)
Definition segment (k : string) : Prop :=
  modelled k = true ∧ includes_dot k = false.

(** The keys the first loop of [mapKeys] copies, with their targets, and
    the properties it gives the new object. *)
Definition renamed (f : string → string) (props : Props) : Props :=
  fold_left
    (fun acc e =>
       if includes_dot (f (fst e)) || includes_dot (fst e) then acc
       else prop_set acc (f (fst e)) (snd e))
    props [].

(** *** A store to run the code on *)

(** The object [{id: 1, lc_kwargs: <object 1>, stop: <array 0>}] and the
    object [{modelName: "m", temperature: 0}] it refers to. *)
Definition example_heap : Heap :=
  {[ 0 := [("id", ANum (NInt 1)); ("lc_kwargs", AObject 1); ("stop", AArray 0)];
     1 := [("modelName", AStr "m"); ("temperature", ANum (NInt 0))] ]}.

(** The two case conversions on the keys of the example. *)
Definition example_snakeCase (key : string) : string :=
  if decide (key = "modelName") then "model_name" else key.

Definition example_camelCase (key : string) : string :=
  if decide (key = "model_name") then "modelName" else key.

End MapKeys.

(** * Properties *)

(** ** Strings, [join] and [sort] *)

Module JsFacts.

Lemma string_app_cons (c : ascii) (a b : string) :
  String c a ++ b = String c (a ++ b).
Proof. done. Qed.

Lemma string_app_nil_l (s : string) : "" ++ s = s.
Proof. done. Qed.

Lemma string_app_nil_r (s : string) : s ++ "" = s.
Proof.
  induction s as [|c s IH]; [done|]. by rewrite string_app_cons, IH.
Qed.

Lemma string_app_assoc (a b c : string) : (a ++ b) ++ c = a ++ (b ++ c).
Proof.
  induction a as [|x a IH]; [done|]. by rewrite !string_app_cons, IH.
Qed.

Lemma run_cons st c s :
  run st (String c s) = step st c ≫= fun st' => run st' s.
Proof. simpl. by destruct (step st c). Qed.

Lemma run_app st a b :
  run st (a ++ b) = run st a ≫= fun st' => run st' b.
Proof.
  revert st. induction a as [|c a IH]; intros st; [done|].
  rewrite string_app_cons. simpl.
  destruct (step st c); simpl; [apply IH|done].
Qed.

Lemma run_app_Some st st' a b :
  run st a = Some st' → run st (a ++ b) = run st' b.
Proof. intros H. by rewrite run_app, H. Qed.

Lemma closed_prefix_eq st x y t1 t2 :
  run st x = Some scan0 → run st y = Some scan0 →
  sep_tail t1 → sep_tail t2 →
  x ++ t1 = y ++ t2 → x = y.
Proof.
  revert st y. induction x as [|c x IH]; intros st y Hx Hy Ht1 Ht2 E.
  - destruct y as [|c' y]; [done|]. simpl in *.
    assert (st = scan0) as -> by congruence.
    destruct Ht1 as [->|[t' ->]]; [done|]. injection E as <- _.
    by vm_compute in Hy.
  - destruct y as [|c' y].
    + simpl in *. assert (st = scan0) as -> by congruence.
      destruct Ht2 as [->|[t' ->]]; [done|]. injection E as -> _.
      by vm_compute in Hx.
    + simpl in *. injection E as <- E.
      destruct (step st c) as [st'|]; [|done].
      f_equal. by eapply IH.
Qed.

Lemma join_cons sep x l :
  join sep (x :: l) = x ++ match l with [] => "" | _ => sep ++ join sep l end.
Proof. destruct l; simpl; [|done]. by rewrite string_app_nil_r. Qed.

Lemma join_closed_inj l1 l2 :
  Forall closed l1 → Forall closed l2 →
  join "," l1 = join "," l2 → l1 = l2.
Proof.
  intros H1. revert l2. induction H1 as [|x l1 [Hne Hx] H1 IH]; intros l2 H2 E.
  - destruct H2 as [|y l2 [Hy _] _]; [done|].
    rewrite join_cons in E. simpl in E. destruct y; [done|discriminate].
  - destruct H2 as [|y l2 [Hny Hy] H2].
    { rewrite join_cons in E. simpl in E. destruct x; [done|discriminate]. }
    rewrite !join_cons in E.
    assert (x = y) as ->.
    { eapply closed_prefix_eq; [exact Hx|exact Hy| | |exact E].
      - destruct l1; [by left|right; simpl; eauto].
      - destruct l2; [by left|right; simpl; eauto]. }
    apply (inj (String.app y)) in E. f_equal.
    destruct l1, l2; simpl in E; try done.
    apply IH; [done|]. by injection E.
Qed.

Lemma sort_Permutation l : sort l ≡ₚ l.
Proof. apply merge_sort_Permutation. Qed.

Lemma sort_perm_eq l1 l2 : l1 ≡ₚ l2 → sort l1 = sort l2.
Proof.
  intros H. apply (StronglySorted_unique String.le).
  - apply StronglySorted_merge_sort; apply _.
  - apply StronglySorted_merge_sort; apply _.
  - by rewrite !sort_Permutation.
Qed.

Lemma sort_eq_perm l1 l2 : sort l1 = sort l2 → l1 ≡ₚ l2.
Proof.
  intros E. rewrite <- (sort_Permutation l1), <- (sort_Permutation l2).
  by rewrite E.
Qed.

(** *** The text of a value is balanced *)

Lemma balanced_app a b : balanced a → balanced b → balanced (a ++ b).
Proof. intros Ha Hb d. by rewrite (run_app_Some _ _ _ _ (Ha d)). Qed.

Lemma escape_char_run d c :
  run (d, InStr) (escape_char c) = Some (d, InStr).
Proof.
  destruct c as [[] [] [] [] [] [] [] []]; vm_compute; reflexivity.
Qed.

Lemma escape_run d s : run (d, InStr) (escape s) = Some (d, InStr).
Proof.
  induction s as [|c s IH]; [done|]. simpl.
  by rewrite (run_app_Some _ _ _ _ (escape_char_run d c)).
Qed.

Lemma quote_balanced s : balanced (quote s).
Proof.
  intros d. unfold quote. simpl.
  by rewrite (run_app_Some _ _ _ _ (escape_run d s)).
Qed.

Lemma uint_balanced u : balanced (NilEmpty.string_of_uint u).
Proof. intros d. induction u; simpl; done. Qed.

Lemma number_balanced n : balanced (number_to_json n).
Proof.
  destruct n as [z| | |]; try (intros d; reflexivity).
  unfold number_to_json. destruct (Z.to_int z) as [u|u]; simpl.
  - apply uint_balanced.
  - intros d. simpl. apply uint_balanced.
Qed.

(** Inside a bracket the separators of [join] are not at the top level. *)
Lemma join_inner d l :
  Forall balanced l →
  run (S d, Out) (join "," l) = Some (S d, Out).
Proof.
  induction 1 as [|x l Hx _ IH]; [done|].
  rewrite join_cons, (run_app_Some _ _ _ _ (Hx (S d))).
  destruct l; [done|]. rewrite string_app_cons. simpl. exact IH.
Qed.

Lemma bracket_balanced (o c : ascii) l :
  step (0, Out) o = Some (1, Out) → step (1, Out) c = Some (0, Out) →
  Forall balanced l →
  balanced (String o (join "," l ++ String c "")).
Proof.
  intros Ho Hc Hl d. rewrite run_cons.
  assert (step (d, Out) o = Some (S d, Out)) as ->.
  { revert Ho. unfold step. repeat case_match; naive_solver. }
  cbn [mbind option_bind].
  rewrite (run_app_Some _ _ _ _ (join_inner d l Hl)), run_cons.
  assert (step (S d, Out) c = Some (d, Out)) as ->; [|done].
  revert Hc. unfold step. repeat case_match; naive_solver.
Qed.

Lemma stringify_balanced v s : JSON_stringify v = Some s → balanced s.
Proof.
  revert s. induction v as [| |b|n|t|xs IH|fields IH] using Value_ind;
    intros s E; simpl in E; try discriminate; injection E as <-.
  - intros d. reflexivity.
  - intros d. by destruct b.
  - apply number_balanced.
  - apply quote_balanced.
  - apply (bracket_balanced "[" "]"); [done..|].
    induction IH as [|x xs Hx _ IHxs]; constructor; [|done].
    destruct (JSON_stringify x) as [sx|]; [by apply Hx|]. by intros d.
  - apply (bracket_balanced "{" "}"); [done..|].
    induction IH as [|[k x] fields Hx _ IHf]; [constructor|].
    simpl in Hx. destruct (JSON_stringify x) as [sx|]; [|done].
    constructor; [|done].
    apply balanced_app; [apply quote_balanced|].
    apply (balanced_app ":"); [by intros d|by apply Hx].
Qed.

End JsFacts.

(** ** The cache key *)

Module CacheKeyFacts.
Import JsFacts CacheKey.

(** *** Objects as finite maps *)

Lemma obj_set_names o k v x :
  x ∈ (obj_set o k v).*1 → x = k ∨ x ∈ o.*1.
Proof.
  induction o as [|[k' v'] o IH]; simpl.
  - rewrite list_elem_of_singleton. by left.
  - case_decide; csimpl; rewrite !elem_of_cons; intros [?|?]; auto.
    destruct IH as [?|?]; auto.
Qed.

Lemma obj_set_NoDup o k v : NoDup o.*1 → NoDup (obj_set o k v).*1.
Proof.
  induction o as [|[k' v'] o IH]; simpl; intros Hnd.
  - csimpl. apply NoDup_singleton.
  - apply NoDup_cons in Hnd as [Hk' Hnd]. case_decide; subst; csimpl.
    + by apply NoDup_cons.
    + apply NoDup_cons. split; [|by apply IH].
      intros [->|?]%obj_set_names; done.
Qed.

Lemma obj_spread_names t s x :
  x ∈ (obj_spread t s).*1 → x ∈ t.*1 ∨ x ∈ s.*1.
Proof.
  unfold obj_spread. revert t. induction s as [|[k v] s IH]; intros t; simpl.
  - by left.
  - intros [[->|?]%obj_set_names|?]%IH; csimpl; rewrite ?elem_of_cons; auto.
Qed.

Lemma obj_spread_NoDup t s : NoDup t.*1 → NoDup (obj_spread t s).*1.
Proof.
  unfold obj_spread. revert t. induction s as [|[k v] s IH]; intros t Ht;
    simpl; [done|]. by apply IH, obj_set_NoDup.
Qed.

Lemma list_to_map_obj_set o k v :
  (list_to_map (obj_set o k v) : gmap string Value) = <[k:=v]> (list_to_map o).
Proof.
  induction o as [|[k' v'] o IH]; simpl; [done|].
  case_decide; subst; simpl.
  - by rewrite insert_insert_eq.
  - by rewrite IH, insert_insert_ne.
Qed.

Lemma list_to_map_obj_spread t s :
  (list_to_map (obj_spread t s) : gmap string Value)
  = assign_all s (list_to_map t).
Proof.
  unfold obj_spread, assign_all. revert t.
  induction s as [|[k v] s IH]; intros t; simpl; [done|].
  by rewrite IH, list_to_map_obj_set.
Qed.

Lemma params_NoDup this callOptions : NoDup (params this callOptions).*1.
Proof.
  unfold params. do 2 apply obj_set_NoDup. do 2 apply obj_spread_NoDup.
  constructor.
Qed.

Lemma params_map this callOptions :
  (list_to_map (params this callOptions) : gmap string Value)
  = <["_model":=VStr (_modelType this)]>
      (<["_type":=VStr (_llmType this)]>
         (assign_all callOptions
            (assign_all (_identifyingParams this) ∅))).
Proof.
  unfold params.
  by rewrite !list_to_map_obj_set, !list_to_map_obj_spread.
Qed.

Lemma filter_fst_NoDup {A} (P : string * A → Prop) `{!∀ e, Decision (P e)}
    (l : list (string * A)) :
  NoDup l.*1 → NoDup (filter P l).*1.
Proof.
  induction l as [|e l IH]; [done|]. csimpl. intros [He Hl]%NoDup_cons.
  rewrite filter_cons. case_decide; [|by apply IH]. csimpl.
  apply NoDup_cons. split; [|by apply IH].
  intros [e' [E [_ Hin]%list_elem_of_filter]]%list_elem_of_fmap.
  apply He, list_elem_of_fmap. eauto.
Qed.

Lemma serializeEntry_render (l : list (string * Value)) :
  serializeEntry <$> l = render <$> (field_text <$> l).
Proof. by rewrite <- list_fmap_compose. Qed.

Lemma fields_NoDup this callOptions :
  NoDup (field_text <$> filteredEntries this callOptions).*1.
Proof.
  rewrite <- list_fmap_compose.
  apply (filter_fst_NoDup _ _ (params_NoDup this callOptions)).
Qed.

(** *** From equal fields to equal keys *)

Lemma key_of_fields this callOptions :
  _getSerializedCacheKeyParametersForCall this callOptions
  = join "," (sort (render <$> (field_text <$> filteredEntries this callOptions))).
Proof.
  unfold _getSerializedCacheKeyParametersForCall.
  by rewrite serializeEntry_render.
Qed.

Lemma same_fields_same_key this1 o1 this2 o2 :
  serialized_fields this1 o1 = serialized_fields this2 o2 →
  _getSerializedCacheKeyParametersForCall this1 o1
  = _getSerializedCacheKeyParametersForCall this2 o2.
Proof.
  intros E. rewrite !key_of_fields. f_equal. apply sort_perm_eq.
  apply fmap_Permutation.
  apply (list_to_map_inj (M := gmap string)); [apply fields_NoDup..|exact E].
Qed.

(** *** From equal keys to equal fields *)

Lemma structural_step c : structural c = false → step scan0 c = Some scan0.
Proof.
  destruct c as [[] [] [] [] [] [] [] []]; vm_compute; congruence.
Qed.

Lemma structural_colon c : structural c = false → c ≠ ":"%char.
Proof. intros H ->. by vm_compute in H. Qed.

Lemma plain_name_cons c k :
  plain_name (String c k) ↔ structural c = false ∧ plain_name k.
Proof.
  unfold plain_name. simpl.
  apply (Forall_cons (fun c => structural c = false)).
Qed.

Lemma plain_run k : plain_name k → run scan0 k = Some scan0.
Proof.
  induction k as [|c k IH]; [done|].
  intros [Hc Hk]%plain_name_cons. rewrite run_cons, (structural_step c Hc).
  by apply IH.
Qed.

Lemma render_inj k1 t1 k2 t2 :
  plain_name k1 → plain_name k2 →
  render (k1, t1) = render (k2, t2) → k1 = k2 ∧ t1 = t2.
Proof.
  unfold render. simpl. revert k2.
  induction k1 as [|c1 k1 IH]; intros [|c2 k2] H1 H2 E.
  - rewrite !string_app_nil_l in E. split; [done|]. by injection E.
  - apply plain_name_cons in H2 as [H2 _].
    rewrite string_app_nil_l, !string_app_cons in E. injection E as <- _.
    by apply structural_colon in H2.
  - apply plain_name_cons in H1 as [H1 _].
    rewrite string_app_nil_l, !string_app_cons in E. injection E as -> _.
    by apply structural_colon in H1.
  - apply plain_name_cons in H1 as [_ H1], H2 as [_ H2].
    rewrite !string_app_cons in E. injection E as -> E.
    destruct (IH k2 H1 H2 E) as [-> ->]. done.
Qed.

Lemma render_closed k t : plain_name k → balanced t → closed (render (k, t)).
Proof.
  intros Hk Ht. unfold render. simpl. split.
  - destruct k; [|done]. by rewrite string_app_nil_l.
  - rewrite (run_app_Some _ _ _ _ (plain_run k Hk)).
    rewrite string_app_cons, run_cons. simpl. apply Ht.
Qed.

Lemma fmap_Permutation_inj_on {A B} (f : A → B) (P : A → Prop) :
  (∀ x y, P x → P y → f x = f y → x = y) →
  ∀ l1 l2 : list A,
    Forall P l1 → Forall P l2 → f <$> l1 ≡ₚ f <$> l2 → l1 ≡ₚ l2.
Proof.
  intros Hinj l1. induction l1 as [|x l1 IH]; intros l2 H1 H2 E.
  - apply Permutation_nil_l in E. symmetry in E.
    by apply fmap_nil_inv in E as ->.
  - apply Forall_cons in H1 as [Hx H1].
    assert (f x ∈ f <$> l2) as [y [Ey Hy]]%list_elem_of_fmap.
    { rewrite <- E. csimpl. by left. }
    assert (x = y) as <-.
    { apply Hinj; [done| |done]. by eapply Forall_forall in H2. }
    apply elem_of_Permutation in Hy as [l2' E2].
    rewrite E2 in E, H2 |- *. apply Forall_cons in H2 as [_ H2].
    csimpl in E. apply Permutation_cons_inv in E. constructor. by apply IH.
Qed.

Lemma stringify_defined v : ¬ is_undefined v → is_Some (JSON_stringify v).
Proof. destruct v; simpl; eauto. intros []. done. Qed.

Lemma params_names this callOptions x :
  x ∈ (params this callOptions).*1 →
  x = "_model" ∨ x = "_type"
  ∨ x ∈ (_identifyingParams this).*1 ∨ x ∈ callOptions.*1.
Proof.
  unfold params.
  intros [->|[->|[[H|H]%obj_spread_names|H]%obj_spread_names]%obj_set_names]
    %obj_set_names; auto.
  by apply elem_of_nil in H.
Qed.

Lemma plain_type_model : plain_name "_type" ∧ plain_name "_model".
Proof. split; repeat constructor. Qed.

Lemma fields_good this callOptions :
  plain_names this callOptions →
  Forall good_field (field_text <$> filteredEntries this callOptions).
Proof.
  intros [Hi Ho]. apply Forall_fmap, Forall_forall.
  intros [k v] [Hv Hin]%list_elem_of_filter. simpl in Hv. split; simpl.
  - assert (k ∈ (params this callOptions).*1) as Hk.
    { apply list_elem_of_fmap. by exists (k, v). }
    apply params_names in Hk as [->|[->|[Hk|Hk]]].
    + apply plain_type_model.
    + apply plain_type_model.
    + by eapply Forall_forall in Hi.
    + by eapply Forall_forall in Ho.
  - destruct (stringify_defined v Hv) as [s Hs]. rewrite Hs. simpl.
    by eapply stringify_balanced.
Qed.

Lemma same_key_same_fields this1 o1 this2 o2 :
  plain_names this1 o1 → plain_names this2 o2 →
  _getSerializedCacheKeyParametersForCall this1 o1
  = _getSerializedCacheKeyParametersForCall this2 o2 →
  serialized_fields this1 o1 = serialized_fields this2 o2.
Proof.
  intros H1%fields_good H2%fields_good E. rewrite !key_of_fields in E.
  assert (∀ l, Forall good_field l → Forall closed (sort (render <$> l))) as Hcl.
  { intros l Hl. rewrite sort_Permutation. apply Forall_fmap.
    eapply Forall_impl; [exact Hl|]. intros [k t] [??]. by apply render_closed. }
  apply join_closed_inj in E; [|by apply Hcl..].
  apply sort_eq_perm in E.
  apply (fmap_Permutation_inj_on render good_field) in E; [|clear|done..].
  - apply list_to_map_proper; [apply fields_NoDup|done].
  - intros [k1 t1] [k2 t2] [Hk1 _] [Hk2 _] Er.
    by destruct (render_inj k1 t1 k2 t2 Hk1 Hk2 Er) as [-> ->].
Qed.

(** C2, amended: the cache key is a function of the contributing fields
    alone, whatever the order in which the properties were inserted; and when
    the names of the identifying parameters and of the call options contain
    no comma, colon, double quote, bracket or brace, two calls with the same
    key have the same contributing fields, so that a field whose JSON text
    differs gives a different key. *)
Theorem cache_key_determinism this1 o1 this2 o2 :
  (serialized_fields this1 o1 = serialized_fields this2 o2 →
   _getSerializedCacheKeyParametersForCall this1 o1
   = _getSerializedCacheKeyParametersForCall this2 o2)
  ∧ (plain_names this1 o1 → plain_names this2 o2 →
     _getSerializedCacheKeyParametersForCall this1 o1
     = _getSerializedCacheKeyParametersForCall this2 o2 →
     serialized_fields this1 o1 = serialized_fields this2 o2).
Proof.
  split; [apply same_fields_same_key|apply same_key_same_fields].
Qed.

(** The key does not depend on the order in which the call options were
    inserted. *)
Lemma cache_key_insertion_order this o1 o2 :
  NoDup o1.*1 → o1 ≡ₚ o2 →
  _getSerializedCacheKeyParametersForCall this o1
  = _getSerializedCacheKeyParametersForCall this o2.
Proof.
  intros Hnd Hp. apply same_fields_same_key. unfold serialized_fields.
  apply list_to_map_proper; [apply fields_NoDup|].
  apply fmap_Permutation. unfold filteredEntries, Object_entries.
  apply filter_Permutation.
  apply (list_to_map_inj (M := gmap string)); [apply params_NoDup..|].
  rewrite !params_map. do 2 f_equal. generalize (assign_all (_identifyingParams this) ∅).
  assert (NoDup o2.*1) as Hnd2 by by rewrite <- Hp.
  clear this. revert Hnd. induction Hp as [|e l l' Hp IH|e e' l|l l' l'' Hp1 IH1 Hp2 IH2];
    intros Hnd m.
  - done.
  - apply NoDup_cons in Hnd as [_ Hnd]. apply NoDup_cons in Hnd2 as [_ Hnd2].
    simpl. by apply IH.
  - simpl. f_equal. apply insert_insert_ne.
    apply NoDup_cons in Hnd as [Hne _]. csimpl in Hne.
    rewrite not_elem_of_cons in Hne. by destruct Hne.
  - assert (NoDup l'.*1) by by rewrite <- Hp1.
    rewrite IH1 by done. by apply IH2.
Qed.

Import CacheKeyExamples.

Example key_fake :
  _getSerializedCacheKeyParametersForCall fake
    [("stop", VArr [VStr "a"; VStr "b"]); ("timeout", VUndefined)]
  = dq "_model:'base_chat_model',_type:'fake',stop:['a','b'],temperature:0".
Proof. vm_compute. reflexivity. Qed.

Lemma cache_key_determinism_witness :
  plain_names fake stop_then_timeout ∧ plain_names fake timeout_then_stop
  ∧ serialized_fields fake stop_then_timeout
    = serialized_fields fake timeout_then_stop.
Proof.
  assert (plain_names fake stop_then_timeout) as H1
    by (split; repeat constructor).
  assert (plain_names fake timeout_then_stop) as H2
    by (split; repeat constructor).
  refine (conj H1 (conj H2 _)).
  apply (proj2 (cache_key_determinism fake stop_then_timeout
                  fake timeout_then_stop) H1 H2).
  vm_compute. reflexivity.
Defined.

(** C2, as stated, fails: the timeouts [Infinity] and [-Infinity] differ and
    both print as [null], so the two calls share one key. *)
Lemma cache_key_collision :
  VNum NPosInf ≠ VNum NNegInf
  ∧ _getSerializedCacheKeyParametersForCall fake [("timeout", VNum NPosInf)]
    = _getSerializedCacheKeyParametersForCall fake [("timeout", VNum NNegInf)].
Proof. split; [discriminate|]. vm_compute. reflexivity. Qed.

(** Names with separators in them defeat the key: the two records have the
    same names and different values, and one key. *)
Example cache_key_collision_names :
  _getSerializedCacheKeyParametersForCall (separators 1 2) []
  = _getSerializedCacheKeyParametersForCall (separators 2 1) [].
Proof. vm_compute. reflexivity. Qed.

(** *** Options holding [undefined] *)

Lemma fields_of_map (l : list (string * Value)) :
  NoDup l.*1 →
  (list_to_map (field_text <$> filter (fun e => ¬ is_undefined (snd e)) l)
     : gmap string string)
  = omap text_of (list_to_map l).
Proof.
  induction l as [|[k v] l IH]; csimpl; intros Hnd.
  - by rewrite omap_empty.
  - apply NoDup_cons in Hnd as [Hk Hnd]. rewrite filter_cons. simpl.
    destruct (is_undefined v) eqn:Hv.
    + rewrite decide_False by (intros H; apply H; done).
      rewrite IH by done.
      rewrite omap_insert_None by (unfold text_of; by rewrite Hv).
      rewrite delete_id; [done|].
      rewrite lookup_omap. by rewrite (not_elem_of_list_to_map_1 l k Hk).
    + rewrite decide_True by (intros H; done).
      csimpl. rewrite IH by done.
      symmetry. apply omap_insert_Some. unfold text_of. by rewrite Hv.
Qed.

Lemma serialized_fields_map this callOptions :
  serialized_fields this callOptions
  = omap text_of (list_to_map (params this callOptions)).
Proof. apply fields_of_map, params_NoDup. Qed.

Lemma obj_get_cons k v (o : Obj) j :
  obj_get ((k, v) :: o) j = if decide (k = j) then Some v else obj_get o j.
Proof.
  unfold obj_get. simpl. by rewrite (bool_decide_decide (k = j)); case_decide.
Qed.

Lemma obj_get_None (o : Obj) j : j ∉ o.*1 → obj_get o j = None.
Proof.
  induction o as [|[k v] o IH]; [done|]. csimpl.
  intros [??]%not_elem_of_cons. rewrite obj_get_cons, decide_False by done.
  by apply IH.
Qed.

Lemma assign_all_lookup (s : Obj) m j :
  NoDup s.*1 →
  assign_all s m !! j
  = match obj_get s j with Some v => Some v | None => m !! j end.
Proof.
  revert m. induction s as [|[k v] s IH]; intros m Hnd; [done|].
  apply NoDup_cons in Hnd as [Hk Hnd]. unfold assign_all in *. simpl.
  rewrite IH, obj_get_cons by done. case_decide as E.
  - subst j. by rewrite (obj_get_None s k Hk), lookup_insert_eq.
  - by rewrite lookup_insert_ne.
Qed.

Lemma assign_all_lookup_Some (s : Obj) m j v :
  assign_all s m !! j = Some v → (j, v) ∈ s ∨ m !! j = Some v.
Proof.
  revert m. unfold assign_all.
  induction s as [|[k x] s IH]; intros m; simpl; [by right|].
  intros [H|H]%IH; [left; by right|].
  destruct (decide (k = j)) as [->|Hne].
  - rewrite lookup_insert_eq in H. injection H as ->. left. by left.
  - rewrite lookup_insert_ne in H by done. by right.
Qed.

Lemma obj_get_delete (o : Obj) k j :
  obj_get (obj_delete o k) j = if decide (j = k) then None else obj_get o j.
Proof.
  unfold obj_delete. induction o as [|[k' v] o IH].
  - by case_decide.
  - rewrite filter_cons. cbn [fst]. destruct (decide (k' ≠ k)) as [E1|E1].
    + rewrite !obj_get_cons, IH.
      repeat case_decide; simplify_eq; done.
    + apply dec_stable in E1. subst k'.
      rewrite IH, obj_get_cons. repeat case_decide; simplify_eq; done.
Qed.

Lemma obj_get_set (o : Obj) k v j :
  obj_get (obj_set o k v) j = if decide (k = j) then Some v else obj_get o j.
Proof.
  induction o as [|[k' v'] o IH]; simpl.
  - rewrite obj_get_cons. by case_decide.
  - destruct (decide (k' = k)) as [->|Hne]; rewrite !obj_get_cons.
    + by case_decide.
    + rewrite IH. repeat case_decide; simplify_eq; done.
Qed.

(** The second half of C2 in the words of the claim, amended: with plain
    names, two values of one option whose JSON texts differ give different
    keys (the tags [_type] and [_model] are not options: they are
    overwritten). *)
Lemma differing_text_differing_key this (callOptions : Obj) k v1 v2 :
  plain_names this callOptions → plain_name k → NoDup callOptions.*1 →
  k ≠ "_type" → k ≠ "_model" →
  text_of v1 ≠ text_of v2 →
  _getSerializedCacheKeyParametersForCall this (obj_set callOptions k v1)
  ≠ _getSerializedCacheKeyParametersForCall this (obj_set callOptions k v2).
Proof.
  intros [Hi Ho] Hk Hnd Ht Hm Hv E.
  assert (∀ v, plain_names this (obj_set callOptions k v)) as Hplain.
  { intros v. split; [done|]. apply Forall_forall.
    intros x [->|Hx]%obj_set_names; [done|]. by eapply Forall_forall in Ho. }
  apply same_key_same_fields in E; [|done..].
  rewrite !serialized_fields_map, !params_map in E.
  apply (f_equal (fun m => m !! k)) in E. rewrite !lookup_omap in E.
  rewrite !(lookup_insert_ne _ "_model"), !(lookup_insert_ne _ "_type") in E
    by done.
  rewrite !(assign_all_lookup (obj_set callOptions k _)) in E
    by by apply obj_set_NoDup.
  rewrite !obj_get_set, !decide_True in E by done. simpl in E.
  by apply Hv.
Qed.

(** C9, amended: an option present with the value [undefined] gives the key
    of the call without that option, as long as the identifying parameters
    hold no defined value under the option's name. *)
Theorem undefined_option_absent this callOptions k :
  NoDup callOptions.*1 →
  obj_get callOptions k = Some VUndefined →
  (∀ v, (k, v) ∈ _identifyingParams this → v = VUndefined) →
  _getSerializedCacheKeyParametersForCall this callOptions
  = _getSerializedCacheKeyParametersForCall this (obj_delete callOptions k).
Proof.
  intros Hnd Hk Hid. apply same_fields_same_key.
  rewrite !serialized_fields_map, !params_map.
  apply map_eq. intros j. rewrite !lookup_omap.
  destruct (decide ("_model" = j)) as [<-|Hm]; [by rewrite !lookup_insert_eq|].
  rewrite !(lookup_insert_ne _ "_model") by done.
  destruct (decide ("_type" = j)) as [<-|Ht]; [by rewrite !lookup_insert_eq|].
  rewrite !(lookup_insert_ne _ "_type") by done.
  rewrite (assign_all_lookup callOptions) by done.
  rewrite (assign_all_lookup (obj_delete callOptions k))
    by by apply filter_fst_NoDup.
  rewrite obj_get_delete.
  case_decide as E; [subst j|done].
  rewrite Hk. simpl.
  destruct (assign_all (_identifyingParams this) ∅ !! k) as [v|] eqn:Hv;
    [|done].
  apply assign_all_lookup_Some in Hv as [Hv|Hv]; [|by rewrite lookup_empty in Hv].
  by rewrite (Hid v Hv).
Qed.

Lemma undefined_option_absent_witness :
  _getSerializedCacheKeyParametersForCall fake
    [("stop", VArr [VStr "a"]); ("timeout", VUndefined)]
  = _getSerializedCacheKeyParametersForCall fake
      (obj_delete [("stop", VArr [VStr "a"]); ("timeout", VUndefined)] "timeout").
Proof.
  apply (undefined_option_absent fake
           [("stop", VArr [VStr "a"]); ("timeout", VUndefined)] "timeout").
  - csimpl. apply NoDup_cons. split; [|apply NoDup_singleton].
    intros H%list_elem_of_singleton. discriminate.
  - reflexivity.
  - intros v [E|H]%elem_of_cons; [discriminate|by apply elem_of_nil in H].
Defined.

(** C9, as stated, fails: [stop: undefined] in the call options shadows the
    stop sequence of the identifying parameters, whose entry then leaves the
    key; without the option the entry stays. *)
Lemma undefined_option_shadows :
  _getSerializedCacheKeyParametersForCall stopping [("stop", VUndefined)]
  ≠ _getSerializedCacheKeyParametersForCall stopping [].
Proof. vm_compute. discriminate. Qed.

End CacheKeyFacts.

(** ** Token counting *)

Module TokensFacts.
Import Eff Tokens.

Example tiktoken_name_dated :
  getModelNameForTiktoken "gpt-3.5-turbo-0613" = "gpt-3.5-turbo"
  ∧ getModelNameForTiktoken "gpt-4" = "gpt-4"
  ∧ getModelContextSize "gpt-4-0613" = 8192%Z
  ∧ getModelContextSize "unknown" = 4097%Z.
Proof. repeat split. Qed.

(** [Math_ceil_div n 4] is the least [r] with [n <= 4 * r]. *)
Lemma Math_ceil_div_spec n :
  (n ≤ 4 * Math_ceil_div n 4 ∧ 4 * Math_ceil_div n 4 < n + 4)%nat.
Proof.
  unfold Math_ceil_div.
  pose proof (Nat.div_mod_eq n 4). pose proof (Nat.mod_upper_bound n 4).
  case_decide; lia.
Qed.

Ltac run_eff :=
  unfold getNumTokens, calculateMaxTokens, encodingForModel, encode_with,
    getModelNameForTiktoken_cast, console_warn, record_call,
    try_catch, bind, ret, throw, get, modify, lift;
  cbn [this _encoding modelName set_encoding fst snd].

Section WithTiktoken.
Variable encodingForModel_impl : string → Exn + Tiktoken.

Lemma getNumTokens_string text w :
  ∃ w', getNumTokens encodingForModel_impl (ContentString text) w
        = (inr (default (approximate text)
                  (tokenizer_count
                     (available_encoding encodingForModel_impl (this w)) text)),
           w').
Proof.
  destruct w as [[name enc] out calls]. run_eff.
  unfold available_encoding, tokenizer_count. cbn [_encoding modelName].
  destruct enc as [enc|].
  - cbn. destruct (encode enc text); cbn; eauto.
  - destruct name as [v|].
    + destruct v; cbn; eauto.
      destruct (encodingForModel_impl _) as [e|enc]; cbn; eauto.
      destruct (encode enc _); cbn; eauto.
    + cbn. destruct (encodingForModel_impl _) as [e|enc]; cbn; eauto.
      destruct (encode enc _); cbn; eauto.
Qed.

Lemma calculateMaxTokens_count prompt model w :
  ∃ w', calculateMaxTokens encodingForModel_impl prompt model w
        = (inr (getModelContextSize model
                - Z.of_nat (default (approximate prompt)
                              (tokenizer_count (fetched encodingForModel_impl model) prompt)))%Z,
           w').
Proof.
  run_eff. unfold fetched, tokenizer_count.
  destruct (encodingForModel_impl _) as [e|enc]; cbn; eauto.
  destruct (encode enc _); cbn; eauto.
Qed.

(** C8: on a string, [getNumTokens] and the count inside
    [calculateMaxTokens] always return. The count is the tokenizer's when
    an encoder is there and encodes the text, and the character count
    [ceil(length / 4)] when no encoder can be had or its [encode]
    throws. *)
Theorem token_counting_degrades text model w :
  (∃ w',
     getNumTokens encodingForModel_impl (ContentString text) w
     = (inr (default (approximate text)
               (tokenizer_count
                  (available_encoding encodingForModel_impl (this w)) text)),
        w'))
  ∧ (∃ w',
       calculateMaxTokens encodingForModel_impl text model w
       = (inr (getModelContextSize model
               - Z.of_nat (default (approximate text)
                             (tokenizer_count
                                (fetched encodingForModel_impl model) text)))%Z,
          w'))
  ∧ (∀ enc : option Tiktoken,
       enc = None ∨ (∃ e t, enc = Some e ∧ encode e text = inl t) →
       default (approximate text) (tokenizer_count enc text) = approximate text)
  ∧ (String.length text ≤ 4 * approximate text
     ∧ 4 * approximate text < String.length text + 4)%nat.
Proof.
  split; [apply getNumTokens_string|].
  split; [apply calculateMaxTokens_count|].
  split; [|apply Math_ceil_div_spec].
  intros enc [->|(e & t & -> & He)]; simpl; [done|by rewrite He].
Qed.

(** C10: on content that is an array of parts, [getNumTokens] returns 0
    and leaves the world as it was: no encoder is fetched or used, nothing
    is logged, and the length of the text parts plays no role. *)
Theorem getNumTokens_parts_zero parts w :
  getNumTokens encodingForModel_impl (ContentParts parts) w = (inr 0, w).
Proof. reflexivity. Qed.
End WithTiktoken.

Lemma token_counting_degrades_witness :
  ∃ w',
    getNumTokens broken_tiktoken (ContentString "Hello there!") (fresh None)
    = (inr (approximate "Hello there!"), w').
Proof.
  destruct (token_counting_degrades broken_tiktoken "Hello there!" "gpt-4"
              (fresh None)) as ([w' E] & _ & Hfallback & _).
  exists w'. rewrite E.
  rewrite (Hfallback (available_encoding broken_tiktoken (this (fresh None)))).
  - reflexivity.
  - right. eexists _, _. split; reflexivity.
Defined.

Example getNumTokens_no_tiktoken :
  fst (getNumTokens no_tiktoken (ContentString "Hello there!")
         (fresh (Some (VStr "gpt-4-0613")))) = inr 3
  ∧ fst (getNumTokens broken_tiktoken (ContentString "Hello there!")
           (fresh None)) = inr 3
  ∧ fst (getNumTokens word_tiktoken (ContentString "Hello there!")
           (fresh (Some VNull))) = inr 3
  ∧ fst (getNumTokens word_tiktoken (ContentString "Hello there!")
           (fresh None)) = inr 2
  ∧ fst (calculateMaxTokens no_tiktoken "Hello there!" "gpt-4-0613"
           (fresh None)) = inr 8189%Z.
Proof. repeat split. Qed.

Example getNumTokens_parts_example :
  fst (getNumTokens word_tiktoken
         (ContentParts [TextPart "Hello there!"; ImageUrlPart "data:image"])
         (fresh None)) = inr 0.
Proof. reflexivity. Qed.

End TokensFacts.

(** ** Input normalisation *)

Module PromptValuesFacts.
Import Eff PromptValues.

Section WithMessages.
Context {BaseMessageLike BaseMessage : Type}.
Variable coerce : BaseMessageLike → Exn + BaseMessage.

Lemma Array_map_inr (l : list BaseMessageLike) :
  Forall (fun x => ∃ m, coerce x = inr m) l →
  ∃ messages,
    Array_map coerce l = inr messages
    ∧ Forall2 (fun x m => coerce x = inr m) l messages.
Proof.
  induction 1 as [|x l [m Hm] _ [ms [E IH]]]; simpl.
  - exists []. by split.
  - exists (m :: ms). rewrite Hm, E. split; [done|]. by constructor.
Qed.

(** X26: a message-like that the coercion refuses makes the conversion
    throw what the coercion threw for the first such element, whatever
    follows it in the array. *)
Lemma Array_map_inl (l1 l2 : list BaseMessageLike) x e :
  Forall (fun x => ∃ m, coerce x = inr m) l1 →
  coerce x = inl e →
  _convertInputToPromptValue coerce (InputArray (l1 ++ x :: l2)) = inl e.
Proof.
  intros H1 Hx. simpl.
  induction H1 as [|y l1 [m Hm] _ IH]; simpl.
  - by rewrite Hx.
  - rewrite Hm. by destruct (Array_map coerce (l1 ++ x :: l2)); simplify_eq.
Qed.

(** What [map] does on any array: it returns the coerced elements when
    the coercion accepts all of them, and otherwise throws what the
    coercion threw for the first element it refused. *)
Lemma Array_map_cases (l : list BaseMessageLike) :
  (∃ messages,
     Array_map coerce l = inr messages
     ∧ Forall2 (fun x m => coerce x = inr m) l messages)
  ∨ (∃ l1 x l2 e,
       l = (l1 ++ x :: l2)%list
       ∧ Forall (fun x => ∃ m, coerce x = inr m) l1
       ∧ coerce x = inl e
       ∧ Array_map coerce l = inl e).
Proof.
  induction l as [|x l IH]; simpl.
  - left. exists []. by split.
  - destruct (coerce x) as [e|m] eqn:Hx.
    + right. exists [], x, l, e. by repeat split.
    + destruct IH as [(ms & -> & HF)|(l1 & y & l2 & e & -> & H1 & Hy & ->)].
      * left. exists (m :: ms). split; [done|]. by constructor.
      * right. exists (x :: l1), y, l2, e. repeat split; try done.
        constructor; [by exists m|done].
Qed.

(** C7: the conversion is a function of its input. A string becomes a
    string prompt value and a prompt value is returned as it is, whatever
    they are. An array becomes the chat prompt value of the coerced
    messages, in order, exactly when the message coercion accepts each of
    its elements; on any other array the conversion throws what the
    coercion threw for the first element it refused. *)
Theorem convertInputToPromptValue_total :
  (∀ s, _convertInputToPromptValue coerce (InputString s)
        = inr (StringPromptValue s))
  ∧ (∀ p, _convertInputToPromptValue coerce (InputPromptValue p) = inr p)
  ∧ (∀ l,
       (∃ messages,
          _convertInputToPromptValue coerce (InputArray l)
          = inr (ChatPromptValue messages)
          ∧ Forall2 (fun x m => coerce x = inr m) l messages)
       ∨ (∃ l1 x l2 e,
            l = (l1 ++ x :: l2)%list
            ∧ Forall (fun x => ∃ m, coerce x = inr m) l1
            ∧ coerce x = inl e
            ∧ _convertInputToPromptValue coerce (InputArray l) = inl e))
  ∧ (∀ l, (∃ p, _convertInputToPromptValue coerce (InputArray l) = inr p)
          ↔ Forall (fun x => ∃ m, coerce x = inr m) l).
Proof.
  split; [done|]. split; [done|]. split.
  - intros l. simpl.
    destruct (Array_map_cases l) as [(ms & -> & HF)|(l1 & x & l2 & e & -> & H1 & Hx & ->)].
    + left. by exists ms.
    + right. by exists l1, x, l2, e.
  - intros l. simpl. split.
    + intros [p Hp].
      destruct (Array_map_cases l) as [(ms & E & HF)|(l1 & x & l2 & e & -> & H1 & Hx & E)].
      * clear - HF. induction HF; constructor; [by eexists|done].
      * by rewrite E in Hp.
    + intros (ms & -> & _)%Array_map_inr. by eexists.
Qed.
End WithMessages.

Lemma convertInputToPromptValue_total_witness :
  ∃ messages,
    _convertInputToPromptValue coerceMessageLikeToMessage
      (InputArray [LikeString "Hello"; LikePair "ai" "Hi"; LikePair "system" "Be brief"])
    = inr (ChatPromptValue messages)
    ∧ Forall2 (fun x m => coerceMessageLikeToMessage x = inr m)
        [LikeString "Hello"; LikePair "ai" "Hi"; LikePair "system" "Be brief"]
        messages.
Proof.
  destruct (proj1 (proj2 (proj2 (convertInputToPromptValue_total
                                   coerceMessageLikeToMessage)))
              [LikeString "Hello"; LikePair "ai" "Hi"; LikePair "system" "Be brief"])
    as [H|(l1 & x & l2 & e & _ & _ & _ & E)]; [exact H|].
  cbn in E. discriminate E.
Defined.

(** An array of the input type that the conversion refuses: a pair whose
    role is none of the five. *)
Lemma convertInputToPromptValue_throws :
  _convertInputToPromptValue coerceMessageLikeToMessage
    (InputArray [LikeString "Hello"; LikePair "narrator" "Once upon a time"])
  = inl (JsError "Unable to coerce message from array: only human, AI, or system message coercion is currently supported.").
Proof. reflexivity. Qed.

Example convert_refused :
  _convertInputToPromptValue coerce_human (InputArray ["Hello"; ""; "there!"])
  = inl (JsError "Unable to coerce message").
Proof. reflexivity. Qed.

End PromptValuesFacts.

(** ** The invocation path *)

Module InvocationFacts.
Import Eff PromptValues CacheKey Invocation.
Local Open Scope list_scope.
Local Open Scope nat_scope.

Section WithMessages.
Context {BaseMessageLike BaseMessage : Type}.
Variable coerce : BaseMessageLike → Exn + BaseMessage.
Variable prompt_text : BasePromptValue BaseMessage → string.
Variable provider : nat → BasePromptValue BaseMessage → Obj → ProviderResponse.

Abbreviation World := (World BaseMessage).
Abbreviation Event := (Event BaseMessage).
Abbreviation CallbackHandler := (CallbackHandler BaseMessage).
Abbreviation invoke :=
  (invoke BaseMessageLike BaseMessage coerce prompt_text provider).

(** *** What a dispatch changes *)

Lemma fan_out_fields (hs : list CallbackHandler) i ev (w : World) :
  cache (fan_out _ hs i ev w) = cache w
  ∧ dispatched (fan_out _ hs i ev w) = dispatched w
  ∧ next_run_id (fan_out _ hs i ev w) = next_run_id w
  ∧ provider_requests (fan_out _ hs i ev w) = provider_requests w
  ∧ delivered (fan_out _ hs i ev w) = delivered w ++ deliveries hs i ev.
Proof.
  revert i w. induction hs as [|h hs IH]; intros i w; simpl.
  - by rewrite app_nil_r.
  - destruct (IH (S i) (deliver_to _ i h ev w)) as (-> & -> & -> & -> & ->).
    unfold deliver_to. destruct (deliver h ev); simpl; [|done].
    by rewrite <- app_assoc.
Qed.

Lemma dispatch_all_fields (hs : list CallbackHandler) evs (w : World) :
  cache (dispatch_all _ hs evs w) = cache w
  ∧ dispatched (dispatch_all _ hs evs w) = dispatched w ++ evs
  ∧ next_run_id (dispatch_all _ hs evs w) = next_run_id w
  ∧ provider_requests (dispatch_all _ hs evs w) = provider_requests w
  ∧ delivered (dispatch_all _ hs evs w)
    = delivered w ++ (evs ≫= deliveries hs 0).
Proof.
  unfold dispatch_all. revert w.
  induction evs as [|ev evs IH]; intros w; simpl.
  - by rewrite !app_nil_r.
  - destruct (IH (dispatch_world _ hs ev w)) as (-> & -> & -> & -> & ->).
    unfold dispatch_world.
    destruct (fan_out_fields hs 0 ev (log_event _ ev w))
      as (-> & -> & -> & -> & ->).
    simpl. by rewrite <- !app_assoc.
Qed.

Lemma dispatch_all_app (hs : list CallbackHandler) evs1 evs2 (w : World) :
  dispatch_all _ hs (evs1 ++ evs2) w
  = dispatch_all _ hs evs2 (dispatch_all _ hs evs1 w).
Proof. apply fold_left_app. Qed.

Lemma dispatchChunks_run (hs : list CallbackHandler) runId tokens (w : World) :
  dispatchChunks _ hs runId tokens w
  = (inr tt, dispatch_all _ hs (EvNewToken runId <$> tokens) w).
Proof.
  revert w. induction tokens as [|t ts IH]; intros w; [done|].
  simpl. unfold bind, dispatchNewToken, dispatch, modify. by rewrite IH.
Qed.

Lemma dispatch_world_all (hs : list CallbackHandler) ev (w : World) :
  dispatch_world _ hs ev w = dispatch_all _ hs [ev] w.
Proof. done. Qed.

Lemma cache_dispatch_all (hs : list CallbackHandler) evs (w : World) :
  cache (dispatch_all _ hs evs w) = cache w.
Proof. apply dispatch_all_fields. Qed.

Lemma dispatched_dispatch_all (hs : list CallbackHandler) evs (w : World) :
  dispatched (dispatch_all _ hs evs w) = dispatched w ++ evs.
Proof. apply dispatch_all_fields. Qed.

Lemma next_run_id_dispatch_all (hs : list CallbackHandler) evs (w : World) :
  next_run_id (dispatch_all _ hs evs w) = next_run_id w.
Proof. apply dispatch_all_fields. Qed.

Lemma provider_requests_dispatch_all (hs : list CallbackHandler) evs (w : World) :
  provider_requests (dispatch_all _ hs evs w) = provider_requests w.
Proof. apply dispatch_all_fields. Qed.

Lemma delivered_dispatch_all (hs : list CallbackHandler) evs (w : World) :
  delivered (dispatch_all _ hs evs w) = delivered w ++ (evs ≫= deliveries hs 0).
Proof. apply dispatch_all_fields. Qed.

Ltac world_fields :=
  rewrite ?dispatch_world_all;
  repeat first
    [ rewrite cache_dispatch_all
    | rewrite dispatched_dispatch_all
    | rewrite next_run_id_dispatch_all
    | rewrite provider_requests_dispatch_all
    | rewrite delivered_dispatch_all
    | progress cbn [cache dispatched delivered next_run_id provider_requests
                    store bump_run bump_requests] ].

(** *** One invocation, case by case *)

Lemma invoke_cases this input (options : CallOptions BaseMessage) (w : World) :
  ∃ r evs w',
    invoke this input options w = (r, w')
    ∧ dispatched w' = dispatched w ++ evs
    ∧ delivered w' = delivered w ++ (evs ≫= deliveries (callbacks options) 0)
    ∧ match _convertInputToPromptValue coerce input with
      | inl e => r = inl e ∧ evs = [] ∧ cache w' = cache w
      | inr prompt =>
          let runId := next_run_id w in
          match cached_result _ prompt_text this prompt options w with
          | Some result =>
              r = inr result
              ∧ evs = live_events runId prompt [text result] (EvEnd runId result)
              ∧ cache w' = cache w
          | None =>
              let response :=
                provider (provider_requests w) prompt (merged _ this options) in
              match outcome response with
              | inr usage =>
                  let result :=
                    {| text := String.concat "" (chunks response);
                       usage := usage |} in
                  r = inr result
                  ∧ evs = live_events runId prompt (chunks response)
                            (EvEnd runId result)
                  ∧ cache w'
                    = if cache_configured this
                      then cache (store _ (fingerprint _ prompt_text this prompt options)
                                    result w)
                      else cache w
              | inl e =>
                  r = inl e
                  ∧ evs = live_events runId prompt (chunks response)
                            (EvError runId e)
                  ∧ cache w' = cache w
              end
          end
      end.
Proof.
  unfold Invocation.invoke, lift, bind at 1.
  destruct (_convertInputToPromptValue coerce input) as [e|prompt].
  { exists (inl e), [], w. simpl. by rewrite !app_nil_r. }
  unfold new_run, dispatchStart, dispatchNewToken, dispatchEnd, dispatchError,
    dispatch, cache_update, cache_lookup, request, cached_result,
    bind, get, modify, ret, throw.
  cbn beta iota.
  set (runId := next_run_id w).
  set (response := provider (provider_requests w) prompt (merged _ this options)).
  assert (∀ tokens last,
    ∃ evs, evs = live_events runId prompt tokens last
      ∧ ((dispatched w ++ [EvStart runId prompt]) ++ (EvNewToken runId <$> tokens))
          ++ [last] = dispatched w ++ evs
      ∧ ((delivered w ++ [EvStart runId prompt] ≫= deliveries (callbacks options) 0)
           ++ (EvNewToken runId <$> tokens) ≫= deliveries (callbacks options) 0)
          ++ [last] ≫= deliveries (callbacks options) 0
        = delivered w ++ evs ≫= deliveries (callbacks options) 0) as Hlive.
  { intros tokens last. eexists. split; [reflexivity|]. unfold live_events.
    rewrite !bind_singleton, bind_cons, bind_app, bind_singleton.
    by rewrite <- !app_assoc. }
  destruct (cache_configured this) eqn:Hc;
    [world_fields; destruct (cache w !! _ ≫= _) as [result|] eqn:Hl|].
  - destruct (Hlive [text result] (EvEnd runId result)) as (evs & -> & Hd & Hv).
    eexists _, _, _. split; [reflexivity|]. world_fields.
    split; [exact Hd|]. split; [|done].
    rewrite <- Hv. by rewrite bind_singleton.
  - rewrite dispatchChunks_run. world_fields. fold response.
    destruct (outcome response) as [e|usage] eqn:Ho.
    + destruct (Hlive (chunks response) (EvError runId e)) as (evs & -> & Hd & Hv).
      eexists _, _, _. split; [reflexivity|]. world_fields. done.
    + destruct (Hlive (chunks response) (EvEnd runId
        {| text := String.concat "" (chunks response); usage := usage |}))
        as (evs & -> & Hd & Hv).
      eexists _, _, _. split; [reflexivity|]. world_fields. done.
  - rewrite dispatchChunks_run. world_fields. fold response.
    destruct (outcome response) as [e|usage] eqn:Ho.
    + destruct (Hlive (chunks response) (EvError runId e)) as (evs & -> & Hd & Hv).
      eexists _, _, _. split; [reflexivity|]. world_fields. done.
    + destruct (Hlive (chunks response) (EvEnd runId
        {| text := String.concat "" (chunks response); usage := usage |}))
        as (evs & -> & Hd & Hv).
      eexists _, _, _. split; [reflexivity|]. world_fields. done.
Qed.

Lemma invoke_counters this input (options : CallOptions BaseMessage) (w : World) :
  next_run_id (snd (invoke this input options w))
  = match _convertInputToPromptValue coerce input with
    | inl _ => next_run_id w
    | inr _ => S (next_run_id w)
    end
  ∧ ∀ prompt result,
      _convertInputToPromptValue coerce input = inr prompt →
      cached_result _ prompt_text this prompt options w = Some result →
      provider_requests (snd (invoke this input options w))
      = provider_requests w.
Proof.
  unfold Invocation.invoke, lift, bind at 1 3.
  destruct (_convertInputToPromptValue coerce input) as [e|prompt].
  { split; [done|]. by intros. }
  unfold new_run, dispatchStart, dispatchNewToken, dispatchEnd, dispatchError,
    dispatch, cache_update, cache_lookup, request, cached_result,
    bind, get, modify, ret, throw.
  cbn beta iota.
  destruct (cache_configured this) eqn:Hc;
    [world_fields; destruct (cache w !! _ ≫= _) as [result|] eqn:Hl|].
  - cbn [snd]. world_fields. split; [done|]. by intros.
  - rewrite dispatchChunks_run.
    destruct (outcome _) as [e|usage]; cbn [snd]; world_fields;
      (split; [done|]); intros ? ? [= <-]; by rewrite Hl.
  - rewrite dispatchChunks_run.
    destruct (outcome _) as [e|usage]; cbn [snd]; world_fields;
      (split; [done|]); by intros.
Qed.

(** *** What each handler receives *)

Lemma received_app i (ds1 ds2 : list (nat * Event)) :
  received i (ds1 ++ ds2) = received i ds1 ++ received i ds2.
Proof. unfold received. by rewrite filter_app, fmap_app. Qed.

Lemma received_deliveries (hs : list CallbackHandler) k (ev : Event) i :
  received i (deliveries hs k ev)
  = if decide (k ≤ i)
    then match hs !! (i - k) with
         | Some h => if decide (listens h ev) then [ev] else []
         | None => []
         end
    else [].
Proof.
  revert k. induction hs as [|h hs IH]; intros k; simpl.
  - by case_decide.
  - rewrite received_app, IH. clear IH.
    assert (received i match deliver h ev with
                       | Some _ => [(k, ev)]
                       | None => []
                       end
            = if decide (k = i)
              then if decide (listens h ev) then [ev] else []
              else []) as ->.
    { unfold received. destruct (decide (listens h ev)) as [[r Hr]|Hn].
      - rewrite Hr, filter_cons. cbn [fst].
        by destruct (decide (k = i)).
      - destruct (deliver h ev) as [r|] eqn:Hr.
        + exfalso. apply Hn. unfold listens. rewrite Hr. eauto.
        + by destruct (decide (k = i)). }
    destruct (decide (S k ≤ i)), (decide (k ≤ i)), (decide (k = i)) as [->|Hne];
      try lia.
    + replace (i - k) with (S (i - S k)) by lia. done.
    + rewrite Nat.sub_diag. simpl. by rewrite app_nil_r.
    + done.
Qed.

Lemma received_bind (hs : list CallbackHandler) (evs : list Event) i h :
  hs !! i = Some h →
  received i (evs ≫= deliveries hs 0) = filter (listens h) evs.
Proof.
  intros Hh. induction evs as [|ev evs IH]; [done|].
  rewrite bind_cons, received_app, IH, received_deliveries, filter_cons.
  destruct (decide (0 ≤ i)); [|lia]. rewrite Nat.sub_0_r, Hh.
  by case_decide.
Qed.

(** *** The order of the events *)

Lemma live_events_sorted runId prompt tokens (last : Event) :
  final last → StronglySorted earlier (live_events runId prompt tokens last).
Proof.
  intros Hlast. unfold live_events. constructor.
  - induction tokens as [|t ts IH]; simpl.
    + repeat constructor.
    + constructor; [done|]. apply Forall_app. split.
      * apply Forall_fmap, Forall_true. by intros ?.
      * constructor; [|done]. by destruct last.
  - apply Forall_app. split.
    + apply Forall_fmap, Forall_true. by intros ?.
    + constructor; [|done]. by destruct last.
Qed.

Lemma live_events_run_id runId prompt tokens (last : Event) :
  run_id last = runId →
  Forall (fun ev => run_id ev = runId) (live_events runId prompt tokens last).
Proof.
  intros Hlast. unfold live_events. constructor; [done|].
  apply Forall_app. split; [|by constructor].
  apply Forall_fmap, Forall_true. by intros ?.
Qed.

Lemma filter_all {A} (P : A → Prop) `{!∀ x, Decision (P x)} (l : list A) :
  Forall P l → filter P l = l.
Proof.
  induction 1 as [|x l Hx _ IH]; [done|].
  by rewrite filter_cons, decide_True, IH.
Qed.

Lemma filter_none {A} (P : A → Prop) `{!∀ x, Decision (P x)} (l : list A) :
  Forall (fun x => ¬ P x) l → filter P l = [].
Proof.
  induction 1 as [|x l Hx _ IH]; [done|].
  by rewrite filter_cons, decide_False, IH.
Qed.

Lemma log_ordered_app (w w' : World) (evs : list Event) :
  dispatched w' = dispatched w ++ evs →
  next_run_id w ≤ next_run_id w' →
  (evs ≠ [] → next_run_id w < next_run_id w') →
  Forall (fun ev => run_id ev = next_run_id w) evs →
  StronglySorted earlier evs →
  log_ordered w → log_ordered w'.
Proof.
  intros Hd Hle Hlt Hid Hsorted [Hfresh Hruns]. split.
  - rewrite Hd. apply Forall_app. split.
    + eapply Forall_impl; [exact Hfresh|]. simpl. lia.
    + destruct evs as [|ev evs]; [constructor|].
      eapply Forall_impl; [exact Hid|]. simpl. intros ? ->. by apply Hlt.
  - intros r. unfold run_events. rewrite Hd, filter_app.
    destruct (decide (r = next_run_id w)) as [->|Hne].
    + rewrite (filter_none _ (dispatched w)), (filter_all _ evs); [done..|].
      eapply Forall_impl; [exact Hfresh|]. simpl. lia.
    + rewrite (filter_none _ evs), app_nil_r; [apply Hruns|].
      eapply Forall_impl; [exact Hid|]. simpl. congruence.
Qed.

(** C3: the events one invocation dispatches all carry its runId, and they
    are, in this order, one start event, the new-token events, and one last
    event: the end event when the invocation returns, the error event when
    it throws. No event is dispatched when the input cannot be normalised.
    Hence every pair of events of the run is in the order [earlier]: the
    start before every token, every token before the end or the error, and
    never an end and an error together. The runId is a new one, so a log in
    which the events of every runId are in that order stays so. *)
Theorem dispatch_order this input (options : CallOptions BaseMessage) (w : World) :
  ∃ r evs w',
    invoke this input options w = (r, w')
    ∧ dispatched w' = dispatched w ++ evs
    ∧ Forall (fun ev => run_id ev = next_run_id w) evs
    ∧ StronglySorted earlier evs
    ∧ (evs = []
       ∨ ∃ prompt tokens last,
           evs = live_events (next_run_id w) prompt tokens last
           ∧ last = match r with
                    | inr result => EvEnd (next_run_id w) result
                    | inl e => EvError (next_run_id w) e
                    end)
    ∧ (log_ordered w → log_ordered w').
Proof.
  destruct (invoke_cases this input options w) as (r & evs & w' & E & Hd & _ & H).
  destruct (invoke_counters this input options w) as [Hn _].
  rewrite E in Hn. cbn [snd] in Hn.
  exists r, evs, w'. split; [done|]. split; [done|].
  assert (Forall (fun ev => run_id ev = next_run_id w) evs
          ∧ StronglySorted earlier evs
          ∧ (evs = []
             ∨ ∃ prompt tokens last,
                 evs = live_events (next_run_id w) prompt tokens last
                 ∧ last = match r with
                          | inr result => EvEnd (next_run_id w) result
                          | inl e => EvError (next_run_id w) e
                          end)
          ∧ next_run_id w ≤ next_run_id w'
          ∧ (evs ≠ [] → next_run_id w < next_run_id w'))
    as (Hid & Hs & Hshape & Hle & Hlt).
  { destruct (_convertInputToPromptValue coerce input) as [e|prompt].
    { destruct H as (_ & -> & _).
      split; [constructor|]. split; [constructor|]. split; [by left|].
      split; [lia|done]. }
    cbn zeta in H.
    destruct (cached_result _ _ _ _ _ _) as [result|];
      [|destruct (outcome _) as [e|usage]];
      destruct H as (-> & -> & _);
      (split; [by apply live_events_run_id|]);
      (split; [by apply live_events_sorted|]);
      (split; [right; eauto|]); split; lia. }
  repeat (split; [done|]). by apply (log_ordered_app w w' evs).
Qed.

(** *** Handlers that throw *)

(** C4: whatever the handlers do, throwing or not, every handler receives,
    in order, each event of the run it has a callback for: the token on
    which another handler threw, and the end event after it. The outcome of
    the invocation, the events dispatched and the cache are those of the
    same invocation with no handler at all. *)
Theorem handler_isolation this input (options : CallOptions BaseMessage) (w : World) :
  ∃ r evs w' w0,
    invoke this input options w = (r, w')
    ∧ invoke this input (without_callbacks options) w = (r, w0)
    ∧ cache w' = cache w0
    ∧ dispatched w' = dispatched w ++ evs
    ∧ dispatched w0 = dispatched w ++ evs
    ∧ ∃ ds,
        delivered w' = delivered w ++ ds
        ∧ ∀ i h, callbacks options !! i = Some h →
                 received i ds = filter (listens h) evs.
Proof.
  destruct (invoke_cases this input options w)
    as (r & evs & w' & E & Hd & Hv & H).
  destruct (invoke_cases this input (without_callbacks options) w)
    as (r0 & evs0 & w0 & E0 & Hd0 & _ & H0).
  assert (r0 = r ∧ evs0 = evs ∧ cache w0 = cache w') as (-> & -> & Hc).
  { destruct (_convertInputToPromptValue coerce input) as [e|prompt].
    { destruct H as (-> & -> & ->), H0 as (-> & -> & ->). done. }
    cbn zeta in H, H0.
    change (cached_result _ prompt_text this prompt (without_callbacks options) w)
      with (cached_result _ prompt_text this prompt options w) in H0.
    change (merged _ this (without_callbacks options))
      with (merged _ this options) in H0.
    change (fingerprint _ prompt_text this prompt (without_callbacks options))
      with (fingerprint _ prompt_text this prompt options) in H0.
    destruct (cached_result _ _ _ _ _ _) as [result|];
      [|destruct (outcome _) as [e|usage]];
      destruct H as (-> & -> & ->), H0 as (-> & -> & ->); done. }
  exists r, evs, w', w0. repeat (split; [done|]).
  eexists. split; [exact Hv|].
  intros i h Hh. by apply received_bind.
Qed.

(** *** A second call with a Cache configured *)

Lemma concat_singleton (s : string) : String.concat "" [s] = s.
Proof. done. Qed.

Lemma tokens_of_live runId prompt tokens (last : Event) :
  final last → tokens_of (live_events runId prompt tokens last) = tokens.
Proof.
  intros Hlast. unfold live_events, tokens_of.
  cbn [omap list_omap]. rewrite omap_app.
  assert (omap (fun ev : Event =>
                  match ev with EvNewToken _ t => Some t | _ => None end)
            (EvNewToken runId <$> tokens) = tokens) as ->.
  { induction tokens as [|t ts IH]; csimpl; [done|]. by rewrite IH. }
  destruct last; simpl in *; try done; by rewrite app_nil_r.
Qed.

Lemma stored_result key (result : Generation) (w : World) :
  cache w !! key ≫= (fun results => results !! 0) = None →
  cache (store _ key result w) !! key ≫= (fun results => results !! 0)
  = Some result.
Proof.
  intros Hmiss. simpl. rewrite lookup_insert_eq. simpl.
  destruct (cache w !! key) as [[|r results]|]; simpl in *; done.
Qed.

(** C1: with a Cache configured, when a call returns an output, the next
    call with the same input and the same call options, whatever its
    callbacks, returns the same output without a request to the provider;
    the new-token events it dispatches, concatenated in order, are the
    content of that output, and so are the tokens every handler with a
    new-token callback receives. *)
Theorem cache_hit_equivalence this input
    (options1 options2 : CallOptions BaseMessage) (w w1 : World) output :
  cache_configured this = true →
  call_options options1 = call_options options2 →
  invoke this input options1 w = (inr output, w1) →
  ∃ evs w2,
    invoke this input options2 w1 = (inr output, w2)
    ∧ provider_requests w2 = provider_requests w1
    ∧ dispatched w2 = dispatched w1 ++ evs
    ∧ String.concat "" (tokens_of evs) = text output
    ∧ ∀ i h, callbacks options2 !! i = Some h →
             is_Some (handleLLMNewToken _ h) →
             String.concat ""
               (tokens_of (received i (drop (length (delivered w1)) (delivered w2))))
             = text output.
Proof.
  intros Hcache Hopts E1.
  destruct (invoke_cases this input options1 w)
    as (r1 & evs1 & w1' & E1' & _ & _ & H1).
  rewrite E1 in E1'. injection E1' as <- <-.
  destruct (invoke_cases this input options2 w1)
    as (r2 & evs2 & w2 & E2 & Hd2 & Hv2 & H2).
  destruct (invoke_counters this input options2 w1) as [_ Hreq].
  rewrite E2 in Hreq. cbn [snd] in Hreq.
  destruct (_convertInputToPromptValue coerce input) as [e|prompt].
  { by destruct H1 as (? & _). }
  cbn zeta in H1, H2.
  assert (fingerprint _ prompt_text this prompt options2
          = fingerprint _ prompt_text this prompt options1) as Hkey.
  { unfold fingerprint, merged. by rewrite Hopts. }
  assert (cached_result _ prompt_text this prompt options2 w1 = Some output)
    as Hhit.
  { unfold cached_result in *. rewrite Hcache in *. rewrite Hkey.
    destruct (cache w !! _ ≫= _) as [result|] eqn:Hl.
    - destruct H1 as (Hr & _ & ->). by injection Hr as <-.
    - destruct (outcome _) as [e|usage]; [by destruct H1 as (? & _)|].
      destruct H1 as (Hr & _ & ->). injection Hr as <-.
      by apply stored_result. }
  rewrite Hhit in H2. destruct H2 as (-> & -> & _).
  eexists _, w2. split; [exact E2|].
  split; [by apply (Hreq prompt output)|].
  split; [exact Hd2|].
  rewrite tokens_of_live by done. split; [done|].
  intros i h Hh Htok. rewrite Hv2, drop_app_length.
  rewrite (received_bind _ _ _ _ Hh).
  unfold live_events. simpl.
  assert (listens h (EvNewToken (next_run_id w1) (text output))) as Hl.
  { unfold listens. simpl. destruct Htok as [f ->]. simpl. eauto. }
  rewrite !filter_cons, filter_nil. rewrite (decide_True _ _ Hl).
  repeat case_decide; done.
Qed.

End WithMessages.

Import InvocationExamples.

Lemma cache_hit_equivalence_witness :
  ∃ evs w2,
    example_invoke example_provider FakeChatModel hello
      (with_callbacks [accumulating]) after_first_call
    = (inr hello_back, w2)
    ∧ provider_requests w2 = provider_requests after_first_call
    ∧ dispatched w2 = dispatched after_first_call ++ evs
    ∧ String.concat "" (tokens_of evs) = text hello_back
    ∧ ∀ i h, callbacks (with_callbacks [accumulating]) !! i = Some h →
             is_Some (handleLLMNewToken _ h) →
             String.concat ""
               (tokens_of
                  (received i (drop (length (delivered after_first_call))
                                 (delivered w2))))
             = text hello_back.
Proof.
  apply (cache_hit_equivalence coerce_human example_prompt_text example_provider
           FakeChatModel hello no_callbacks (with_callbacks [accumulating])
           empty_world after_first_call hello_back).
  - reflexivity.
  - reflexivity.
  - vm_compute. reflexivity.
Defined.

Lemma dispatch_order_witness :
  log_ordered
    (snd (example_invoke example_provider FakeChatModel hello
            (with_callbacks [accumulating]) after_first_call)).
Proof.
  destruct (dispatch_order coerce_human example_prompt_text example_provider
              FakeChatModel hello (with_callbacks [accumulating])
              after_first_call)
    as (r & evs & w' & E & _ & _ & _ & _ & Hlog).
  unfold example_invoke. rewrite E. apply Hlog.
  destruct (dispatch_order coerce_human example_prompt_text example_provider
              FakeChatModel hello no_callbacks empty_world)
    as (r1 & evs1 & w1 & E1 & _ & _ & _ & _ & Hlog1).
  unfold after_first_call, example_invoke. rewrite E1. apply Hlog1.
  split; [constructor|]. intros r0. constructor.
Defined.

Lemma handler_isolation_witness :
  ∃ r evs w' w0,
    example_invoke example_provider FakeChatModel hello
      (with_callbacks [faulty; accumulating]) empty_world = (r, w')
    ∧ example_invoke example_provider FakeChatModel hello
        (without_callbacks (with_callbacks [faulty; accumulating])) empty_world
      = (r, w0)
    ∧ cache w' = cache w0
    ∧ dispatched w' = dispatched empty_world ++ evs
    ∧ dispatched w0 = dispatched empty_world ++ evs
    ∧ ∃ ds,
        delivered w' = delivered empty_world ++ ds
        ∧ ∀ i h, callbacks (with_callbacks [faulty; accumulating]) !! i = Some h →
                 received i ds = filter (listens h) evs.
Proof.
  apply (handler_isolation coerce_human example_prompt_text example_provider
           FakeChatModel hello (with_callbacks [faulty; accumulating])
           empty_world).
Defined.

(** The test "uses callbacks with a cache": the second call returns the
    content of the first, and the handler has accumulated that content. *)
Example test_callbacks_with_cache :
  let second :=
    example_invoke example_provider FakeChatModel hello
      (with_callbacks [accumulating]) after_first_call in
  fst second = inr hello_back
  ∧ tokens_of (received 0 (delivered (snd second))) = ["Hello back"]
  ∧ provider_requests (snd second) = 1.
Proof. vm_compute. repeat split. Qed.

(** A handler that throws on each token, before one that accumulates: the
    second handler still receives both tokens, the first still receives the
    end event, and the call returns. *)
Example test_faulty_handler :
  let run :=
    example_invoke example_provider FakeChatModel hello
      (with_callbacks [faulty; accumulating]) empty_world in
  fst run = inr hello_back
  ∧ tokens_of (received 1 (delivered (snd run))) = ["Hello"; " back"]
  ∧ received 0 (delivered (snd run))
    = [EvNewToken 0 "Hello"; EvNewToken 0 " back"; EvEnd 0 hello_back]
  ∧ handler_errors (snd run)
    = [(0, JsError "handler failed"); (0, JsError "handler failed")].
Proof. vm_compute. repeat split. Qed.

(** A failing request: start, the chunk received, then the error event and
    no end event; nothing is stored. *)
Example test_failing_provider :
  let run :=
    example_invoke failing_provider FakeChatModel hello no_callbacks
      empty_world in
  fst run = inl (NonTransientProviderError "malformed request")
  ∧ dispatched (snd run)
    = [EvStart 0 (StringPromptValue "Hello there!"); EvNewToken 0 "Hel";
       EvError 0 (NonTransientProviderError "malformed request")]
  ∧ cache (snd run) = ∅.
Proof. vm_compute. repeat split. Qed.

End InvocationFacts.

(** ** [JSON.parse] *)

Module JsonParseFacts.
Import JsonParse.
Import JsFacts.

Example parse_test_output :
  JSON_parse (dq "{ 'test': true, 'nested': { 'somethingelse': 'somevalue' } }")
  = Some (JObject
            [(units "test", JBool true);
             (units "nested",
              JObject [(units "somethingelse", JString (units "somevalue"))])]).
Proof. vm_compute. reflexivity. Qed.

Example parse_values :
  JSON_parse (dq " [1, -20, 'a\nb', null, {}, [], {'k': 1, 'j': 2, 'k': 3}] ")
  = Some (JArray [JNumber false 1 0; JNumber true 2 1;
                  JString [97; 10; 98]%N; JNull; JObject []; JArray [];
                  JObject [(units "k", JNumber false 3 0);
                           (units "j", JNumber false 2 0)]]).
Proof. vm_compute. reflexivity. Qed.

(** Fractions, exponents and escapes of every code unit are read; equal
    decimals are one value, and the two zeros are two. *)
Example parse_numbers :
  JSON_parse "1.5" = Some (JNumber false 15 (-1))
  ∧ JSON_parse "1e3" = JSON_parse "1000"
  ∧ JSON_parse "1.50E+2" = Some (JNumber false 15 1)
  ∧ JSON_parse "-0.0" = Some (JNumber true 0 0)
  ∧ JSON_parse "0" = Some (JNumber false 0 0)
  ∧ JSON_parse (dq "{'x': 0.5}") = Some (JObject [(units "x", JNumber false 5 (-1))])
  ∧ JSON_parse (dq "'\u0100\ud83d\/'") = Some (JString [256; 55357; 47]%N).
Proof. vm_compute. repeat split. Qed.

Example parse_malformed :
  JSON_parse (dq "{ 'test': true, ") = None
  ∧ JSON_parse (dq "{ 'test': tru }") = None
  ∧ JSON_parse (dq "{ 'test': true } x") = None
  ∧ JSON_parse (dq "{ test: true }") = None
  ∧ JSON_parse (dq "{ 'test': true, }") = None
  ∧ JSON_parse "[1,]" = None
  ∧ JSON_parse "01" = None
  ∧ JSON_parse "1." = None
  ∧ JSON_parse ".5" = None
  ∧ JSON_parse "1e" = None
  ∧ JSON_parse "+1" = None
  ∧ JSON_parse "-" = None
  ∧ JSON_parse (dq "'\x41'") = None
  ∧ JSON_parse (dq "'\u12'") = None
  ∧ JSON_parse "" = None.
Proof. vm_compute. repeat split. Qed.

(** What [JSON.stringify] prints, [JSON.parse] reads back. *)
Example parse_stringify :
  JSON_stringify (VObj [("a", VArr [VNum (NInt 1); VStr (dq "q'\t")]); ("b", VNull)])
    ≫= JSON_parse
  = Some (JObject [(units "a", JArray [JNumber false 1 0; JString (units (dq "q'\t"))]);
                   (units "b", JNull)]).
Proof. vm_compute. reflexivity. Qed.

(** *** What the parts of the parser consume *)

Lemma skip_ws_app s : ∃ w, s = w ++ skip_ws s ∧ skip_ws w = "".
Proof.
  induction s as [|c s (w & E & Hw)]; [by exists ""|].
  cbn [skip_ws]. destruct (is_ws c) eqn:Hc.
  - exists (String c w). rewrite string_app_cons, <- E. split; [done|].
    cbn [skip_ws]. by rewrite Hc.
  - by exists "".
Qed.

Lemma expect_app c s rest : expect c s = Some rest ↔ s = String c rest.
Proof.
  destruct s as [|c' s]; cbn [expect]; [done|].
  case_decide; split; intros [=]; by subst.
Qed.

Lemma strip_prefix_app w s rest : strip_prefix w s = Some rest ↔ s = w ++ rest.
Proof.
  revert s. induction w as [|a w IH]; intros s.
  - rewrite string_app_nil_l. cbn. destruct s; split; intros [=]; by subst.
  - rewrite string_app_cons. destruct s as [|b s]; cbn [strip_prefix]; [done|].
    case_decide as Hab.
    + subst b. rewrite IH. split; [by intros ->|by intros [=]].
    + split; [done|]. intros [=]. by subst.
Qed.

Lemma span_digits_app s :
  s = (span_digits s).1 ++ (span_digits s).2.
Proof.
  induction s as [|c s IH]; [done|]. cbn [span_digits].
  destruct (digit_value c); [|done].
  destruct (span_digits s) as [d rest]. cbn [fst snd] in *.
  by rewrite string_app_cons, <- IH.
Qed.

Lemma string_app_length a b :
  String.length (a ++ b) = (String.length a + String.length b)%nat.
Proof.
  induction a as [|c a IH]; [by rewrite string_app_nil_l|].
  rewrite string_app_cons. cbn [String.length]. by rewrite IH.
Qed.

Local Open Scope nat_scope.

Lemma skip_ws_length s : String.length (skip_ws s) ≤ String.length s.
Proof.
  destruct (skip_ws_app s) as (w & E & _). rewrite E at 2.
  rewrite string_app_length. lia.
Qed.

Lemma expect_length c s rest :
  expect c s = Some rest → String.length s = S (String.length rest).
Proof. by intros ->%expect_app. Qed.

Lemma strip_prefix_length w s rest :
  strip_prefix w s = Some rest →
  String.length s = String.length w + String.length rest.
Proof. intros ->%strip_prefix_app. apply string_app_length. Qed.

Lemma parse_frac_length s frac rest :
  parse_frac s = Some (frac, rest) →
  String.length s = String.length (if decide (frac = "") then "" else ".")
                    + String.length frac + String.length rest.
Proof.
  unfold parse_frac.
  assert (Hnone : Some ("", s) = Some (frac, rest) →
    String.length s = String.length (if decide (frac = "") then "" else ".")
                      + String.length frac + String.length rest).
  { intros [= <- <-]. done. }
  destruct s as [|c s]; [done|].
  destruct (decide (c = "."%char)) as [->|Hc].
  - pose proof (span_digits_app s) as E.
    destruct (span_digits s) as [d r]. cbn [fst snd] in E.
    destruct (decide (d = "")) as [Hd|Hd]; [done|]. intros [= <- <-].
    rewrite decide_False by done. rewrite E at 1.
    cbn [String.length]. rewrite string_app_length. lia.
  - intros H. apply Hnone. revert H.
    destruct c as [[] [] [] [] [] [] [] []]; try done.
Qed.

Lemma exp_digits_length negative s e rest :
  exp_digits negative s = Some (e, rest) → String.length rest ≤ String.length s.
Proof.
  unfold exp_digits. pose proof (span_digits_app s) as E.
  destruct (span_digits s) as [d r]. cbn [fst snd] in E.
  destruct (decide (d = "")) as [Hd|Hd]; [done|]. intros [= _ <-].
  rewrite E, string_app_length. lia.
Qed.

Lemma parse_exp_length s e rest :
  parse_exp s = Some (e, rest) → String.length rest ≤ String.length s.
Proof.
  unfold parse_exp.
  destruct s as [|c s]; [by intros [= _ <-]|].
  case_bool_decide; [|by intros [= _ <-]].
  assert (Hsign : ∀ negative s',
    String.length s' ≤ String.length s →
    exp_digits negative s' = Some (e, rest) →
    String.length rest ≤ String.length (String c s)).
  { intros negative s' Hle ?%exp_digits_length. cbn. lia. }
  destruct s as [|c' s]; [by apply Hsign|].
  destruct (decide (c' = "+"%char)) as [->|Hplus]; [apply Hsign; cbn; lia|].
  destruct (decide (c' = "-"%char)) as [->|Hminus]; [apply Hsign; cbn; lia|].
  intros Hexp. apply (Hsign false (String c' s)); [cbn; lia|]. revert Hexp.
  destruct c' as [[] [] [] [] [] [] [] []]; try done.
Qed.

Lemma is_int_length d : is_int d = true → 0 < String.length d.
Proof. destruct d; [done|]. cbn. lia. Qed.

Lemma parse_number_length s v rest :
  parse_number s = Some (v, rest) → String.length rest < String.length s.
Proof.
  unfold parse_number.
  assert (Hbody : ∀ negative s1,
    String.length s1 ≤ String.length s →
    (let '(int, rest1) := span_digits s1 in
     if is_int int then
       match parse_frac rest1 with
       | Some (frac, rest2) =>
           match parse_exp rest2 with
           | Some (exp, rest3) => Some (number_of negative int frac exp, rest3)
           | None => None
           end
       | None => None
       end
     else None) = Some (v, rest) →
    String.length rest < String.length s).
  { intros negative s1 Hle. pose proof (span_digits_app s1) as E.
    destruct (span_digits s1) as [int r1]. cbn [fst snd] in E.
    destruct (is_int int) eqn:Hint; [|done]. apply is_int_length in Hint.
    destruct (parse_frac r1) as [[frac r2]|] eqn:Hfrac; [|done].
    apply parse_frac_length in Hfrac.
    destruct (parse_exp r2) as [[exp r3]|] eqn:Hexp; [|done].
    apply parse_exp_length in Hexp. intros [= _ <-].
    rewrite E, string_app_length in Hle. lia. }
  destruct s as [|c s]; [done|].
  destruct (decide (c = "-"%char)) as [->|Hc].
  - apply Hbody. cbn. lia.
  - intros H. apply (Hbody false (String c s)); [done|]. revert H.
    destruct c as [[] [] [] [] [] [] [] []]; try done.
Qed.

Lemma parse_string_body_length s str rest :
  parse_string_body s = Some (str, rest) → String.length rest < String.length s.
Proof.
  assert (∀ n s, String.length s ≤ n → ∀ str rest,
    parse_string_body s = Some (str, rest) →
    String.length rest < String.length s) as H; [|by apply (H (String.length s))].
  clear. induction n as [|n IH]; intros [|c s] Hn str rest; simpl in *;
    try done; try lia.
  assert (∀ u t, String.length t ≤ n →
    prepend u <$> parse_string_body t = Some (str, rest) →
    String.length rest < String.length t) as Hrec.
  { intros u t Ht. destruct (parse_string_body t) as [[str' rest']|] eqn:E;
      [|done]. intros [= _ <-]. by eapply IH. }
  repeat case_decide; try done.
  - intros [= _ <-]. lia.
  - destruct s as [|e s]; [done|]. simpl in *.
    destruct (unescape e).
    + intros ?%Hrec; lia.
    + destruct (decide (e = "u"%char)) as [->|He].
      * destruct s as [|h1 [|h2 [|h3 [|h4 s5]]]]; try done. simpl in *.
        destruct (hex4 _ _ _ _); [|done].
        intros ?%Hrec; lia.
      * intros Hu. exfalso. revert Hu.
        destruct e as [[] [] [] [] [] [] [] []]; try done; by destruct s.
  - intros ?%Hrec; lia.
Qed.

(** *** Fuel

    A parse reads at least one character, and it is the same with any fuel
    from twice the length of the text on: a text [JSON_parse] refuses is
    refused with every fuel. *)

#[local] Arguments strip_prefix : simpl never.
#[local] Arguments expect : simpl never.
#[local] Arguments skip_ws : simpl never.
#[local] Arguments parse_number : simpl never.
#[local] Arguments parse_string_body : simpl never.

Lemma parse_fuel f :
  (∀ s v rest,
     parse_value f s = Some (v, rest) →
     String.length rest < String.length s
     ∧ ∀ f', 2 * String.length s ≤ f' → parse_value f' s = Some (v, rest))
  ∧ (∀ s acc xs rest,
       parse_elements f s acc = Some (xs, rest) →
       String.length rest < String.length s
       ∧ ∀ f', 2 * String.length s + 1 ≤ f' →
               parse_elements f' s acc = Some (xs, rest))
  ∧ (∀ s acc fields rest,
       parse_members f s acc = Some (fields, rest) →
       String.length rest < String.length s
       ∧ ∀ f', 2 * String.length s + 1 ≤ f' →
               parse_members f' s acc = Some (fields, rest)).
Proof.
  induction f as [|f (IHv & IHe & IHm)]; [done|].
  split; [|split].
  - intros s v rest H. simpl in H.
    pose proof (skip_ws_length s).
    destruct (expect "{" (skip_ws s)) as [r1|] eqn:E1.
    { apply expect_length in E1 as L1. pose proof (skip_ws_length r1).
      destruct (expect "}" (skip_ws r1)) as [r2|] eqn:E2.
      - apply expect_length in E2 as L2. injection H as <- <-. split; [lia|].
        intros [|f'] Hf; [lia|]. simpl. by rewrite E1, E2.
      - destruct (parse_members f r1 []) as [[fields r2]|] eqn:E3; [|done].
        injection H as <- <-. apply IHm in E3 as [L3 S3]. split; [lia|].
        intros [|f'] Hf; [lia|]. simpl. by rewrite E1, E2, S3 by lia. }
    destruct (expect "[" (skip_ws s)) as [r1|] eqn:E2.
    { apply expect_length in E2 as L1. pose proof (skip_ws_length r1).
      destruct (expect "]" (skip_ws r1)) as [r2|] eqn:E3.
      - apply expect_length in E3 as L2. injection H as <- <-. split; [lia|].
        intros [|f'] Hf; [lia|]. simpl. by rewrite E1, E2, E3.
      - destruct (parse_elements f r1 []) as [[xs r2]|] eqn:E4; [|done].
        injection H as <- <-. apply IHe in E4 as [L3 S3]. split; [lia|].
        intros [|f'] Hf; [lia|]. simpl. by rewrite E1, E2, E3, S3 by lia. }
    destruct (expect dquote (skip_ws s)) as [r1|] eqn:E3.
    { apply expect_length in E3 as L1.
      destruct (parse_string_body r1) as [[str r2]|] eqn:E4; [|done].
      apply parse_string_body_length in E4 as L2.
      injection H as <- <-. split; [lia|].
      intros [|f'] Hf; [lia|]. simpl. by rewrite E1, E2, E3, E4. }
    destruct (strip_prefix "true" (skip_ws s)) as [r1|] eqn:E4.
    { apply strip_prefix_length in E4 as L1. simpl in L1.
      injection H as <- <-. split; [lia|].
      intros [|f'] Hf; [lia|]. simpl. by rewrite E1, E2, E3, E4. }
    destruct (strip_prefix "false" (skip_ws s)) as [r1|] eqn:E5.
    { apply strip_prefix_length in E5 as L1. simpl in L1.
      injection H as <- <-. split; [lia|].
      intros [|f'] Hf; [lia|]. simpl. by rewrite E1, E2, E3, E4, E5. }
    destruct (strip_prefix "null" (skip_ws s)) as [r1|] eqn:E6.
    { apply strip_prefix_length in E6 as L1. simpl in L1.
      injection H as <- <-. split; [lia|].
      intros [|f'] Hf; [lia|]. simpl. by rewrite E1, E2, E3, E4, E5, E6. }
    apply parse_number_length in H as L1. split; [lia|].
    intros [|f'] Hf; [lia|]. simpl. by rewrite E1, E2, E3, E4, E5, E6.
  - intros s acc xs rest H. simpl in H.
    destruct (parse_value f s) as [[x r1]|] eqn:E1; [|done].
    apply IHv in E1 as [L1 S1]. pose proof (skip_ws_length r1).
    destruct (expect "," (skip_ws r1)) as [r2|] eqn:E2.
    { apply expect_length in E2 as L2. apply IHe in H as [L3 S3].
      split; [lia|].
      intros [|f'] Hf; [lia|]. simpl. by rewrite S1, E2, S3 by lia. }
    destruct (expect "]" (skip_ws r1)) as [r2|] eqn:E3; [|done].
    apply expect_length in E3 as L2. injection H as <- <-. split; [lia|].
    intros [|f'] Hf; [lia|]. simpl. by rewrite S1, E2, E3 by lia.
  - intros s acc fields rest H. simpl in H.
    pose proof (skip_ws_length s).
    destruct (expect dquote (skip_ws s)) as [r1|] eqn:E1; [|done].
    apply expect_length in E1 as L1.
    destruct (parse_string_body r1) as [[key r2]|] eqn:E2; [|done].
    apply parse_string_body_length in E2 as L2. pose proof (skip_ws_length r2).
    destruct (expect ":" (skip_ws r2)) as [r3|] eqn:E3; [|done].
    apply expect_length in E3 as L3.
    destruct (parse_value f r3) as [[x r4]|] eqn:E4; [|done].
    apply IHv in E4 as [L4 S4]. pose proof (skip_ws_length r4).
    destruct (expect "," (skip_ws r4)) as [r5|] eqn:E5.
    { apply expect_length in E5 as L5. apply IHm in H as [L6 S6].
      split; [lia|].
      intros [|f'] Hf; [lia|]. simpl.
      by rewrite E1, E2, E3, S4, E5, S6 by lia. }
    destruct (expect "}" (skip_ws r4)) as [r5|] eqn:E6; [|done].
    apply expect_length in E6 as L5. injection H as <- <-. split; [lia|].
    intros [|f'] Hf; [lia|]. simpl. by rewrite E1, E2, E3, S4, E5, E6 by lia.
Qed.

(** A text that parses with some fuel parses with the fuel of [JSON_parse],
    to the same value. *)
Theorem JSON_parse_fuel fuel text v rest :
  parse_value fuel text = Some (v, rest) →
  skip_ws rest = "" →
  JSON_parse text = Some v.
Proof.
  intros [_ H]%parse_fuel Hrest. unfold JSON_parse.
  rewrite H by lia. by rewrite decide_True.
Qed.

(** A text [JSON_parse] refuses is refused with every fuel. *)
Lemma JSON_parse_None text :
  JSON_parse text = None →
  ∀ fuel v rest, parse_value fuel text = Some (v, rest) → skip_ws rest ≠ "".
Proof.
  intros Hnone fuel v rest H Hrest.
  by rewrite (JSON_parse_fuel fuel text v rest H Hrest) in Hnone.
Qed.

End JsonParseFacts.

(** ** [JSON.parse] and the JSON grammar *)

Module JsonGrammarFacts.
Import JsonParse JsonGrammar.
Import JsFacts JsonParseFacts.

Ltac norm_str :=
  repeat first [rewrite string_app_assoc | rewrite string_app_cons
               | rewrite string_app_nil_l].

(** *** Whitespace *)

Lemma ws_nil : ws "".
Proof. constructor. Qed.

Lemma ws_cons c w : ws (String c w) ↔ is_ws c = true ∧ ws w.
Proof.
  unfold ws, is_ws. cbn [list_ascii_of_string].
  by rewrite Forall_cons, bool_decide_eq_true.
Qed.

Lemma ws_app w1 w2 : ws w1 → ws w2 → ws (w1 ++ w2).
Proof.
  induction w1 as [|c w1 IH]; norm_str; [done|].
  rewrite !ws_cons. intros [Hc H1] H2. split; [done|]. by apply IH.
Qed.

Lemma skip_ws_cons c x :
  skip_ws (String c x) = if is_ws c then skip_ws x else String c x.
Proof. reflexivity. Qed.

Lemma skip_ws_split s : ∃ w, ws w ∧ s = w ++ skip_ws s.
Proof.
  induction s as [|c s (w & Hw & E)].
  { exists "". split; [apply ws_nil|done]. }
  rewrite skip_ws_cons. destruct (is_ws c) eqn:Hc.
  - exists (String c w). rewrite ws_cons, string_app_cons, <- E. done.
  - exists "". split; [apply ws_nil|done].
Qed.

Lemma skip_ws_ws w x : ws w → skip_ws (w ++ x) = skip_ws x.
Proof.
  induction w as [|c w IH]; norm_str; [done|].
  rewrite ws_cons, skip_ws_cons. intros [-> Hw]. by apply IH.
Qed.

Lemma skip_ws_stop c x : is_ws c = false → skip_ws (String c x) = String c x.
Proof. intros Hc. by rewrite skip_ws_cons, Hc. Qed.

Lemma skip_ws_empty w : ws w → skip_ws w = "".
Proof.
  induction w as [|c w IH]; [done|].
  rewrite ws_cons, skip_ws_cons. intros [-> Hw]. by apply IH.
Qed.

Lemma ws_skip_ws s : skip_ws s = "" → ws s.
Proof.
  intros E. destruct (skip_ws_split s) as (w & Hw & Es).
  rewrite E in Es. rewrite Es. apply ws_app; [done|apply ws_nil].
Qed.

Lemma expect_cons c c' x :
  expect c (String c' x) = if decide (c' = c) then Some x else None.
Proof. reflexivity. Qed.

Lemma expect_same c x : expect c (String c x) = Some x.
Proof. by rewrite expect_cons, decide_True. Qed.

Lemma expect_other c c' x : c' ≠ c → expect c (String c' x) = None.
Proof. intros H. by rewrite expect_cons, decide_False. Qed.

(** *** Digits *)

Abbreviation all_digits d :=
  (Forall (fun c => is_Some (digit_value c)) (list_ascii_of_string d)).
Abbreviation no_digit_ahead r :=
  (∀ c r', r = String c r' → digit_value c = None).

Lemma all_digits_cons c d :
  all_digits (String c d) ↔ is_Some (digit_value c) ∧ all_digits d.
Proof. cbn [list_ascii_of_string]. by rewrite Forall_cons. Qed.

Lemma span_digits_cons c s :
  span_digits (String c s)
  = match digit_value c with
    | Some _ => (String c (span_digits s).1, (span_digits s).2)
    | None => ("", String c s)
    end.
Proof. cbn [span_digits]. destruct (digit_value c); [|done]. by destruct (span_digits s). Qed.

Lemma span_digits_spec s :
  all_digits (span_digits s).1
  ∧ s = (span_digits s).1 ++ (span_digits s).2
  ∧ no_digit_ahead (span_digits s).2.
Proof.
  induction s as [|c s (IH1 & IH2 & IH3)].
  - split; [constructor|]. split; [done|]. by intros c r' [=].
  - rewrite span_digits_cons. destruct (digit_value c) as [n|] eqn:Hc; cbn [fst snd].
    + rewrite all_digits_cons, Hc. split; [by split|].
      split; [by rewrite string_app_cons, <- IH2|done].
    + split; [constructor|]. split; [done|]. by intros c' r' [= <- <-].
Qed.

Lemma span_digits_eq d r :
  all_digits d → no_digit_ahead r → span_digits (d ++ r) = (d, r).
Proof.
  intros Hd Hr. induction d as [|c d IH]; norm_str.
  - destruct r as [|c r]; [done|]. rewrite span_digits_cons.
    by rewrite (Hr c r eq_refl).
  - apply all_digits_cons in Hd as [[n Hc] Hd].
    rewrite span_digits_cons, Hc, (IH Hd). done.
Qed.

Lemma digit_cases c :
  is_Some (digit_value c) →
  c ∈ ["0"; "1"; "2"; "3"; "4"; "5"; "6"; "7"; "8"; "9"]%char.
Proof.
  intros [n Hn]. unfold digit_value in Hn. cbn zeta in Hn.
  case_decide as Hc; [|done]. clear Hn.
  rewrite <- (ascii_N_embedding c). remember (N_of_ascii c) as m eqn:Em. clear Em.
  assert (m = 48 ∨ m = 49 ∨ m = 50 ∨ m = 51 ∨ m = 52 ∨ m = 53 ∨ m = 54
          ∨ m = 55 ∨ m = 56 ∨ m = 57)%N as H by lia.
  repeat (destruct H as [->|H]; [apply (bool_decide_unpack _); vm_compute; exact I|]).
  subst. apply (bool_decide_unpack _). vm_compute. exact I.
Qed.

(** *** Numbers *)

Abbreviation number_stop rest :=
  (∀ c x, rest = String c x →
          digit_value c = None ∧ c ≠ "."%char ∧ c ∉ ["e"; "E"]%char).

Abbreviation number_rest negative s1 :=
  (let '(int, rest1) := span_digits s1 in
   if is_int int then
     match parse_frac rest1 with
     | Some (frac, rest2) =>
         match parse_exp rest2 with
         | Some (exp, rest3) => Some (number_of negative int frac exp, rest3)
         | None => None
         end
     | None => None
     end
   else None).

Lemma is_int_cons c d :
  is_int (String c d)
  = if decide (c = "0"%char) then bool_decide (d = "") else true.
Proof.
  destruct (decide (c = "0"%char)) as [->|Hc]; [by destruct d|].
  destruct c as [[] [] [] [] [] [] [] []]; try done.
Qed.

Lemma int_text_is_int d : int_text d ↔ all_digits d ∧ is_int d = true.
Proof.
  unfold int_text, digits. split.
  - intros [->|[[Hne Hd] H0]].
    + split; [|done]. apply all_digits_cons. split; [by eexists|constructor].
    + split; [done|]. destruct d as [|c d]; [done|]. rewrite is_int_cons.
      case_decide as Hc; [|done]. subst. by destruct (H0 d).
  - intros [Hd Hi]. destruct d as [|c d]; [done|]. rewrite is_int_cons in Hi.
    case_decide as Hc.
    + apply bool_decide_eq_true in Hi. subst. by left.
    + right. split; [done|]. by intros d' [= ? ?].
Qed.

Lemma int_text_head int :
  int_text int → ∃ c d, int = String c d ∧ is_Some (digit_value c).
Proof.
  intros [Hd Hi]%int_text_is_int. destruct int as [|c d]; [done|].
  apply all_digits_cons in Hd as [Hc _]. by exists c, d.
Qed.

Lemma parse_frac_cons c s :
  parse_frac (String c s)
  = if decide (c = "."%char) then
      (if decide ((span_digits s).1 = "") then None else Some (span_digits s))
    else Some ("", String c s).
Proof.
  destruct (decide (c = "."%char)) as [->|Hc].
  - cbn [parse_frac]. destruct (span_digits s) as [d r]. cbn [fst].
    by case_decide.
  - destruct c as [[] [] [] [] [] [] [] []]; try done.
Qed.

Lemma parse_frac_sound s frac rest :
  parse_frac s = Some (frac, rest) → ∃ ft, s = ft ++ rest ∧ frac_text ft frac.
Proof.
  destruct s as [|c s].
  { intros [= <- <-]. exists "". split; [done|constructor]. }
  rewrite parse_frac_cons. destruct (span_digits_spec s) as (Hd & E & _).
  case_decide as Hc.
  - subst c. case_decide as Hne; [done|].
    destruct (span_digits s) as [d r]. cbn [fst snd] in *. intros [= <- <-].
    exists (String "." d). rewrite string_app_cons, <- E. split; [done|].
    constructor. by split.
  - intros [= <- <-]. exists "". split; [done|constructor].
Qed.

Lemma parse_frac_complete ft frac rest :
  frac_text ft frac → no_digit_ahead rest →
  (ft = "" → ∀ x, rest ≠ String "." x) →
  parse_frac (ft ++ rest) = Some (frac, rest).
Proof.
  intros [|d [Hne Hd]] Hr Hp.
  - rewrite string_app_nil_l. destruct rest as [|c x]; [done|].
    rewrite parse_frac_cons, decide_False; [done|].
    intros ->. by apply (Hp eq_refl x).
  - rewrite string_app_cons, parse_frac_cons, decide_True by done.
    rewrite span_digits_eq by done. cbn [fst]. by rewrite decide_False.
Qed.

Lemma exp_digits_sound negative s e rest :
  exp_digits negative s = Some (e, rest) →
  ∃ d, s = d ++ rest ∧ digits d
       ∧ e = (if negative then - Z.of_N (digits_value 0 d)
              else Z.of_N (digits_value 0 d))%Z.
Proof.
  unfold exp_digits. destruct (span_digits_spec s) as (Hd & E & _).
  destruct (span_digits s) as [d r]. cbn [fst snd] in *.
  case_decide; [done|]. intros [= <- <-]. exists d. by repeat split.
Qed.

Lemma exp_digits_complete negative d rest :
  digits d → no_digit_ahead rest →
  exp_digits negative (d ++ rest)
  = Some ((if negative then - Z.of_N (digits_value 0 d)
           else Z.of_N (digits_value 0 d))%Z, rest).
Proof.
  intros [Hne Hd] Hr. unfold exp_digits. rewrite span_digits_eq by done.
  by rewrite decide_False.
Qed.

Lemma parse_exp_cons c s :
  parse_exp (String c s)
  = if bool_decide (c ∈ ["e"; "E"]%char) then
      match s with
      | String c' s' =>
          if decide (c' = "+"%char) then exp_digits false s'
          else if decide (c' = "-"%char) then exp_digits true s'
          else exp_digits false s
      | EmptyString => exp_digits false s
      end
    else Some (0%Z, String c s).
Proof.
  cbn [parse_exp]. case_bool_decide; [|done].
  destruct s as [|c' s']; [done|].
  destruct (decide (c' = "+"%char)) as [->|Hp]; [done|].
  destruct (decide (c' = "-"%char)) as [->|Hm]; [done|].
  destruct c' as [[] [] [] [] [] [] [] []]; try done.
Qed.

Lemma parse_exp_sound s e rest :
  parse_exp s = Some (e, rest) → ∃ et, s = et ++ rest ∧ exp_text et e.
Proof.
  destruct s as [|c s].
  { intros [= <- <-]. exists "". split; [done|constructor]. }
  rewrite parse_exp_cons. case_bool_decide as Hc.
  2:{ intros [= <- <-]. exists "". split; [done|constructor]. }
  destruct s as [|c' s'].
  - intros (d & E & Hd & ->)%exp_digits_sound. exists (String c d).
    rewrite string_app_cons, <- E. split; [done|]. by constructor.
  - case_decide as Hp; [|case_decide as Hm].
    + subst c'. intros (d & -> & Hd & ->)%exp_digits_sound.
      exists (String c (String "+" d)). split; [by norm_str|]. by apply exp_plus.
    + subst c'. intros (d & -> & Hd & ->)%exp_digits_sound.
      exists (String c (String "-" d)). split; [by norm_str|]. by apply exp_minus.
    + intros (d & E & Hd & ->)%exp_digits_sound. exists (String c d).
      rewrite string_app_cons, <- E. split; [done|]. by constructor.
Qed.

Lemma digit_not_sign c :
  is_Some (digit_value c) → c ≠ "+"%char ∧ c ≠ "-"%char.
Proof. intros [n Hn]. split; intros ->; by vm_compute in Hn. Qed.

Lemma parse_exp_complete et e rest :
  exp_text et e → no_digit_ahead rest →
  (et = "" → ∀ c x, rest = String c x → c ∉ ["e"; "E"]%char) →
  parse_exp (et ++ rest) = Some (e, rest).
Proof.
  intros [|c d Hc Hd|c d Hc Hd|c d Hc Hd] Hr He; norm_str.
  - destruct rest as [|c x]; [done|].
    rewrite parse_exp_cons, bool_decide_eq_false_2; [done|]. by eapply He.
  - rewrite parse_exp_cons, bool_decide_eq_true_2 by done.
    pose proof Hd as [Hne Hall]. destruct d as [|c' d']; [done|].
    apply all_digits_cons in Hall as [[Hp Hm]%digit_not_sign _].
    rewrite string_app_cons, !decide_False by done. rewrite <- string_app_cons.
    by apply (exp_digits_complete false).
  - rewrite parse_exp_cons, bool_decide_eq_true_2 by done.
    rewrite decide_True by done. by apply (exp_digits_complete false).
  - rewrite parse_exp_cons, bool_decide_eq_true_2 by done.
    rewrite decide_False, decide_True by done.
    by apply (exp_digits_complete true).
Qed.

Lemma parse_number_minus s : parse_number (String "-" s) = number_rest true s.
Proof. reflexivity. Qed.

Lemma parse_number_plain s :
  (∀ x, s ≠ String "-" x) → parse_number s = number_rest false s.
Proof.
  intros Hs. destruct s as [|c s]; [done|].
  destruct (decide (c = "-"%char)) as [->|Hc]; [by destruct (Hs s)|].
  destruct c as [[] [] [] [] [] [] [] []]; try done.
Qed.

Lemma number_rest_sound negative s1 v rest :
  number_rest negative s1 = Some (v, rest) →
  ∃ int ft frac et exp,
    s1 = int ++ ft ++ et ++ rest
    ∧ int_text int ∧ frac_text ft frac ∧ exp_text et exp
    ∧ v = number_of negative int frac exp.
Proof.
  destruct (span_digits_spec s1) as (Hd & E & _).
  destruct (span_digits s1) as [int r1]. cbn [fst snd] in *.
  destruct (is_int int) eqn:Hint; [|done].
  destruct (parse_frac r1) as [[frac r2]|] eqn:Hfrac; [|done].
  destruct (parse_exp r2) as [[exp r3]|] eqn:Hexp; [|done].
  intros [= <- <-].
  apply parse_frac_sound in Hfrac as (ft & -> & Hft).
  apply parse_exp_sound in Hexp as (et & -> & Het).
  exists int, ft, frac, et, exp. repeat split; try done.
  by apply int_text_is_int.
Qed.

Lemma parse_number_sound s v rest :
  parse_number s = Some (v, rest) → ∃ t, s = t ++ rest ∧ number_text t v.
Proof.
  destruct s as [|c s]; [done|].
  destruct (decide (c = "-"%char)) as [->|Hc].
  - rewrite parse_number_minus.
    intros (int & ft & frac & et & exp & -> & Hi & Hf & He & ->)%number_rest_sound.
    exists (String "-" (int ++ ft ++ et)). split; [by norm_str|].
    by constructor.
  - rewrite parse_number_plain by (by intros x [= ? ?]).
    intros (int & ft & frac & et & exp & -> & Hi & Hf & He & ->)%number_rest_sound.
    exists (int ++ ft ++ et). split; [by norm_str|]. by constructor.
Qed.

Lemma exp_text_stop et e rest :
  exp_text et e → number_stop rest →
  ∀ c x, et ++ rest = String c x → digit_value c = None ∧ c ≠ "."%char.
Proof.
  assert (He : ∀ c, c ∈ ["e"; "E"]%char → digit_value c = None ∧ c ≠ "."%char).
  { intros c [->|[->|[]%elem_of_nil]%elem_of_cons]%elem_of_cons; by split. }
  intros [|c d Hc Hd|c d Hc Hd|c d Hc Hd] Hr c' x; norm_str.
  - intros E. destruct (Hr c' x E) as (? & ? & _). done.
  - intros [= <- _]. by apply He.
  - intros [= <- _]. by apply He.
  - intros [= <- _]. by apply He.
Qed.

Lemma number_rest_complete negative int ft frac et exp rest :
  int_text int → frac_text ft frac → exp_text et exp → number_stop rest →
  number_rest negative (int ++ ft ++ et ++ rest)
  = Some (number_of negative int frac exp, rest).
Proof.
  intros [Hd Hi]%int_text_is_int Hf He Hr.
  pose proof (exp_text_stop et exp rest He Hr) as Hstop.
  assert (Hft : no_digit_ahead (ft ++ et ++ rest)).
  { destruct Hf; norm_str; [by intros c x [? _]%Hstop|by intros c x [= <- _]]. }
  rewrite span_digits_eq by done. rewrite Hi.
  rewrite (parse_frac_complete ft frac); [|done|by intros c x [? _]%Hstop|].
  2:{ intros _ x E. by destruct (Hstop _ _ E). }
  rewrite (parse_exp_complete et exp); [done|done|by intros c x (? & _)%Hr|].
  intros -> c x E. by destruct (Hr c x E) as (_ & _ & ?).
Qed.

Lemma number_text_head t v :
  number_text t v →
  ∃ c x, t = String c x ∧ (c = "-"%char ∨ is_Some (digit_value c)).
Proof.
  intros [int ft frac et exp (c & d & -> & Hc)%int_text_head _ _
         |int ft frac et exp _ _ _].
  - exists c, (d ++ ft ++ et). split; [by norm_str|by right].
  - eexists _, _. split; [done|by left].
Qed.

Lemma parse_number_complete t v rest :
  number_text t v → number_stop rest → parse_number (t ++ rest) = Some (v, rest).
Proof.
  intros [int ft frac et exp Hi Hf He|int ft frac et exp Hi Hf He] Hr.
  - rewrite parse_number_plain.
    + norm_str. by apply number_rest_complete.
    + apply int_text_head in Hi as (c & d & -> & Hc). norm_str.
      intros x [= -> _]. by apply digit_not_sign in Hc as [_ ?].
  - norm_str. rewrite parse_number_minus. by apply number_rest_complete.
Qed.

(** *** Strings *)

Lemma parse_string_body_cons c s :
  parse_string_body (String c s)
  = if decide (c = dquote) then Some ([], s)
    else if decide (c = backslash) then
      match s with
      | String e s' =>
          match unescape e with
          | Some u => prepend u <$> parse_string_body s'
          | None =>
              if decide (e = "u"%char) then
                match s' with
                | String h1 (String h2 (String h3 (String h4 s5))) =>
                    match hex4 h1 h2 h3 h4 with
                    | Some code => prepend code <$> parse_string_body s5
                    | None => None
                    end
                | _ => None
                end
              else None
          end
      | EmptyString => None
      end
    else if decide (N_of_ascii c < 32)%N then None
    else prepend (N_of_ascii c) <$> parse_string_body s.
Proof.
  cbn [parse_string_body].
  destruct (decide (c = dquote)) as [Hq|Hq]; [done|].
  destruct (decide (c = backslash)) as [Hb|Hb]; [|done].
  destruct s as [|e s']; [done|]. destruct (unescape e); [done|].
  destruct (decide (e = "u"%char)) as [->|He]; [done|].
  destruct e as [[] [] [] [] [] [] [] []]; try done; by destruct s'.
Qed.

Lemma parse_string_body_sound s us rest :
  parse_string_body s = Some (us, rest) →
  ∃ body, s = body ++ String dquote rest ∧ chars_text body us.
Proof.
  assert (∀ n s, (String.length s ≤ n)%nat → ∀ us rest,
    parse_string_body s = Some (us, rest) →
    ∃ body, s = body ++ String dquote rest ∧ chars_text body us) as H;
    [|by apply (H (String.length s))].
  clear. induction n as [|n IH]; intros [|c s] Hn us rest; cbn [String.length] in Hn;
    try done; try lia.
  assert (∀ u t, (String.length t ≤ n)%nat →
    prepend u <$> parse_string_body t = Some (us, rest) →
    ∃ body us', t = body ++ String dquote rest ∧ chars_text body us'
                ∧ us = u :: us') as Hrec.
  { intros u t Ht. destruct (parse_string_body t) as [[us' rest']|] eqn:E;
      [|done]. intros [= <- <-].
    destruct (IH t Ht _ _ E) as (body & -> & Hbody). by exists body, us'. }
  rewrite parse_string_body_cons.
  destruct (decide (c = dquote)) as [->|Hq].
  { intros [= <- <-]. exists "". split; [done|constructor]. }
  destruct (decide (c = backslash)) as [->|Hb].
  - destruct s as [|e s]; [done|]. cbn [String.length] in Hn.
    destruct (unescape e) as [u|] eqn:He.
    + intros (body & us' & -> & Hbody & ->)%Hrec; [|lia].
      exists (String backslash (String e body)). split; [by norm_str|].
      by constructor.
    + case_decide as Hu; [|done]. subst e.
      destruct s as [|h1 [|h2 [|h3 [|h4 s5]]]]; try done.
      cbn [String.length] in Hn.
      destruct (hex4 h1 h2 h3 h4) as [code|] eqn:Hh; [|done].
      intros (body & us' & -> & Hbody & ->)%Hrec; [|lia].
      exists (String backslash
                (String "u" (String h1 (String h2 (String h3 (String h4 body)))))).
      split; [by norm_str|]. by constructor.
  - case_decide as Hlow; [done|].
    intros (body & us' & -> & Hbody & ->)%Hrec; [|lia].
    exists (String c body). split; [by norm_str|]. constructor; try done. lia.
Qed.

Lemma parse_string_body_complete body us rest :
  chars_text body us →
  parse_string_body (body ++ String dquote rest) = Some (us, rest).
Proof.
  induction 1 as [|c t us Hq Hb Hlow _ IH|e u t us He _ IH
                 |h1 h2 h3 h4 code t us Hh _ IH];
    norm_str; rewrite parse_string_body_cons.
  - by rewrite decide_True.
  - rewrite !decide_False by (done || lia). by rewrite IH.
  - rewrite decide_False, decide_True by done. by rewrite He, IH.
  - rewrite decide_False, decide_True by done.
    change (unescape "u") with (@None N). rewrite decide_True by done.
    by rewrite Hh, IH.
Qed.

(** *** Values *)

#[local] Arguments strip_prefix : simpl never.
#[local] Arguments expect : simpl never.
#[local] Arguments skip_ws : simpl never.
#[local] Arguments parse_number : simpl never.
#[local] Arguments parse_string_body : simpl never.

Lemma parse_value_ws f w s : ws w → parse_value f (w ++ s) = parse_value f s.
Proof. intros Hw. destruct f; [done|]. simpl. by rewrite skip_ws_ws. Qed.

Lemma parse_value_object f x :
  parse_value (S f) (String "{" x)
  = match expect "}" (skip_ws x) with
    | Some rest' => Some (JObject [], rest')
    | None =>
        match parse_members f x [] with
        | Some (members, rest') => Some (JObject members, rest')
        | None => None
        end
    end.
Proof. reflexivity. Qed.

Lemma parse_value_array f x :
  parse_value (S f) (String "[" x)
  = match expect "]" (skip_ws x) with
    | Some rest' => Some (JArray [], rest')
    | None =>
        match parse_elements f x [] with
        | Some (xs, rest') => Some (JArray xs, rest')
        | None => None
        end
    end.
Proof. reflexivity. Qed.

Lemma parse_value_string f x :
  parse_value (S f) (String dquote x)
  = match parse_string_body x with
    | Some (str, rest') => Some (JString str, rest')
    | None => None
    end.
Proof. reflexivity. Qed.

Lemma parse_value_words f x :
  parse_value (S f) ("true" ++ x) = Some (JBool true, x)
  ∧ parse_value (S f) ("false" ++ x) = Some (JBool false, x)
  ∧ parse_value (S f) ("null" ++ x) = Some (JNull, x).
Proof. by repeat split. Qed.

Lemma number_head_cases c :
  c = "-"%char ∨ is_Some (digit_value c) →
  c ∈ ["-"; "0"; "1"; "2"; "3"; "4"; "5"; "6"; "7"; "8"; "9"]%char.
Proof. intros [->|?%digit_cases]; [left|by right]. Qed.

Lemma parse_value_number f c x :
  c = "-"%char ∨ is_Some (digit_value c) →
  parse_value (S f) (String c x) = parse_number (String c x).
Proof.
  intros Hin%number_head_cases.
  repeat (apply elem_of_cons in Hin as [->|Hin]; [reflexivity|]).
  by apply elem_of_nil in Hin.
Qed.

Lemma number_head_plain c :
  c = "-"%char ∨ is_Some (digit_value c) → is_ws c = false ∧ c ≠ "]"%char.
Proof.
  intros Hin%number_head_cases.
  repeat (apply elem_of_cons in Hin as [->|Hin]; [by split|]).
  by apply elem_of_nil in Hin.
Qed.

Lemma value_text_head t v :
  value_text t v →
  ∃ c x, t = String c x ∧ is_ws c = false ∧ c ≠ "]"%char.
Proof.
  destruct 1 as [| | |t n (c & x & -> & Hc)%number_text_head| | | | |];
    try (by eexists _, _; split; [reflexivity|]).
  exists c, x. split; [done|]. by apply number_head_plain.
Qed.

Lemma elements_text_head ts vs :
  elements_text ts vs →
  ∃ w c x, ts = w ++ String c x ∧ ws w ∧ is_ws c = false ∧ c ≠ "]"%char.
Proof.
  destruct 1 as [w1 t v w2 Hw (c & x & -> & Hc)%value_text_head _
                |w1 t v w2 ts vs Hw (c & x & -> & Hc)%value_text_head _ _];
    eexists w1, c, _; (split; [by norm_str|done]).
Qed.

Lemma members_text_head ts ms :
  members_text ts ms → ∃ w x, ts = w ++ String dquote x ∧ ws w.
Proof.
  destruct 1 as [w0 key k w1 w2 t v w3 Hw0 _ _ _ _ _
                |w0 key k w1 w2 t v w3 ts ms Hw0 _ _ _ _ _ _];
    exists w0; eexists; (split; [|done]); unfold quoted;
    rewrite string_app_cons; reflexivity.
Qed.

Lemma is_ws_stop c : is_ws c = true → digit_value c = None ∧ c ≠ "."%char ∧ c ∉ ["e"; "E"]%char.
Proof.
  unfold is_ws. intros Hin%bool_decide_eq_true.
  repeat (apply elem_of_cons in Hin as [->|Hin];
          [repeat split; [done|apply (bool_decide_unpack _); vm_compute; exact I]|]).
  by apply elem_of_nil in Hin.
Qed.

Lemma number_stop_ws w : ws w → number_stop w.
Proof. intros Hw c x ->. apply ws_cons in Hw as [Hc _]. by apply is_ws_stop. Qed.

Lemma number_stop_sep w c x :
  ws w → c ∈ [","; "]"; "}"]%char → number_stop (w ++ String c x).
Proof.
  intros Hw Hc. destruct w as [|c' w]; norm_str.
  - intros c'' x' [= <- <-].
    repeat (apply elem_of_cons in Hc as [->|Hc];
            [repeat split; [done|apply (bool_decide_unpack _); vm_compute; exact I]|]).
    by apply elem_of_nil in Hc.
  - intros c'' x' [= <- <-]. apply ws_cons in Hw as [Hc' _]. by apply is_ws_stop.
Qed.

(** What the parser reads is a text of the grammar, with the value it
    returns. *)
Lemma parse_sound f :
  (∀ s v rest,
     parse_value f s = Some (v, rest) →
     ∃ w t, ws w ∧ s = w ++ t ++ rest ∧ value_text t v)
  ∧ (∀ s acc xs rest,
       parse_elements f s acc = Some (xs, rest) →
       ∃ ts vs, s = ts ++ String "]" rest ∧ elements_text ts vs
                ∧ xs = (acc ++ vs)%list)
  ∧ (∀ s acc fields rest,
       parse_members f s acc = Some (fields, rest) →
       ∃ ts ms, s = ts ++ String "}" rest ∧ members_text ts ms
                ∧ fields = fold_left (fun acc e => json_set acc e.1 e.2) ms acc).
Proof.
  induction f as [|f (IHv & IHe & IHm)]; [done|].
  split; [|split].
  - intros s v rest H. simpl in H.
    destruct (skip_ws_split s) as (w & Hw & Es). exists w.
    destruct (expect "{" (skip_ws s)) as [r1|] eqn:E1.
    { apply expect_app in E1. rewrite E1 in Es.
      destruct (skip_ws_split r1) as (w' & Hw' & Er).
      destruct (expect "}" (skip_ws r1)) as [r2|] eqn:E2.
      - apply expect_app in E2. rewrite E2 in Er. injection H as <- <-.
        exists ("{" ++ w' ++ "}"). split; [done|].
        split; [rewrite Es, Er; by norm_str|by constructor].
      - destruct (parse_members f r1 []) as [[fields r2]|] eqn:E3; [|done].
        injection H as <- <-.
        apply IHm in E3 as (ts & ms & E3 & Hts & ->).
        exists ("{" ++ ts ++ "}"). split; [done|].
        split; [rewrite Es, E3; by norm_str|by apply value_object]. }
    destruct (expect "[" (skip_ws s)) as [r1|] eqn:E2.
    { apply expect_app in E2. rewrite E2 in Es.
      destruct (skip_ws_split r1) as (w' & Hw' & Er).
      destruct (expect "]" (skip_ws r1)) as [r2|] eqn:E3.
      - apply expect_app in E3. rewrite E3 in Er. injection H as <- <-.
        exists ("[" ++ w' ++ "]"). split; [done|].
        split; [rewrite Es, Er; by norm_str|by constructor].
      - destruct (parse_elements f r1 []) as [[xs r2]|] eqn:E4; [|done].
        injection H as <- <-.
        apply IHe in E4 as (ts & vs & E4 & Hts & ->).
        exists ("[" ++ ts ++ "]"). split; [done|].
        split; [rewrite Es, E4; by norm_str|by apply value_array]. }
    destruct (expect dquote (skip_ws s)) as [r1|] eqn:E3.
    { apply expect_app in E3. rewrite E3 in Es.
      destruct (parse_string_body r1) as [[str r2]|] eqn:E4; [|done].
      injection H as <- <-.
      apply parse_string_body_sound in E4 as (body & E4 & Hbody).
      exists (quoted body). split; [done|].
      split; [rewrite Es, E4; unfold quoted; by norm_str|by constructor]. }
    destruct (strip_prefix "true" (skip_ws s)) as [r1|] eqn:E4.
    { apply strip_prefix_app in E4. rewrite E4 in Es. injection H as <- <-.
      exists "true". split; [done|]. split; [done|constructor]. }
    destruct (strip_prefix "false" (skip_ws s)) as [r1|] eqn:E5.
    { apply strip_prefix_app in E5. rewrite E5 in Es. injection H as <- <-.
      exists "false". split; [done|]. split; [done|constructor]. }
    destruct (strip_prefix "null" (skip_ws s)) as [r1|] eqn:E6.
    { apply strip_prefix_app in E6. rewrite E6 in Es. injection H as <- <-.
      exists "null". split; [done|]. split; [done|constructor]. }
    apply parse_number_sound in H as (t & Et & Ht). rewrite Et in Es.
    exists t. split; [done|]. split; [done|by constructor].
  - intros s acc xs rest H. simpl in H.
    destruct (parse_value f s) as [[x r1]|] eqn:E1; [|done].
    apply IHv in E1 as (w & t & Hw & Es & Ht).
    destruct (skip_ws_split r1) as (w2 & Hw2 & Er).
    destruct (expect "," (skip_ws r1)) as [r2|] eqn:E2.
    { apply expect_app in E2. rewrite E2 in Er.
      apply IHe in H as (ts & vs & E3 & Hts & ->).
      exists (w ++ t ++ w2 ++ "," ++ ts), (x :: vs).
      split; [rewrite Es, Er, E3; by norm_str|].
      split; [by constructor|by rewrite <- app_assoc]. }
    destruct (expect "]" (skip_ws r1)) as [r2|] eqn:E3; [|done].
    apply expect_app in E3. rewrite E3 in Er. injection H as <- <-.
    exists (w ++ t ++ w2), [x].
    split; [rewrite Es, Er; by norm_str|]. split; [by constructor|done].
  - intros s acc fields rest H. simpl in H.
    destruct (skip_ws_split s) as (w0 & Hw0 & Es).
    destruct (expect dquote (skip_ws s)) as [r1|] eqn:E1; [|done].
    apply expect_app in E1. rewrite E1 in Es.
    destruct (parse_string_body r1) as [[key r2]|] eqn:E2; [|done].
    apply parse_string_body_sound in E2 as (body & E2 & Hbody).
    destruct (skip_ws_split r2) as (w1 & Hw1 & Er2).
    destruct (expect ":" (skip_ws r2)) as [r3|] eqn:E3; [|done].
    apply expect_app in E3. rewrite E3 in Er2.
    destruct (parse_value f r3) as [[x r4]|] eqn:E4; [|done].
    apply IHv in E4 as (w2 & t & Hw2 & Er3 & Ht).
    destruct (skip_ws_split r4) as (w3 & Hw3 & Er4).
    destruct (expect "," (skip_ws r4)) as [r5|] eqn:E5.
    { apply expect_app in E5. rewrite E5 in Er4.
      apply IHm in H as (ts & ms & E6 & Hts & ->).
      exists (w0 ++ quoted body ++ w1 ++ ":" ++ w2 ++ t ++ w3 ++ "," ++ ts),
             ((key, x) :: ms).
      split; [rewrite Es, E2, Er2, Er3, Er4, E6; unfold quoted; by norm_str|].
      split; [by constructor|done]. }
    destruct (expect "}" (skip_ws r4)) as [r5|] eqn:E6; [|done].
    apply expect_app in E6. rewrite E6 in Er4. injection H as <- <-.
    exists (w0 ++ quoted body ++ w1 ++ ":" ++ w2 ++ t ++ w3), [(key, x)].
    split; [rewrite Es, E2, Er2, Er3, Er4; unfold quoted; by norm_str|].
    split; [by constructor|done].
Qed.

(** A text of the grammar is read by the parser, to the value of the
    grammar. *)
Lemma parse_complete :
  (∀ t v, value_text t v →
     ∀ rest, number_stop rest →
       ∃ f, parse_value f (t ++ rest) = Some (v, rest))
  ∧ (∀ ts vs, elements_text ts vs →
       ∀ acc rest,
         ∃ f, parse_elements f (ts ++ String "]" rest) acc
              = Some ((acc ++ vs)%list, rest))
  ∧ (∀ ts ms, members_text ts ms →
       ∀ acc rest,
         ∃ f, parse_members f (ts ++ String "}" rest) acc
              = Some (fold_left (fun acc e => json_set acc e.1 e.2) ms acc, rest)).
Proof.
  apply json_text_mutind.
  - intros rest _. exists 1%nat. apply parse_value_words.
  - intros rest _. exists 1%nat. apply parse_value_words.
  - intros rest _. exists 1%nat. apply parse_value_words.
  - intros t n Hn rest Hr. exists 1%nat.
    destruct (number_text_head t n Hn) as (c & x & E & Hc).
    rewrite E at 1. rewrite string_app_cons, parse_value_number by done.
    rewrite <- string_app_cons, <- E. by apply parse_number_complete.
  - intros body us Hbody rest _. exists 1%nat. unfold quoted. norm_str.
    rewrite parse_value_string. by rewrite (parse_string_body_complete body us).
  - intros w Hw rest _. exists 1%nat. norm_str.
    rewrite parse_value_array, skip_ws_ws by done.
    by rewrite skip_ws_stop, expect_same.
  - intros ts xs Hts IH rest _. destruct (IH [] rest) as [f Hf].
    exists (S f). norm_str. rewrite parse_value_array.
    assert (expect "]" (skip_ws (ts ++ String "]" rest)) = None) as ->.
    { destruct (elements_text_head ts xs Hts) as (w & c & x & -> & Hw & Hc & Hne).
      norm_str. rewrite skip_ws_ws by done.
      by rewrite skip_ws_stop, expect_other. }
    by rewrite Hf.
  - intros w Hw rest _. exists 1%nat. norm_str.
    rewrite parse_value_object, skip_ws_ws by done.
    by rewrite skip_ws_stop, expect_same.
  - intros ts ms Hts IH rest _. destruct (IH [] rest) as [f Hf].
    exists (S f). norm_str. rewrite parse_value_object.
    assert (expect "}" (skip_ws (ts ++ String "}" rest)) = None) as ->.
    { destruct (members_text_head ts ms Hts) as (w & x & -> & Hw).
      norm_str. rewrite skip_ws_ws by done.
      by rewrite skip_ws_stop, expect_other. }
    by rewrite Hf.
  - intros w1 t v w2 Hw1 Ht IHt Hw2 acc rest.
    destruct (IHt (w2 ++ String "]" rest)) as [f Hf].
    { apply number_stop_sep; [done|]. by right; left. }
    exists (S f). norm_str. simpl.
    rewrite parse_value_ws, Hf by done. rewrite skip_ws_ws by done.
    by rewrite skip_ws_stop, expect_other, expect_same.
  - intros w1 t v w2 ts vs Hw1 Ht IHt Hw2 Hts IHts acc rest.
    destruct (IHt (w2 ++ String "," (ts ++ String "]" rest))) as [f1 Hf1].
    { apply number_stop_sep; [done|]. by left. }
    apply (proj1 (parse_fuel f1)) in Hf1 as [_ Hf1].
    destruct (IHts (acc ++ [v])%list rest) as [f2 Hf2].
    apply (proj1 (proj2 (parse_fuel f2))) in Hf2 as [_ Hf2].
    exists (S (2 * String.length (t ++ w2 ++ String "," (ts ++ String "]" rest))
               + (2 * String.length (ts ++ String "]" rest) + 1)))%nat.
    norm_str. simpl.
    rewrite parse_value_ws, Hf1 by (done || lia). rewrite skip_ws_ws by done.
    rewrite skip_ws_stop, expect_same by done.
    rewrite Hf2 by lia. by rewrite <- app_assoc.
  - intros w0 key k w1 w2 t v w3 Hw0 Hk Hw1 Hw2 Ht IHt Hw3 acc rest.
    destruct (IHt (w3 ++ String "}" rest)) as [f Hf].
    { apply number_stop_sep; [done|]. by right; right; left. }
    exists (S f). unfold quoted. norm_str. simpl.
    rewrite skip_ws_ws by done. rewrite skip_ws_stop, expect_same by done.
    rewrite (parse_string_body_complete key k) by done.
    rewrite skip_ws_ws by done. rewrite skip_ws_stop, expect_same by done.
    rewrite parse_value_ws, Hf by done. rewrite skip_ws_ws by done.
    by rewrite skip_ws_stop, expect_other, expect_same.
  - intros w0 key k w1 w2 t v w3 ts ms Hw0 Hk Hw1 Hw2 Ht IHt Hw3 Hts IHts acc rest.
    destruct (IHt (w3 ++ String "," (ts ++ String "}" rest))) as [f1 Hf1].
    { apply number_stop_sep; [done|]. by left. }
    apply (proj1 (parse_fuel f1)) in Hf1 as [_ Hf1].
    destruct (IHts (json_set acc k v) rest) as [f2 Hf2].
    apply (proj2 (proj2 (parse_fuel f2))) in Hf2 as [_ Hf2].
    exists (S (2 * String.length (t ++ w3 ++ String "," (ts ++ String "}" rest))
               + (2 * String.length (ts ++ String "}" rest) + 1)))%nat.
    unfold quoted. norm_str. simpl.
    rewrite skip_ws_ws by done. rewrite skip_ws_stop, expect_same by done.
    rewrite (parse_string_body_complete key k) by done.
    rewrite skip_ws_ws by done. rewrite skip_ws_stop, expect_same by done.
    rewrite parse_value_ws, Hf1 by (done || lia). rewrite skip_ws_ws by done.
    rewrite skip_ws_stop, expect_same by done.
    by rewrite Hf2 by lia.
Qed.

(** [JSON.parse] returns a value exactly on the texts of the grammar, and
    the value is the one the grammar gives the text. *)
Theorem JSON_parse_sound text v : JSON_parse text = Some v → json_text text v.
Proof.
  unfold JSON_parse.
  destruct (parse_value _ text) as [[v' rest]|] eqn:E; [|done].
  case_decide as Hrest; [|done]. intros [= ->].
  apply parse_sound in E as (w & t & Hw & -> & Ht).
  exists w, t, rest. split; [done|]. split; [done|]. split; [done|].
  by apply ws_skip_ws.
Qed.

Theorem JSON_parse_complete text v : json_text text v → JSON_parse text = Some v.
Proof.
  intros (w1 & t & w2 & -> & Hw1 & Ht & Hw2).
  destruct (proj1 parse_complete t v Ht w2 (number_stop_ws w2 Hw2)) as [f Hf].
  apply (JSON_parse_fuel f _ _ w2).
  - by rewrite parse_value_ws.
  - by apply skip_ws_empty.
Qed.

Lemma JSON_parse_refuses text : JSON_parse text = None ↔ ∀ v, ¬ json_text text v.
Proof.
  split.
  - intros Hnone v Hv%JSON_parse_complete. by rewrite Hnone in Hv.
  - intros H. destruct (JSON_parse text) as [v|] eqn:E; [|done].
    by destruct (H v (JSON_parse_sound _ _ E)).
Qed.

Lemma json_text_functional text v1 v2 :
  json_text text v1 → json_text text v2 → v1 = v2.
Proof. intros H1%JSON_parse_complete H2%JSON_parse_complete. congruence. Qed.

End JsonGrammarFacts.

(** ** The Structured Output Wrapper *)

Module StructuredOutputFacts.
Import Eff JsonParse JsonGrammar StructuredOutput.
Import JsonGrammarFacts.

(** [conforms] decides [Conforms]. *)
Lemma conforms_Conforms schema v : conforms schema v = true ↔ Conforms schema v.
Proof.
  revert v. induction schema as [| | |item IH|shape IH] using Schema_ind;
    intros v.
  - destruct v; split; try done; try constructor; inversion 1.
  - destruct v; split; try done; try constructor; inversion 1.
  - destruct v; split; try done; try constructor; inversion 1.
  - destruct v as [| | | |xs|]; try (split; [done|inversion 1]).
    cbn [conforms]. split.
    + intros H. constructor. induction xs as [|x xs IHxs]; [constructor|].
      cbn [forallb] in H. apply andb_true_iff in H as [Hx Hxs].
      constructor; [by apply IH|by apply IHxs].
    + inversion 1 as [| | |item' xs' Hxs|]; subst. clear - IH Hxs.
      induction Hxs as [|x xs Hx _ IHxs]; [done|].
      cbn [forallb]. apply andb_true_iff. split; [by apply IH|done].
  - destruct v as [| | | | |members]; try (split; [done|inversion 1]).
    cbn [conforms]. split.
    + intros H. constructor. induction IH as [|[k field] shape IHf _ IHs];
        [constructor|].
      apply andb_true_iff in H as [Hf Hs]. constructor; [|by apply IHs].
      cbn [fst snd] in *. destruct (json_get members (units k)) as [x|]; [|done].
      exists x. split; [done|]. by apply IHf.
    + inversion 1 as [| | | |shape' members' Hshape]; subst. clear H.
      induction IH as [|[k field] shape IHf _ IHs]; [done|].
      apply Forall_cons in Hshape as [(x & Hx & Hc) Hshape]. cbn [fst snd] in *.
      apply andb_true_iff. split; [|by apply IHs].
      rewrite Hx. by apply IHf.
Qed.

Lemma conforms_not_Conforms schema v :
  conforms schema v = false ↔ ¬ Conforms schema v.
Proof.
  rewrite <- conforms_Conforms. by destruct (conforms schema v).
Qed.

(** A value that lacks a field of an object schema does not conform to
    it. *)
Lemma conforms_missing_field shape members k field :
  (k, field) ∈ shape →
  json_get members (units k) = None →
  conforms (SObject shape) (JObject members) = false.
Proof.
  intros Hin Hnone. cbn [conforms].
  induction shape as [|[k' field'] shape IH]; [by apply elem_of_nil in Hin|].
  apply elem_of_cons in Hin as [[= <- <-]|Hin].
  - by rewrite Hnone.
  - rewrite IH by done. apply andb_false_r.
Qed.

Section WithModel.
Context {World Input : Type}.
Variable llm : Instruction → Input → M World AIMessage.

Lemma withStructuredOutput_run schema config input w raw w' :
  llm (instruction (method_of config) (name config) schema) input w
  = (inr raw, w') →
  withStructuredOutput llm schema config input w
  = (match parse_output schema (method_of config) raw with
     | inr v => inr (shape_result (default false (includeRaw config)) raw v)
     | inl e => inl e
     end, w').
Proof.
  intros E. unfold withStructuredOutput, bind, lift, ret. rewrite E.
  by destruct (parse_output _ _ _).
Qed.

Lemma withStructuredOutput_throws schema config input w e w' :
  llm (instruction (method_of config) (name config) schema) input w
  = (inl e, w') →
  withStructuredOutput llm schema config input w = (inl e, w').
Proof. intros E. unfold withStructuredOutput, bind. by rewrite E. Qed.

(** C5: whatever the method, the default included: when the text the
    wrapper reads in the output of the wrapped model (the arguments of its
    structured call, or its text in JSON mode) is a JSON text for
    [{test: true, nested: {somethingelse: "somevalue"}}], the wrapper with
    the schema of the tests returns exactly that value without
    [includeRaw], and that value next to the model's output with it. The
    text of the tests and the text of the claim are such texts. For every
    schema, options and input the two settings of [includeRaw] run the same
    extraction and validation: they fail with the same error or hold the
    same parsed value, and leave the same world. *)
Theorem structured_output_round_trip :
  (∀ config input w raw w' text,
     llm (instruction (method_of config) (name config) test_schema) input w
     = (inr raw, w') →
     payload (method_of config) raw = Some text →
     json_text text test_value →
     withStructuredOutput llm test_schema (with_includeRaw false config) input w
     = (inr (Parsed test_value), w')
     ∧ withStructuredOutput llm test_schema (with_includeRaw true config) input w
       = (inr (ParsedWithRaw raw test_value), w')
     ∧ (includeRaw config = None →
        withStructuredOutput llm test_schema config input w
        = (inr (Parsed test_value), w')))
  ∧ json_text test_text test_value
  ∧ json_text claim_text test_value
  ∧ (∀ schema config input w,
       ∃ (common : Exn + AIMessage * Json) w',
         ∀ b, withStructuredOutput llm schema (with_includeRaw b config) input w
              = (match common with
                 | inr (raw, v) => inr (shape_result b raw v)
                 | inl e => inl e
                 end, w')).
Proof.
  split; [|split; [|split]].
  - intros config input w raw w' text E Hpayload Hparse%JSON_parse_complete.
    assert (Hout : parse_output test_schema (method_of config) raw
                   = inr test_value).
    { unfold parse_output, extract. by rewrite Hpayload, Hparse. }
    rewrite !(withStructuredOutput_run _ (with_includeRaw _ config) _ _ raw w')
      by exact E.
    rewrite (withStructuredOutput_run _ config _ _ raw w') by exact E.
    change (method_of (with_includeRaw _ config)) with (method_of config).
    rewrite Hout. split; [done|]. split; [done|]. by intros ->.
  - apply JSON_parse_sound. by vm_compute.
  - apply JSON_parse_sound. by vm_compute.
  - intros schema config input w.
    destruct (llm (instruction (method_of config) (name config) schema) input w)
      as [[e|raw] w'] eqn:E.
    + exists (inl e), w'. intros b. by apply withStructuredOutput_throws.
    + exists (match parse_output schema (method_of config) raw with
              | inr v => inr (raw, v)
              | inl e => inl e
              end), w'.
      intros b.
      rewrite (withStructuredOutput_run _ (with_includeRaw b config) _ _ raw w')
        by exact E.
      change (method_of (with_includeRaw b config)) with (method_of config).
      by destruct (parse_output _ _ _).
Qed.

(** C6: whatever the method, the default included. When the text the
    wrapper reads in the output of the wrapped model is no text of the JSON
    grammar, or when there is no such text in the output, the wrapper
    throws a structured-output parsing error; so it does when the text is
    a JSON text for a value that does not conform to the schema, as a
    value does that lacks a field of the schema. A result the wrapper
    returns holds exactly the value the grammar gives the text, and that
    value conforms to the schema. *)
Theorem schema_violation_raises schema config input w raw w' :
  llm (instruction (method_of config) (name config) schema) input w
  = (inr raw, w') →
  (∀ text,
     payload (method_of config) raw = Some text →
     (∀ v, ¬ json_text text v) →
     ∃ msg, withStructuredOutput llm schema config input w
            = (inl (StructuredOutputParsingError msg), w'))
  ∧ (payload (method_of config) raw = None →
     ∃ msg, withStructuredOutput llm schema config input w
            = (inl (StructuredOutputParsingError msg), w'))
  ∧ (∀ text v,
       payload (method_of config) raw = Some text →
       json_text text v →
       ¬ Conforms schema v →
       ∃ msg, withStructuredOutput llm schema config input w
              = (inl (StructuredOutputParsingError msg), w'))
  ∧ (∀ shape members k field,
       schema = SObject shape → (k, field) ∈ shape →
       json_get members (units k) = None →
       ¬ Conforms schema (JObject members))
  ∧ (∀ result w'',
       withStructuredOutput llm schema config input w = (inr result, w'') →
       w'' = w'
       ∧ ∃ text,
           payload (method_of config) raw = Some text
           ∧ json_text text (parsed_of result)
           ∧ Conforms schema (parsed_of result)).
Proof.
  intros E. rewrite (withStructuredOutput_run _ _ _ _ _ _ E).
  unfold parse_output, extract, validate. split; [|split; [|split; [|split]]].
  - intros text -> Hnone%JSON_parse_refuses. rewrite Hnone. by eauto.
  - intros ->. by eauto.
  - intros text v -> ->%JSON_parse_complete ->%conforms_not_Conforms. by eauto.
  - intros shape members k field -> Hin Hnone.
    apply conforms_not_Conforms. by eapply conforms_missing_field.
  - intros result w''. destruct (payload _ raw) as [text|]; [|done].
    destruct (JSON_parse text) as [v|] eqn:Hp; [|done].
    destruct (conforms schema v) eqn:Hv; [|done].
    intros [= <- <-]. split; [done|]. exists text.
    apply JSON_parse_sound in Hp. apply conforms_Conforms in Hv.
    by destruct (default false (includeRaw config)).
Qed.

End WithModel.

Lemma structured_output_round_trip_witness :
  withStructuredOutput (FakeListChatModel [test_text]) test_schema
    {| name := None; method := None; includeRaw := None |}
    "Hello there!" 0
  = (inr (Parsed test_value), 1)
  ∧ withStructuredOutput (FakeListChatModel [test_text]) test_schema
      {| name := None; method := None; includeRaw := Some false |}
      "Hello there!" 0
    = (inr (Parsed test_value), 1)
  ∧ withStructuredOutput (FakeListChatModel [test_text]) test_schema
      {| name := None; method := None; includeRaw := Some true |}
      "Hello there!" 0
    = (inr (ParsedWithRaw
              {| content := test_text;
                 tool_calls := [{| tool_name := "extract";
                                   arguments := test_text |}] |}
              test_value), 1).
Proof.
  destruct (proj1 (structured_output_round_trip (FakeListChatModel [test_text]))
              {| name := None; method := None; includeRaw := None |}
              "Hello there!" 0
              {| content := test_text;
                 tool_calls := [{| tool_name := "extract";
                                   arguments := test_text |}] |}
              1 test_text) as (Hfalse & Htrue & Hdefault);
    [reflexivity|reflexivity|apply JSON_parse_sound; by vm_compute|].
  split; [exact (Hdefault eq_refl)|]. split; [exact Hfalse|exact Htrue].
Defined.

Lemma schema_violation_raises_witness :
  ∃ msg,
    withStructuredOutput
      (FakeListChatModel [dq "{'test': true, 'nested': {}}"]) test_schema
      {| name := None; method := None; includeRaw := Some false |}
      "Hello there!" 0
    = (inl (StructuredOutputParsingError msg), 1).
Proof.
  apply (proj1 (proj2 (proj2 (schema_violation_raises
    (FakeListChatModel [dq "{'test': true, 'nested': {}}"]) test_schema
    {| name := None; method := None; includeRaw := Some false |}
    "Hello there!" 0
    {| content := dq "{'test': true, 'nested': {}}";
       tool_calls := [{| tool_name := "extract";
                         arguments := dq "{'test': true, 'nested': {}}" |}] |}
    1 eq_refl)))
    (dq "{'test': true, 'nested': {}}")
    (JObject [(units "test", JBool true); (units "nested", JObject [])]));
    [reflexivity|apply JSON_parse_sound; by vm_compute
    |apply conforms_not_Conforms; by vm_compute].
Defined.

(** The tests' model and options, in both modes, on a text that breaks
    off, on a fraction and on a field of another type. *)
Example structured_output_examples :
  fst (withStructuredOutput
         (FakeListChatModel [dq "{'test': true, 'nested': "]) test_schema
         {| name := None; method := None; includeRaw := Some true |}
         "Hello there!" 0)
  = inl (StructuredOutputParsingError "Output is not valid JSON")
  ∧ fst (withStructuredOutput
           (FakeListChatModel [dq "{'test': true, 'nested': "]) test_schema
           {| name := None; method := Some jsonMode; includeRaw := None |}
           "Hello there!" 0)
    = inl (StructuredOutputParsingError "Output is not valid JSON")
  ∧ fst (withStructuredOutput (FakeListChatModel [dq "{'x': 0.5, 'y': 1e3}"])
           (SObject [("x", SNumber); ("y", SNumber)])
           {| name := None; method := Some jsonMode; includeRaw := None |}
           "Hello there!" 0)
    = inr (Parsed (JObject [(units "x", JNumber false 5 (-1));
                            (units "y", JNumber false 1 3)]))
  ∧ fst (withStructuredOutput
           (FakeListChatModel
              [dq "{'test': 'true', 'nested': {'somethingelse': 'somevalue'}}"])
           test_schema
           {| name := None; method := None; includeRaw := None |}
           "Hello there!" 0)
    = inl (StructuredOutputParsingError "Output does not match the schema").
Proof. vm_compute. repeat split. Qed.

End StructuredOutputFacts.

(** ** Context sizes and the effects of a token count *)

Module TokenTraceFacts.
Import Eff Tokens TokenTrace.

(** X1: the name normalisation is idempotent, so the context size of a
    model is the context size of its normalised name. *)
Theorem getModelNameForTiktoken_idempotent modelName :
  getModelNameForTiktoken (getModelNameForTiktoken modelName)
  = getModelNameForTiktoken modelName
  ∧ getModelContextSize (getModelNameForTiktoken modelName)
    = getModelContextSize modelName.
Proof.
  assert (H : getModelNameForTiktoken (getModelNameForTiktoken modelName)
              = getModelNameForTiktoken modelName).
  { unfold getModelNameForTiktoken.
    destruct (startsWith modelName "gpt-3.5-turbo-16k") eqn:E1; [reflexivity|].
    destruct (startsWith modelName "gpt-3.5-turbo-") eqn:E2; [reflexivity|].
    destruct (startsWith modelName "gpt-4-32k") eqn:E3; [reflexivity|].
    destruct (startsWith modelName "gpt-4-") eqn:E4; [reflexivity|].
    by rewrite E1, E2, E3, E4. }
  split; [done|]. unfold getModelContextSize. by rewrite H.
Qed.

Lemma startsWith_app p suffix : startsWith (p ++ suffix) p = true.
Proof.
  unfold startsWith. induction p as [|c p IH].
  - by destruct suffix.
  - rewrite JsFacts.string_app_cons. simpl. by destruct (ascii_dec c c).
Qed.

(** X2: every context size lies between 2048 and 32768 tokens, and the
    long-context families are recognised first: a name that starts with
    [gpt-3.5-turbo-16k] or with [gpt-4-32k] gets the long window although
    it also starts with the prefix of the short family. *)
Theorem getModelContextSize_range modelName suffix :
  (2048 ≤ getModelContextSize modelName ≤ 32768)%Z
  ∧ getModelContextSize ("gpt-3.5-turbo-16k" ++ suffix) = 16384%Z
  ∧ startsWith ("gpt-3.5-turbo-16k" ++ suffix) "gpt-3.5-turbo-" = true
  ∧ getModelContextSize ("gpt-4-32k" ++ suffix) = 32768%Z
  ∧ startsWith ("gpt-4-32k" ++ suffix) "gpt-4-" = true.
Proof.
  split; [|split; [|split; [|split]]].
  - unfold getModelContextSize. repeat case_decide; lia.
  - unfold getModelContextSize, getModelNameForTiktoken.
    by rewrite startsWith_app.
  - apply (startsWith_app "gpt-3.5-turbo-" ("16k" ++ suffix)).
  - unfold getModelContextSize, getModelNameForTiktoken.
    rewrite startsWith_app.
    by destruct (startsWith ("gpt-4-32k" ++ suffix) "gpt-3.5-turbo-16k") eqn:E.
  - apply (startsWith_app "gpt-4-" ("32k" ++ suffix)).
Qed.

Local Open Scope list_scope.

Ltac run_trace :=
  unfold getNumTokens, calculateMaxTokens, encodingForModel, encode_with,
    getModelNameForTiktoken_cast, console_warn, record_call,
    try_catch, bind, ret, throw, get, modify, lift;
  cbn [this _encoding modelName console tiktoken_calls set_encoding fst snd].

Section WithTiktoken.
Variable encodingForModel_impl : string → Exn + Tiktoken.

Abbreviation available := (available_encoding encodingForModel_impl).

(** The world [getNumTokens] leaves on a string, field by field. *)
Lemma getNumTokens_world text w :
  getNumTokens encodingForModel_impl (ContentString text) w
  = (inr (default (approximate text) (tokenizer_count (available (this w)) text)),
     {| this := {| modelName := modelName (this w);
                   _encoding := available (this w) |};
        console := console w ++ warnings (available (this w)) text;
        tiktoken_calls :=
          tiktoken_calls w ++ fetch_calls (this w)
            ++ encode_calls (available (this w)) text |}).
Proof.
  destruct w as [[name enc] out calls]. run_trace.
  unfold available_encoding, warnings, tokenizer_count, fetch_calls, encode_calls.
  cbn [_encoding modelName].
  destruct enc as [enc|].
  - cbn. destruct (encode enc text); cbn; by rewrite ?app_nil_r.
  - destruct name as [v|].
    + destruct v; cbn; rewrite ?app_nil_r; try done.
      destruct (encodingForModel_impl _) as [e|enc]; cbn; [done|].
      destruct (encode enc _); cbn; by rewrite <- ?app_assoc, ?app_nil_r.
    + cbn. destruct (encodingForModel_impl _) as [e|enc]; cbn; [done|].
      destruct (encode enc _); cbn; by rewrite <- ?app_assoc, ?app_nil_r.
Qed.

(** The world [calculateMaxTokens] leaves, field by field. *)
Lemma calculateMaxTokens_world prompt model w :
  calculateMaxTokens encodingForModel_impl prompt model w
  = (inr (getModelContextSize model
          - Z.of_nat (default (approximate prompt)
                        (tokenizer_count (fetched encodingForModel_impl model) prompt)))%Z,
     {| this := this w;
        console :=
          console w ++ warnings (fetched encodingForModel_impl model) prompt;
        tiktoken_calls :=
          tiktoken_calls w
            ++ CallEncodingForModel (getModelNameForTiktoken model)
               :: encode_calls (fetched encodingForModel_impl model) prompt |}).
Proof.
  destruct w as [i out calls]. run_trace.
  unfold fetched, warnings, tokenizer_count, encode_calls.
  destruct (encodingForModel_impl _) as [e|enc]; cbn; [done|].
  destruct (encode enc _); cbn; by rewrite <- ?app_assoc, ?app_nil_r.
Qed.

(** X3: [calculateMaxTokens] returns the context size less the count, with
    no clamping: the result never exceeds the context size, and when the
    count falls back to the character heuristic it is negative exactly for
    prompts of more than four characters per token of the window. *)
Theorem calculateMaxTokens_not_clamped prompt model w :
  ∃ r w',
    calculateMaxTokens encodingForModel_impl prompt model w = (inr r, w')
    ∧ (r ≤ getModelContextSize model)%Z
    ∧ (tokenizer_count (fetched encodingForModel_impl model) prompt = None →
       (r < 0 ↔ 4 * getModelContextSize model < Z.of_nat (String.length prompt))%Z).
Proof.
  eexists _, _. split; [apply calculateMaxTokens_world|]. split; [lia|].
  intros ->. cbn [default]. unfold approximate.
  pose proof (TokensFacts.Math_ceil_div_spec (String.length prompt)). lia.
Qed.

(** X4: [calculateMaxTokens] keeps no encoder: every call asks the
    tokenizer library for the encoder of the normalised model name, leaves
    the model object as it was, and prints the warning exactly when the
    count falls back. *)
Theorem calculateMaxTokens_fetches_every_time prompt model w :
  let w' := snd (calculateMaxTokens encodingForModel_impl prompt model w) in
  this w' = this w
  ∧ (∃ rest,
       tiktoken_calls w'
       = tiktoken_calls w
           ++ CallEncodingForModel (getModelNameForTiktoken model) :: rest)
  ∧ console w'
    = console w
        ++ match tokenizer_count (fetched encodingForModel_impl model) prompt with
           | Some _ => []
           | None => [fallback_warning]
           end.
Proof.
  rewrite calculateMaxTokens_world. cbn [snd this tiktoken_calls console].
  split; [done|]. split; [by eexists|].
  unfold warnings. by destruct (tokenizer_count _ _).
Qed.

(** X5: [getNumTokens] fetches the encoder at most once: when an encoder
    can be had, a call leaves it in [_encoding], and the next call asks the
    tokenizer library for nothing but the encoding of its text. *)
Theorem getNumTokens_fetches_once text1 text2 w :
  is_Some (available (this w)) →
  let w1 := snd (getNumTokens encodingForModel_impl (ContentString text1) w) in
  let w2 := snd (getNumTokens encodingForModel_impl (ContentString text2) w1) in
  _encoding (this w1) = available (this w)
  ∧ _encoding (this w2) = _encoding (this w1)
  ∧ tiktoken_calls w2 = tiktoken_calls w1 ++ [CallEncode text2].
Proof.
  intros [enc Henc]. cbn zeta. rewrite !getNumTokens_world.
  cbn [snd this _encoding modelName tiktoken_calls].
  split; [done|]. rewrite Henc.
  unfold available_encoding, fetch_calls. cbn [_encoding]. done.
Qed.

(** X6: a failed fetch is not remembered. When no encoder can be had,
    each call returns the character heuristic, prints one warning, and
    asks the tokenizer library again. *)
Theorem getNumTokens_retries_fetch text1 text2 w :
  available (this w) = None →
  let r1 := getNumTokens encodingForModel_impl (ContentString text1) w in
  let r2 := getNumTokens encodingForModel_impl (ContentString text2) (snd r1) in
  fst r1 = inr (approximate text1)
  ∧ fst r2 = inr (approximate text2)
  ∧ console (snd r2) = console w ++ [fallback_warning; fallback_warning]
  ∧ tiktoken_calls (snd r2)
    = tiktoken_calls w ++ fetch_calls (this w) ++ fetch_calls (this w).
Proof.
  intros Hnone. cbn zeta. rewrite (getNumTokens_world text1 w), Hnone.
  cbn [fst snd]. rewrite getNumTokens_world.
  cbn [fst snd this modelName _encoding console tiktoken_calls].
  assert (Henc : _encoding (this w) = None).
  { unfold available_encoding in Hnone. by destruct (_encoding (this w)). }
  assert (Hsame : available {| modelName := modelName (this w); _encoding := None |}
                  = None).
  { unfold available_encoding in Hnone |- *. cbn [_encoding modelName].
    by rewrite Henc in Hnone. }
  rewrite Hsame. unfold warnings, encode_calls, fetch_calls.
  cbn [tokenizer_count default _encoding modelName]. rewrite Henc.
  rewrite !app_nil_r, <- !app_assoc. done.
Qed.

(** X7: the warning is printed exactly when the count falls back: a call
    on a string either returns the tokenizer's count and prints nothing,
    or returns the character heuristic and prints the warning once. *)
Theorem getNumTokens_warns_on_fallback text w :
  ∃ n w',
    getNumTokens encodingForModel_impl (ContentString text) w = (inr n, w')
    ∧ ((tokenizer_count (available (this w)) text = Some n
        ∧ console w' = console w)
       ∨ (tokenizer_count (available (this w)) text = None
          ∧ n = approximate text
          ∧ console w' = console w ++ [fallback_warning])).
Proof.
  eexists _, _. split; [apply getNumTokens_world|].
  cbn [console]. unfold warnings.
  destruct (tokenizer_count _ _) as [n|]; cbn [default].
  - left. by rewrite app_nil_r.
  - by right.
Qed.

End WithTiktoken.

(** X8: once a call has had an encoder, cached or fetched, counting is
    stable under repetition and owes nothing more to the tokenizer
    library's fetch: whatever the fetch would answer at the later calls, a
    call on a text returns the count of that encoder (the character
    heuristic when its encoding throws), and a repeated call returns the
    same. *)
Theorem getNumTokens_repeatable
    (fetch0 fetch1 fetch2 : string → Exn + Tiktoken) text other w enc :
  available_encoding fetch0 (this w) = Some enc →
  let w1 := snd (getNumTokens fetch0 (ContentString other) w) in
  let r1 := getNumTokens fetch1 (ContentString text) w1 in
  let r2 := getNumTokens fetch2 (ContentString text) (snd r1) in
  fst r1 = inr (default (approximate text) (tokenizer_count (Some enc) text))
  ∧ fst r2 = fst r1.
Proof.
  intros Henc. cbn zeta. rewrite !getNumTokens_world.
  cbn [fst snd this _encoding modelName]. rewrite Henc.
  unfold available_encoding. cbn [_encoding]. done.
Qed.

Lemma getNumTokens_fetches_once_witness :
  tiktoken_calls
    (snd (getNumTokens char_tiktoken (ContentString "there!")
            (snd (getNumTokens char_tiktoken (ContentString "Hello")
                    (fresh (Some (VStr "gpt-4-0613")))))))
  = [CallEncodingForModel "gpt-4"; CallEncode "Hello"; CallEncode "there!"].
Proof.
  pose proof (getNumTokens_fetches_once char_tiktoken "Hello" "there!"
                (fresh (Some (VStr "gpt-4-0613")))) as H.
  cbn zeta in H. destruct H as (_ & _ & ->); [by eexists|]. reflexivity.
Defined.

Lemma getNumTokens_retries_fetch_witness :
  tiktoken_calls
    (snd (getNumTokens no_tiktoken (ContentString "there!")
            (snd (getNumTokens no_tiktoken (ContentString "Hello")
                    (fresh (Some (VStr "gpt-4-0613")))))))
  = [CallEncodingForModel "gpt-4"; CallEncodingForModel "gpt-4"].
Proof.
  pose proof (getNumTokens_retries_fetch no_tiktoken "Hello" "there!"
                (fresh (Some (VStr "gpt-4-0613")))) as H.
  cbn zeta in H. destruct H as (_ & _ & _ & ->); reflexivity.
Defined.

Lemma getNumTokens_repeatable_witness :
  fst (getNumTokens no_tiktoken (ContentString "Hello")
         (snd (getNumTokens char_tiktoken (ContentString "there!")
                 (fresh (Some (VStr "gpt-4-0613"))))))
  = inr 5%nat
  ∧ fst (getNumTokens broken_tiktoken (ContentString "Hello")
           (snd (getNumTokens no_tiktoken (ContentString "Hello")
                   (snd (getNumTokens char_tiktoken (ContentString "there!")
                           (fresh (Some (VStr "gpt-4-0613"))))))))
    = inr 5%nat.
Proof.
  pose proof (getNumTokens_repeatable char_tiktoken no_tiktoken broken_tiktoken
                "Hello" "there!" (fresh (Some (VStr "gpt-4-0613")))
                {| encode := fun s => inr (nat_of_ascii <$> list_ascii_of_string s) |}
                eq_refl) as H.
  cbn zeta in H. destruct H as [H1 H2]. split; [exact H1|].
  exact (eq_trans H2 H1).
Defined.

End TokenTraceFacts.

(** ** The contributing fields of a key, and [serialize] *)

Module SerializedFacts.
Import CacheKey CacheKeyExamples Serialized JsonParse.
Import JsFacts CacheKeyFacts.

Ltac by_decision := apply (bool_decide_unpack _); vm_compute; exact I.

(** Reading back what [escape] wrote. *)
Lemma parse_escape_char c t :
  parse_string_body (escape_char c ++ t)
  = prepend (N_of_ascii c) <$> parse_string_body t.
Proof.
  assert (Hc : ∀ n, nat_of_ascii c = n → c = ascii_of_nat n).
  { intros n <-. by rewrite ascii_nat_embedding. }
  unfold escape_char.
  repeat (case_decide;
          [match goal with H : nat_of_ascii c = _ |- _ => apply Hc in H as -> end;
           reflexivity|]).
  case_decide as Hlow.
  - rewrite (Hc _ eq_refl). remember (nat_of_ascii c) as n eqn:En. clear - Hlow.
    do 32 (destruct n as [|n]; [reflexivity|]). lia.
  - rewrite string_app_cons, string_app_nil_l. cbn [parse_string_body].
    destruct (decide (c = dquote)) as [->|_]; [done|].
    destruct (decide (c = backslash)) as [->|_]; [done|].
    destruct (decide (N_of_ascii c < 32)%N) as [Hn|_]; [|done].
    exfalso. apply Hlow. unfold nat_of_ascii. lia.
Qed.

Lemma parse_escape s rest :
  parse_string_body (escape s ++ String dquote rest) = Some (units s, rest).
Proof.
  induction s as [|c s IH]; [done|].
  cbn [escape]. rewrite string_app_assoc, parse_escape_char, IH. done.
Qed.

Lemma units_inj s1 s2 : units s1 = units s2 → s1 = s2.
Proof.
  unfold units. intros E.
  rewrite <- (string_of_list_ascii_of_string s1),
          <- (string_of_list_ascii_of_string s2).
  f_equal. revert E. generalize (list_ascii_of_string s1) as l1.
  generalize (list_ascii_of_string s2) as l2.
  intros l2 l1. revert l2.
  induction l1 as [|a l1 IH]; intros [|b l2] E; try done.
  cbn in E. injection E as Hab E. f_equal; [|by apply IH].
  by rewrite <- (ascii_N_embedding a), <- (ascii_N_embedding b), Hab.
Qed.

Lemma quote_inj s1 s2 : quote s1 = quote s2 → s1 = s2.
Proof.
  unfold quote. intros E.
  assert (H : parse_string_body (escape s1 ++ String dquote "")
              = parse_string_body (escape s2 ++ String dquote "")) by congruence.
  rewrite !parse_escape in H. apply units_inj. congruence.
Qed.

Lemma obj_get_lookup (o : Obj) j :
  obj_get o j = (list_to_map o : gmap string Value) !! j.
Proof.
  induction o as [|[k v] o IH]; [done|].
  rewrite obj_get_cons. cbn [list_to_map foldr uncurry fst snd curry].
  destruct (decide (k = j)) as [->|].
  - by rewrite lookup_insert_eq.
  - by rewrite lookup_insert_ne.
Qed.

(** The fields of a call, name by name. *)
Lemma serialized_fields_lookup this (callOptions : Obj) k :
  NoDup callOptions.*1 → NoDup (_identifyingParams this).*1 →
  serialized_fields this callOptions !! k
  = if decide (k = "_model") then Some (quote (_modelType this))
    else if decide (k = "_type") then Some (quote (_llmType this))
    else match obj_get callOptions k with
         | Some v => text_of v
         | None => obj_get (_identifyingParams this) k ≫= text_of
         end.
Proof.
  intros Ho Hi. rewrite serialized_fields_map, lookup_omap, params_map.
  destruct (decide (k = "_model")) as [->|Hm].
  { by rewrite lookup_insert_eq. }
  rewrite lookup_insert_ne by done.
  destruct (decide (k = "_type")) as [->|Ht].
  { by rewrite lookup_insert_eq. }
  rewrite lookup_insert_ne by done.
  rewrite (assign_all_lookup callOptions) by done.
  destruct (obj_get callOptions k) as [v|]; [done|].
  rewrite (assign_all_lookup (_identifyingParams this)) by done.
  rewrite lookup_empty. by destruct (obj_get (_identifyingParams this) k).
Qed.

(** X9: the precedence of the fields of a key. The two tags come from the
    model and nothing overrides them; under any other name a call option
    wins over the identifying parameter, also when the option holds
    [undefined] and so removes the field. *)
Theorem cache_key_precedence this (callOptions : Obj) k :
  NoDup callOptions.*1 → NoDup (_identifyingParams this).*1 →
  serialized_fields this callOptions !! "_model" = Some (quote (_modelType this))
  ∧ serialized_fields this callOptions !! "_type" = Some (quote (_llmType this))
  ∧ (k ≠ "_model" → k ≠ "_type" →
     serialized_fields this callOptions !! k
     = match obj_get callOptions k with
       | Some v => text_of v
       | None => obj_get (_identifyingParams this) k ≫= text_of
       end).
Proof.
  intros Ho Hi. rewrite !serialized_fields_lookup by done.
  split; [done|]. split; [done|]. intros Hm Ht.
  by rewrite !decide_False by done.
Qed.

(** X10: models of different types never share a key: with names free of
    the characters that structure a key, a different [_llmType()] or a
    different [_modelType()] gives a different key, whatever the
    identifying parameters and the call options. *)
Theorem cache_key_separates_models this1 o1 this2 o2 :
  plain_names this1 o1 → plain_names this2 o2 →
  _llmType this1 ≠ _llmType this2 ∨ _modelType this1 ≠ _modelType this2 →
  _getSerializedCacheKeyParametersForCall this1 o1
  ≠ _getSerializedCacheKeyParametersForCall this2 o2.
Proof.
  intros H1 H2 Hdiff E. apply same_key_same_fields in E; [|done..].
  assert (Hmodel : ∀ this o,
            serialized_fields this o !! "_model" = Some (quote (_modelType this))).
  { intros this o. rewrite serialized_fields_map, lookup_omap, params_map.
    by rewrite lookup_insert_eq. }
  assert (Htype : ∀ this o,
            serialized_fields this o !! "_type" = Some (quote (_llmType this))).
  { intros this o. rewrite serialized_fields_map, lookup_omap, params_map.
    rewrite lookup_insert_ne by done. by rewrite lookup_insert_eq. }
  destruct Hdiff as [Hd|Hd]; apply Hd, quote_inj.
  - pose proof (Htype this1 o1) as A. rewrite E, Htype in A. congruence.
  - pose proof (Hmodel this1 o1) as A. rewrite E, Hmodel in A. congruence.
Qed.

(** X11: a call option that repeats the value of an identifying parameter
    changes nothing: the call has the same key as the call without the
    option. *)
Theorem redundant_option_same_key this (callOptions : Obj) k v :
  NoDup callOptions.*1 → NoDup (_identifyingParams this).*1 →
  k ∉ callOptions.*1 →
  obj_get (_identifyingParams this) k = Some v →
  _getSerializedCacheKeyParametersForCall this (obj_set callOptions k v)
  = _getSerializedCacheKeyParametersForCall this callOptions.
Proof.
  intros Ho Hi Hk Hv. apply same_fields_same_key, map_eq. intros j.
  rewrite !serialized_fields_lookup by (try apply obj_set_NoDup; done).
  repeat case_decide; try done.
  rewrite obj_get_set. destruct (decide (k = j)) as [->|]; [|done].
  by rewrite (obj_get_None callOptions), Hv.
Qed.

(** X12: [serialize()] names each field once, and its two tags are the
    model's own even when the identifying parameters use those names;
    every other field is the identifying parameter of that name. *)
Theorem serialize_tags this k :
  NoDup (_identifyingParams this).*1 →
  NoDup (serialize this).*1
  ∧ obj_get (serialize this) "_model" = Some (VStr (_modelType this))
  ∧ obj_get (serialize this) "_type" = Some (VStr (_llmType this))
  ∧ (k ≠ "_model" → k ≠ "_type" →
     obj_get (serialize this) k = obj_get (_identifyingParams this) k).
Proof.
  intros Hi. unfold serialize. split.
  { do 2 apply obj_set_NoDup. apply obj_spread_NoDup. constructor. }
  rewrite !obj_get_set. cbn [decide]. split; [done|]. split.
  { by rewrite decide_False, decide_True. }
  intros Hm Ht. rewrite !decide_False by done.
  rewrite obj_get_lookup, list_to_map_obj_spread, assign_all_lookup by done.
  by destruct (obj_get (_identifyingParams this) k).
Qed.

Lemma cache_key_precedence_witness :
  serialized_fields stopping [("stop", VArr [VStr "a"])] !! "stop"
  = Some (dq "['a']").
Proof.
  destruct (cache_key_precedence stopping [("stop", VArr [VStr "a"])] "stop")
    as (_ & _ & ->); try done; by_decision.
Defined.

Lemma cache_key_separates_models_witness :
  _getSerializedCacheKeyParametersForCall fake stop_then_timeout
  ≠ _getSerializedCacheKeyParametersForCall (base_model "fake" "base_llm")
      stop_then_timeout.
Proof.
  apply cache_key_separates_models.
  - split; repeat constructor.
  - split; repeat constructor.
  - right. discriminate.
Defined.

Lemma redundant_option_same_key_witness :
  _getSerializedCacheKeyParametersForCall fake
    (obj_set stop_then_timeout "temperature" (VNum (NInt 0)))
  = _getSerializedCacheKeyParametersForCall fake stop_then_timeout.
Proof.
  apply redundant_option_same_key.
  - by_decision.
  - by_decision.
  - by_decision.
  - reflexivity.
Defined.

Lemma serialize_tags_witness :
  obj_get (serialize (separators 1 2)) "a" = Some (VNum (NInt 1)).
Proof.
  destruct (serialize_tags (separators 1 2) "a") as (_ & _ & _ & ->); try done.
  by_decision.
Defined.

End SerializedFacts.

(** ** Paths into serialized fields *)

Module MapKeysFacts.
Import Eff MapKeys.
Import JsFacts.
Local Open Scope heap_scope.

(** *** Paths and their segments *)

Lemma includes_dot_cons c s :
  includes_dot (String c s) = false ↔ c ≠ "."%char ∧ includes_dot s = false.
Proof.
  unfold includes_dot. cbn [list_ascii_of_string].
  rewrite !bool_decide_eq_false, not_elem_of_cons.
  split; intros [? ?]; split; congruence.
Qed.

Lemma split_dot_plain x : includes_dot x = false → split_dot x = [x].
Proof.
  induction x as [|c x IH]; [done|].
  intros [Hc Hx]%includes_dot_cons. cbn [split_dot].
  rewrite decide_False by done. by rewrite IH.
Qed.

Lemma split_dot_app x r :
  includes_dot x = false → split_dot (x ++ "." ++ r) = x :: split_dot r.
Proof.
  induction x as [|c x IH].
  - intros _. by rewrite string_app_nil_l.
  - intros [Hc Hx]%includes_dot_cons.
    rewrite string_app_cons. cbn [split_dot].
    rewrite decide_False by done. by rewrite IH.
Qed.

Lemma split_dot_join segs :
  segs ≠ [] → Forall (fun k => includes_dot k = false) segs →
  split_dot (join "." segs) = segs.
Proof.
  induction segs as [|x segs IH]; [done|]. intros _ Hall.
  apply Forall_cons in Hall as [Hx Hall].
  destruct segs as [|y segs]; [by apply split_dot_plain|].
  rewrite join_cons, split_dot_app by done. by rewrite IH.
Qed.

Lemma segments_plain segs :
  Forall segment segs → Forall (fun k => includes_dot k = false) segs.
Proof. intros H. apply (Forall_impl _ _ _ H). by intros k [_ ?]. Qed.

Lemma segments_modelled segs :
  Forall segment segs → Forall (fun k => modelled k = true) segs.
Proof. intros H. apply (Forall_impl _ _ _ H). by intros k [? _]. Qed.

(** *** Own properties *)

Lemma prop_get_cons k v (o : Props) j :
  prop_get ((k, v) :: o) j = if decide (k = j) then Some v else prop_get o j.
Proof.
  unfold prop_get. cbn [List.find fst].
  by destruct (decide (k = j)); [rewrite bool_decide_eq_true_2|rewrite bool_decide_eq_false_2].
Qed.

Lemma prop_get_None (o : Props) j : prop_get o j = None ↔ j ∉ o.*1.
Proof.
  induction o as [|[k v] o IH]; [by split; [intros _; apply not_elem_of_nil|]|].
  rewrite prop_get_cons, fmap_cons, not_elem_of_cons. cbn [fst].
  destruct (decide (k = j)) as [->|Hk].
  - split; [done|]. by intros [? _].
  - rewrite IH. split; [by split; [congruence|]|by intros [_ ?]].
Qed.

Lemma prop_get_is_Some (o : Props) j : is_Some (prop_get o j) ↔ j ∈ o.*1.
Proof.
  rewrite <- not_eq_None_Some, prop_get_None.
  split; [apply dec_stable|by intros ? ?].
Qed.

Lemma prop_get_set (o : Props) k v j :
  prop_get (prop_set o k v) j = if decide (k = j) then Some v else prop_get o j.
Proof.
  induction o as [|[k' v'] o IH]; cbn [prop_set].
  - rewrite prop_get_cons. by destruct (decide (k = j)).
  - destruct (decide (k' = k)) as [->|Hk]; rewrite !prop_get_cons.
    + by destruct (decide (k = j)).
    + rewrite IH. destruct (decide (k' = j)) as [->|]; [|done].
      by rewrite decide_False by done.
Qed.

Lemma prop_get_delete (o : Props) k j :
  prop_get (prop_delete o k) j = if decide (k = j) then None else prop_get o j.
Proof.
  unfold prop_delete. induction o as [|[k' v'] o IH]; [by destruct (decide (k = j))|].
  rewrite filter_cons. cbn [fst]. destruct (decide (k' ≠ k)) as [Hk|Hk].
  - rewrite !prop_get_cons, IH.
    destruct (decide (k' = j)) as [->|]; [|done]. by rewrite decide_False by done.
  - apply dec_stable in Hk as ->. rewrite IH, prop_get_cons.
    by destruct (decide (k = j)).
Qed.

Lemma prop_delete_absent (o : Props) k : k ∉ o.*1 → prop_delete o k = o.
Proof.
  unfold prop_delete. induction o as [|[k' v'] o IH]; [done|].
  rewrite fmap_cons, not_elem_of_cons. cbn [fst]. intros [Hk Ho].
  rewrite filter_cons. cbn [fst]. rewrite decide_True by done. by rewrite IH.
Qed.

Lemma prop_set_absent (o : Props) k v : k ∉ o.*1 → prop_set o k v = (o ++ [(k, v)])%list.
Proof.
  induction o as [|[k' v'] o IH]; [done|].
  rewrite fmap_cons, not_elem_of_cons. cbn [fst prop_set]. intros [Hk Ho].
  rewrite decide_False by done. by rewrite IH.
Qed.

Lemma prop_get_elem (o : Props) k v :
  NoDup o.*1 → (k, v) ∈ o → prop_get o k = Some v.
Proof.
  induction o as [|[k' v'] o IH]; [by intros _ ?%elem_of_nil|].
  rewrite fmap_cons, NoDup_cons, elem_of_cons, prop_get_cons. cbn [fst].
  intros [Hk Ho] [[= <- <-]|Hin].
  - by rewrite decide_True.
  - rewrite decide_False; [by apply IH|].
    intros ->. apply Hk. by apply (list_elem_of_fmap_2 fst _ (k, v)).
Qed.

(** *** Running the property accesses on an object *)

Lemma bind_assoc {A B C} (m : H A) (f : A → H B) (g : B → H C) h :
  bind (bind m f) g h = bind m (fun a => bind (f a) g) h.
Proof. unfold bind. by destruct (m h). Qed.

Lemma has_property_object h l props part :
  h !! l = Some props → modelled part = true →
  has_property part (AObject l) h = Returns (bool_decide (part ∈ props.*1)) h.
Proof. intros Hl Hp. cbn. by rewrite Hl, Hp. Qed.

Lemma get_property_object h l props part :
  h !! l = Some props → modelled part = true →
  get_property (AObject l) part h
  = Returns (default AUndefined (prop_get props part)) h.
Proof. intros Hl Hp. cbn. by rewrite Hl, Hp. Qed.

Lemma set_property_object h l props part v :
  h !! l = Some props → modelled part = true →
  set_property (AObject l) part v h = Returns tt (<[l:=prop_set props part v]> h).
Proof. intros Hl Hp. cbn. by rewrite Hl, Hp. Qed.

Lemma delete_property_object h l props part :
  h !! l = Some props → modelled part = true →
  delete_property (AObject l) part h = Returns tt (<[l:=prop_delete props part]> h).
Proof. intros Hl Hp. cbn. by rewrite Hl, Hp. Qed.

(** *** What a path leads to *)

Lemma read_chain_app h v names1 names2 :
  read_chain h v (names1 ++ names2)%list
  = read_chain h v names1 ≫= fun c => read_chain h c names2.
Proof.
  revert v. induction names1 as [|name names1 IH]; intros v; [done|].
  cbn [app read_chain]. destruct v; try done.
  destruct (h !! l) as [props|]; [|done]. cbn.
  destruct (prop_get props name) as [held|]; [|done]. cbn. apply IH.
Qed.

Lemma read_chain_object h v name names r :
  read_chain h v (name :: names) = Some r →
  ∃ l props held,
    v = AObject l ∧ h !! l = Some props ∧ prop_get props name = Some held
    ∧ read_chain h held names = Some r.
Proof.
  cbn [read_chain]. destruct v; try done.
  destruct (h !! l) as [props|] eqn:Hl; [|done]. cbn.
  destruct (prop_get props name) as [held|] eqn:Hheld; [|done]. cbn.
  intros Hr. by exists l, props, held.
Qed.

(** *** [getPath] *)

Lemma has_property_read_only part current h :
  read_only (has_property part current) h.
Proof.
  unfold read_only. destruct current; try done. cbn.
  destruct (h !! l); [|done]. by destruct (modelled part).
Qed.

Lemma get_property_read_only current part h :
  read_only (get_property current part) h.
Proof.
  unfold read_only. destruct current; try done. cbn.
  destruct (h !! l); [|done]. by destruct (modelled part).
Qed.

Lemma getPath_loop_read_only parts current h :
  read_only (getPath_loop parts current) h.
Proof.
  revert current. induction parts as [|part parts IH]; intros current; [done|].
  cbn [getPath_loop]. unfold read_only, bind.
  pose proof (has_property_read_only part current h) as Hhas.
  unfold read_only in Hhas.
  destruct (has_property part current h) as [present h1| |]; [subst h1|done..].
  destruct (negb present || is_undefined current); [done|].
  pose proof (get_property_read_only current part h) as Hget.
  unfold read_only in Hget.
  destruct (get_property current part h) as [next h1| |]; [subst h1|done..].
  destruct (Array_isArray next); [done|]. apply IH.
Qed.

(** X13: [getPath] only reads: whether it returns or throws, the store is
    as it was. *)
Theorem getPath_read_only fields path h :
  match getPath fields path h with
  | Returns _ h' | Throws _ h' => h' = h
  | Unmodelled => True
  end.
Proof.
  unfold getPath. destruct (split_dot path) as [|last rest]; [done|].
  unfold bind.
  pose proof (getPath_loop_read_only (reverse rest) fields h) as Hloop.
  unfold read_only in Hloop.
  destruct (getPath_loop (reverse rest) fields h) as [current h1| |];
    [subst h1|done..].
  destruct current as [current|]; [|done].
  apply get_property_read_only.
Qed.

Lemma getPath_loop_chain h parts : ∀ v names r,
  Forall (fun k => modelled k = true) parts →
  names ≠ [] →
  read_chain h v (parts ++ names)%list = Some r →
  ∃ c, getPath_loop parts v h = Returns (Some c) h
       ∧ read_chain h c names = Some r.
Proof.
  induction parts as [|part parts IH]; intros v names r Hparts Hnames Hr.
  { by exists v. }
  apply Forall_cons in Hparts as [Hpart Hparts].
  cbn [app] in Hr.
  apply read_chain_object in Hr as (l & props & held & -> & Hl & Hheld & Hr).
  cbn [getPath_loop]. unfold bind.
  rewrite (has_property_object h l props) by done.
  rewrite bool_decide_eq_true_2 by (apply prop_get_is_Some; by eexists).
  cbn [negb orb is_undefined].
  rewrite (get_property_object h l props) by done. rewrite Hheld. cbn [default id].
  assert (Hobj : ∃ l', held = AObject l').
  { destruct (parts ++ names)%list as [|name rest] eqn:E.
    - by apply app_eq_nil in E as [_ ?].
    - apply read_chain_object in Hr as (l' & _ & _ & -> & _). by exists l'. }
  destruct Hobj as [l' ->]. cbn [Array_isArray]. by apply IH.
Qed.

(** X14: [getPath] reads the segments of its path from the last to the
    first: what it returns for [a.b.c] is what is found under [c], then
    [b], then [a]. *)
Theorem getPath_reads_reversed h fields segs v :
  segs ≠ [] → Forall segment segs →
  read_chain h fields (reverse segs) = Some v →
  getPath fields (join "." segs) h = Returns v h.
Proof.
  intros Hne Hsegs Hv. unfold getPath.
  rewrite split_dot_join by (try apply segments_plain; done).
  destruct segs as [|first rest]; [done|].
  apply Forall_cons in Hsegs as [[Hfirst _] Hrest].
  rewrite reverse_cons in Hv.
  apply getPath_loop_chain in Hv as (c & Hloop & Hc); [|by apply Forall_reverse, segments_modelled|done].
  unfold bind. rewrite Hloop.
  apply read_chain_object in Hc as (l & props & held & -> & Hl & Hheld & [= ->]).
  rewrite (get_property_object h l props) by done. by rewrite Hheld.
Qed.

Lemma getPath_loop_prefix h pre : ∀ v l more,
  Forall (fun k => modelled k = true) pre →
  read_chain h v pre = Some (AObject l) →
  getPath_loop (pre ++ more) v h = getPath_loop more (AObject l) h.
Proof.
  induction pre as [|part pre IH]; intros v l more Hpre Hv.
  { by injection Hv as ->. }
  apply Forall_cons in Hpre as [Hpart Hpre].
  apply read_chain_object in Hv as (l0 & props & held & -> & Hl & Hheld & Hv).
  cbn [app getPath_loop]. unfold bind.
  rewrite (has_property_object h l0 props) by done.
  rewrite bool_decide_eq_true_2 by (apply prop_get_is_Some; by eexists).
  cbn [negb orb is_undefined].
  rewrite (get_property_object h l0 props) by done. rewrite Hheld. cbn [default id].
  assert (Hobj : ∃ l', held = AObject l').
  { destruct pre as [|name pre].
    - injection Hv as ->. by exists l.
    - apply read_chain_object in Hv as (l' & _ & _ & -> & _). by exists l'. }
  destruct Hobj as [l' ->]. cbn [Array_isArray]. by apply IH.
Qed.

(** X15: where [getPath] stops. With the segments after the first read
    from the last one backwards: a segment that the object reached does
    not have makes it return [undefined], and a segment that holds an
    array makes it throw, whatever the segments still to read. *)
Theorem getPath_stops h fields first pre part post l props :
  Forall segment (first :: pre ++ part :: post) →
  read_chain h fields pre = Some (AObject l) →
  h !! l = Some props →
  let path := join "." (first :: reverse (pre ++ part :: post)) in
  (part ∉ props.*1 → getPath fields path h = Returns AUndefined h)
  ∧ (∀ a, prop_get props part = Some (AArray a) →
          getPath fields path h
          = Throws (JsError "Aliasing arrays is not supported") h).
Proof.
  intros Hsegs Hpre Hl path. subst path. unfold getPath.
  rewrite split_dot_join;
    [|done|by apply segments_plain, Forall_cons;
            apply Forall_cons in Hsegs as [? ?%Forall_reverse]].
  cbv beta iota. rewrite reverse_involutive.
  apply Forall_cons in Hsegs as [_ Hsegs].
  apply segments_modelled, Forall_app in Hsegs as [Hmpre Hrest].
  apply Forall_cons in Hrest as [Hpart _].
  unfold bind. rewrite (getPath_loop_prefix h pre fields l) by done.
  cbn [getPath_loop]. unfold bind.
  rewrite (has_property_object h l props) by done.
  split.
  - intros Habsent. by rewrite bool_decide_eq_false_2.
  - intros a Ha.
    rewrite bool_decide_eq_true_2 by (apply prop_get_is_Some; by eexists).
    cbn [negb orb is_undefined].
    rewrite (get_property_object h l props) by done. by rewrite Ha.
Qed.

(** *** [setPath] *)

Lemma setPath_run fields parts last value h :
  Forall segment (parts ++ [last]) →
  setPath fields (join "." (parts ++ [last])) value h
  = bind (setPath_loop parts fields) (fun c => set_property c last value) h.
Proof.
  intros Hsegs. unfold setPath.
  rewrite split_dot_join; [|by destruct parts|by apply segments_plain].
  rewrite reverse_app, reverse_singleton. cbn [app].
  by rewrite reverse_involutive.
Qed.

Lemma new_object_fresh (h : Heap) : h !! fresh (dom h) = None.
Proof. apply not_elem_of_dom, is_fresh. Qed.

Lemma setPath_loop_creates parts : ∀ l props h last value,
  h !! l = Some props →
  Forall (fun k => modelled k = true) (parts ++ [last]) →
  hd last parts ∉ props.*1 ∨ parts = [] →
  ∃ h' props',
    bind (setPath_loop parts (AObject l)) (fun c => set_property c last value) h
    = Returns tt h'
    ∧ read_chain h' (AObject l) (parts ++ [last]) = Some value
    ∧ (∀ l0, l0 ≠ l → is_Some (h !! l0) → h' !! l0 = h !! l0)
    ∧ h' !! l = Some props'
    ∧ (∀ k, k ≠ hd last parts → prop_get props' k = prop_get props k)
    ∧ (parts ≠ [] →
       ∃ l1, prop_get props' (hd last parts) = Some (AObject l1)
             ∧ h !! l1 = None).
Proof.
  induction parts as [|part parts IH]; intros l props h last value Hl Hm Hnew.
  - cbn [app] in Hm. rewrite Forall_singleton in Hm.
    cbn [setPath_loop app hd]. unfold bind, ret.
    rewrite (set_property_object h l props) by done.
    eexists _, _. split; [done|].
    split; [|split; [|split; [|split]]].
    + cbn. rewrite lookup_insert_eq. cbn. by rewrite prop_get_set, decide_True.
    + intros l0 Hl0 _. by rewrite lookup_insert_ne.
    + by rewrite lookup_insert_eq.
    + intros k Hk. by rewrite prop_get_set, decide_False.
    + done.
  - cbn [app] in Hm. apply Forall_cons in Hm as [Hpart Hm].
    destruct Hnew as [Hnew|]; [|done]. cbn [hd] in Hnew |- *.
    pose proof (new_object_fresh h) as Hfresh.
    set (l1 := fresh (dom h)) in *.
    assert (Hne : l1 ≠ l) by (intros ->; congruence).
    cbn [setPath_loop]. unfold bind at 1 2 3 4 5.
    rewrite (has_property_object h l props) by done.
    rewrite bool_decide_eq_false_2 by done.
    unfold ret at 1. cbn [negb orb]. unfold bind at 1, new_object. cbn zeta.
    fold l1.
    rewrite (set_property_object (<[l1:=[]]> h) l props)
      by (by rewrite ?lookup_insert_ne).
    rewrite (get_property_object _ l (prop_set props part (AObject l1)))
      by (by rewrite ?lookup_insert_eq).
    rewrite prop_get_set, decide_True by done. cbn [default id].
    destruct (IH l1 [] (<[l:=prop_set props part (AObject l1)]> (<[l1:=[]]> h))
                last value) as (h' & props1 & Hrun & Hread & Hframe & _);
      [by rewrite lookup_insert_ne, lookup_insert_eq|done|
       left; apply not_elem_of_nil|].
    assert (Hroot : h' !! l = Some (prop_set props part (AObject l1))).
    { rewrite Hframe; [by rewrite lookup_insert_eq|done|].
      by rewrite lookup_insert_eq. }
    eexists _, _. split; [exact Hrun|].
    split; [|split; [|split; [|split]]].
    + cbn [app read_chain]. rewrite Hroot. cbn.
      rewrite prop_get_set, decide_True by done. cbn. exact Hread.
    + intros l0 Hl0 [p0 Hp0].
      assert (l0 ≠ l1) by (intros ->; congruence).
      rewrite Hframe; [by rewrite !lookup_insert_ne|done|].
      rewrite !lookup_insert_ne by done. by eexists.
    + exact Hroot.
    + intros k Hk. by rewrite prop_get_set, decide_False.
    + intros _. exists l1. by rewrite prop_get_set, decide_True.
Qed.

Lemma snoc_of_cons {A} (x : A) (l : list A) :
  ∃ parts last, x :: l = (parts ++ [last])%list ∧ hd last parts = x
                ∧ (parts = [] ↔ l = []).
Proof.
  destruct (exists_last (l:=x :: l)) as (parts & last & E); [done|].
  exists parts, last. split; [done|].
  destruct parts as [|y parts]; cbn in E |- *.
  - injection E as -> ->. done.
  - injection E as -> ->. split; [done|]. split; [done|].
    by intros [_ ?]%app_eq_nil.
Qed.

(** X16: [setPath] on a path whose first segment the object does not have
    (or on a path of one segment): it returns, the value is then found by
    reading the segments from the first to the last, every other object
    of the store is as it was, and of the object itself only the property
    named by the first segment has changed. *)
Theorem setPath_creates h l props first rest value :
  h !! l = Some props →
  Forall segment (first :: rest) →
  first ∉ props.*1 ∨ rest = [] →
  ∃ h' props',
    setPath (AObject l) (join "." (first :: rest)) value h = Returns tt h'
    ∧ read_chain h' (AObject l) (first :: rest) = Some value
    ∧ (∀ l0, l0 ≠ l → is_Some (h !! l0) → h' !! l0 = h !! l0)
    ∧ h' !! l = Some props'
    ∧ (∀ k, k ≠ first → prop_get props' k = prop_get props k).
Proof.
  intros Hl Hsegs Hnew.
  destruct (snoc_of_cons first rest) as (parts & last & E & Hhd & Hnil).
  rewrite E in Hsegs |- *. rewrite setPath_run by done.
  destruct (setPath_loop_creates parts l props h last value)
    as (h' & props' & Hrun & Hread & Hframe & Hroot & Hkeep & _);
    [done|by apply segments_modelled| |].
  { rewrite Hhd. destruct Hnew as [?|?]; [by left|right; by apply Hnil]. }
  exists h', props'. rewrite Hhd in Hkeep. done.
Qed.

(** X17: reading back what [setPath] wrote takes the path with its
    segments in the opposite order: after [setPath] on a path whose first
    segment the object did not have, [getPath] on the reversed path
    returns the value. *)
Theorem getPath_after_setPath h l props first rest value :
  h !! l = Some props →
  Forall segment (first :: rest) →
  first ∉ props.*1 ∨ rest = [] →
  ∃ h',
    setPath (AObject l) (join "." (first :: rest)) value h = Returns tt h'
    ∧ getPath (AObject l) (join "." (reverse (first :: rest))) h'
      = Returns value h'.
Proof.
  intros Hl Hsegs Hnew.
  destruct (snoc_of_cons first rest) as (parts & last & E & Hhd & Hnil).
  rewrite E in Hsegs |- *. rewrite setPath_run by done.
  destruct (setPath_loop_creates parts l props h last value)
    as (h' & props' & Hrun & Hread & _);
    [done|by apply segments_modelled| |].
  { rewrite Hhd. destruct Hnew as [?|?]; [by left|right; by apply Hnil]. }
  exists h'. split; [done|].
  rewrite reverse_app, reverse_singleton. cbn [app].
  assert (Hrev : Forall segment (last :: reverse parts)).
  { rewrite Forall_app, Forall_singleton in Hsegs.
    destruct Hsegs as [Hparts Hlast].
    apply Forall_cons. split; [done|by apply Forall_reverse]. }
  unfold getPath.
  rewrite split_dot_join by (try apply segments_plain; done).
  rewrite reverse_involutive.
  apply getPath_loop_chain in Hread as (c & Hloop & Hc);
    [|by apply Forall_app in Hsegs as [?%segments_modelled _]|done].
  unfold bind. rewrite Hloop.
  apply read_chain_object in Hc as (lc & pc & held & -> & Hlc & Hheld & [= ->]).
  apply Forall_cons in Hrev as [[Hlast _] _].
  rewrite (get_property_object h' lc pc) by done. by rewrite Hheld.
Qed.

(** X18: with two different segments the same path does not read the
    value back: after [setPath] on [a.b] in an object that had neither
    property, [getPath] on [a.b] returns [undefined], and [getPath] on
    [b.a] returns the value. *)
Theorem getPath_setPath_two_segments h l props a b value :
  h !! l = Some props →
  segment a → segment b → a ≠ b →
  a ∉ props.*1 → b ∉ props.*1 →
  ∃ h',
    setPath (AObject l) (a ++ "." ++ b) value h = Returns tt h'
    ∧ getPath (AObject l) (a ++ "." ++ b) h' = Returns AUndefined h'
    ∧ getPath (AObject l) (b ++ "." ++ a) h' = Returns value h'.
Proof.
  intros Hl Ha Hb Hab Hna Hnb.
  assert (Hsegs : Forall segment ([a] ++ [b]))
    by (apply Forall_app; split; by apply Forall_singleton).
  assert (Hback : Forall segment [b; a])
    by (apply Forall_cons; split; [done|by apply Forall_singleton]).
  change (a ++ "." ++ b) with (join "." ([a] ++ [b])).
  rewrite setPath_run by done.
  destruct (setPath_loop_creates [a] l props h b value)
    as (h' & props' & Hrun & Hread & _ & Hroot & Hkeep & _);
    [done|by apply segments_modelled|by left|].
  exists h'. split; [done|]. split.
  - unfold getPath. rewrite split_dot_join by (try apply segments_plain; done).
    cbn [app reverse rev_append getPath_loop]. unfold bind.
    rewrite (has_property_object h' l props') by (done || apply Hb).
    rewrite bool_decide_eq_false_2; [done|].
    apply prop_get_None. rewrite Hkeep by (cbn; congruence).
    by apply prop_get_None.
  - change (b ++ "." ++ a) with (join "." [b; a]).
    unfold getPath.
    rewrite split_dot_join by (try apply segments_plain; done).
    apply (getPath_loop_chain h' [a] _ [b]) in Hread as (c & Hloop & Hc);
      [|apply Forall_singleton, Ha|done].
    cbn [reverse rev_append]. unfold bind. rewrite Hloop.
    apply read_chain_object in Hc as (lc & pc & held & -> & Hlc & Hheld & [= ->]).
    rewrite (get_property_object h' lc pc) by (done || apply Hb).
    by rewrite Hheld.
Qed.

Lemma setPath_loop_existing h parts : ∀ v n,
  Forall (fun k => modelled k = true) parts →
  read_chain h v parts = Some (AObject n) →
  setPath_loop parts v h = Returns (AObject n) h.
Proof.
  induction parts as [|part parts IH]; intros v n Hparts Hv.
  { by injection Hv as ->. }
  apply Forall_cons in Hparts as [Hpart Hparts].
  apply read_chain_object in Hv as (l0 & props & held & -> & Hl & Hheld & Hv).
  assert (Hobj : ∃ l', held = AObject l').
  { destruct parts as [|name parts].
    - injection Hv as ->. by exists n.
    - apply read_chain_object in Hv as (l' & _ & _ & -> & _). by exists l'. }
  destruct Hobj as [l' ->].
  cbn [setPath_loop]. unfold bind at 1 2 3 4.
  rewrite (has_property_object h l0 props) by done.
  rewrite bool_decide_eq_true_2 by (apply prop_get_is_Some; by eexists).
  rewrite (get_property_object h l0 props) by done. rewrite Hheld.
  cbn [default id negb orb is_undefined]. unfold ret at 1, bind at 1.
  rewrite (get_property_object h l0 props) by done. rewrite Hheld.
  cbn [default id]. by apply IH.
Qed.

(** X19: [setPath] writes through the objects that are there: when the
    segments before the last lead to an object, that object gets the
    property and nothing else changes, so whoever else holds the object
    sees the new property. *)
Theorem setPath_writes_through h fields parts last value n nprops :
  Forall segment (parts ++ [last]) →
  read_chain h fields parts = Some (AObject n) →
  h !! n = Some nprops →
  setPath fields (join "." (parts ++ [last])) value h
  = Returns tt (<[n:=prop_set nprops last value]> h).
Proof.
  intros Hsegs Hchain Hn. rewrite setPath_run by done.
  rewrite Forall_app, Forall_singleton in Hsegs.
  destruct Hsegs as [Hparts [Hlast _]].
  unfold bind.
  rewrite (setPath_loop_existing h parts fields n)
    by (try apply segments_modelled; done).
  by apply set_property_object.
Qed.

(** *** [deletePath] *)

Lemma deletePath_run fields parts last h :
  Forall segment (parts ++ [last]) →
  deletePath fields (join "." (parts ++ [last])) h
  = bind (deletePath_loop parts fields)
      (fun current =>
         match current with
         | None => ret tt
         | Some current => delete_property current last
         end) h.
Proof.
  intros Hsegs. unfold deletePath.
  rewrite split_dot_join; [|by destruct parts|by apply segments_plain].
  rewrite reverse_app, reverse_singleton. cbn [app].
  by rewrite reverse_involutive.
Qed.

Lemma read_chain_primitive h v name names :
  (∀ l, v ≠ AObject l) → read_chain h v (name :: names) = None.
Proof. intros Hv. destruct v; try done. by destruct (Hv l). Qed.

(** The loop of [deletePath] only reads; it hands on what the segments lead
    to, and gives up only where nothing is to be found. *)
Lemma deletePath_loop_spec h parts : ∀ v,
  match deletePath_loop parts v h with
  | Returns (Some c) h' => h' = h ∧ read_chain h v parts = Some c
  | Returns None h' =>
      h' = h ∧ ∀ names, names ≠ [] → read_chain h v (parts ++ names) = None
  | Throws _ h' => h' = h
  | Unmodelled => True
  end.
Proof.
  induction parts as [|part parts IH]; intros v; [done|].
  cbn [deletePath_loop]. unfold bind at 1 2.
  destruct v as [| | | | | |l]; try done. cbn [has_property].
  destruct (h !! l) as [props|] eqn:Hl; [|done].
  destruct (modelled part) eqn:Hpart; [|done].
  destruct (decide (part ∈ props.*1)) as [Hin|Hout].
  - rewrite bool_decide_eq_true_2 by done.
    rewrite (get_property_object h l props) by done.
    apply prop_get_is_Some in Hin as [held Hheld]. rewrite Hheld.
    cbn [default id negb orb].
    destruct (is_undefined held) eqn:Hundef.
    + split; [done|]. intros names Hnames. cbn [app read_chain].
      rewrite Hl. cbn. rewrite Hheld. cbn.
      destruct held; try done.
      destruct (parts ++ names)%list eqn:E; [|done].
      by apply app_eq_nil in E as [_ ?].
    + unfold bind. rewrite (get_property_object h l props) by done.
      rewrite Hheld. cbn [default id].
      specialize (IH held).
      destruct (deletePath_loop parts held h) as [[c|] h'| |]; [| |done..].
      * destruct IH as [-> IH]. split; [done|].
        cbn [read_chain]. rewrite Hl. cbn. by rewrite Hheld.
      * destruct IH as [-> IH]. split; [done|]. intros names Hnames.
        cbn [app read_chain]. rewrite Hl. cbn. rewrite Hheld. by apply IH.
  - rewrite bool_decide_eq_false_2 by done. cbn [negb orb]. unfold ret.
    split; [done|]. intros names _. cbn [app read_chain]. rewrite Hl. cbn.
    apply prop_get_None in Hout. by rewrite Hout.
Qed.

Lemma read_chain_delete h lc props last parts : ∀ v,
  h !! lc = Some props →
  read_chain h v parts = Some (AObject lc) →
  read_chain (<[lc:=prop_delete props last]> h) v (parts ++ [last]) = None.
Proof.
  induction parts as [|part parts IH]; intros v Hlc Hv.
  - injection Hv as ->. cbn. rewrite lookup_insert_eq. cbn.
    by rewrite prop_get_delete, decide_True.
  - apply read_chain_object in Hv as (l0 & p0 & held & -> & Hl0 & Hheld & Hv).
    cbn [app read_chain].
    destruct (decide (l0 = lc)) as [->|Hne].
    + rewrite lookup_insert_eq. cbn. rewrite prop_get_delete.
      destruct (decide (last = part)) as [->|]; [done|].
      assert (p0 = props) as -> by congruence.
      rewrite Hheld. cbn. by apply IH.
    + rewrite lookup_insert_ne by done. rewrite Hl0. cbn. rewrite Hheld. cbn.
      by apply IH.
Qed.

Lemma deletePath_loop_existing h parts : ∀ v n,
  Forall (fun k => modelled k = true) parts →
  read_chain h v parts = Some (AObject n) →
  deletePath_loop parts v h = Returns (Some (AObject n)) h.
Proof.
  induction parts as [|part parts IH]; intros v n Hparts Hv.
  { by injection Hv as ->. }
  apply Forall_cons in Hparts as [Hpart Hparts].
  apply read_chain_object in Hv as (l0 & props & held & -> & Hl & Hheld & Hv).
  assert (Hobj : ∃ l', held = AObject l').
  { destruct parts as [|name parts].
    - injection Hv as ->. by exists n.
    - apply read_chain_object in Hv as (l' & _ & _ & -> & _). by exists l'. }
  destruct Hobj as [l' ->].
  cbn [deletePath_loop]. unfold bind at 1 2.
  rewrite (has_property_object h l0 props) by done.
  rewrite bool_decide_eq_true_2 by (apply prop_get_is_Some; by eexists).
  rewrite (get_property_object h l0 props) by done. rewrite Hheld.
  cbn [default id negb orb is_undefined]. unfold bind at 1.
  rewrite (get_property_object h l0 props) by done. rewrite Hheld.
  cbn [default id]. by apply IH.
Qed.

(** X20: after [deletePath] has returned, nothing is found at the path,
    whatever the shape of the store; and it does return when something was
    found there. *)
Theorem deletePath_removes h fields segs :
  segs ≠ [] → Forall segment segs →
  (∀ h', deletePath fields (join "." segs) h = Returns tt h' →
         read_chain h' fields segs = None)
  ∧ (is_Some (read_chain h fields segs) →
     ∃ h', deletePath fields (join "." segs) h = Returns tt h').
Proof.
  intros Hne Hsegs. destruct segs as [|first rest]; [done|].
  destruct (snoc_of_cons first rest) as (parts & last & E & _).
  rewrite E in Hsegs |- *. rewrite deletePath_run by done.
  rewrite Forall_app, Forall_singleton in Hsegs.
  destruct Hsegs as [Hparts [Hlast _]]. split.
  - intros h'. unfold bind.
    pose proof (deletePath_loop_spec h parts fields) as Hloop.
    destruct (deletePath_loop parts fields h) as [[c|] h1| |]; [| |done..].
    + destruct Hloop as [-> Hc].
      destruct c as [| | | | | |lc]; try done; cbn.
      * intros [= <-]. by rewrite read_chain_app, Hc.
      * intros [= <-]. by rewrite read_chain_app, Hc.
      * destruct (h !! lc) as [props|] eqn:Hlc; [|done].
        rewrite Hlast. intros [= <-]. by apply read_chain_delete.
    + destruct Hloop as [-> Hnone]. intros [= <-]. by apply Hnone.
  - intros [v Hv]. rewrite read_chain_app in Hv.
    destruct (read_chain h fields parts) as [c|] eqn:Hc; [|done].
    cbn [mbind option_bind] in Hv.
    apply read_chain_object in Hv as (lc & props & held & -> & Hlc & _).
    unfold bind.
    rewrite (deletePath_loop_existing h parts fields lc)
      by (try apply segments_modelled; done).
    rewrite (delete_property_object h lc props) by done. by eexists.
Qed.

(** X21: [deletePath] on a path whose first segment the object does not
    have changes nothing. *)
Theorem deletePath_absent h l props first rest :
  h !! l = Some props →
  Forall segment (first :: rest) →
  first ∉ props.*1 →
  deletePath (AObject l) (join "." (first :: rest)) h = Returns tt h.
Proof.
  intros Hl Hsegs Habsent.
  destruct (snoc_of_cons first rest) as (parts & last & E & Hhd & _).
  rewrite E in Hsegs |- *. rewrite deletePath_run by done.
  rewrite Forall_app, Forall_singleton in Hsegs.
  destruct Hsegs as [Hparts [Hlast _]].
  destruct parts as [|part parts]; cbn [hd] in Hhd; subst first.
  - cbn [deletePath_loop]. unfold bind, ret.
    rewrite (delete_property_object h l props) by done.
    rewrite prop_delete_absent by done. by rewrite insert_id.
  - apply Forall_cons in Hparts as [[Hpart _] _].
    cbn [deletePath_loop]. unfold bind.
    rewrite (has_property_object h l props) by done.
    by rewrite bool_decide_eq_false_2.
Qed.

(** X22: [deletePath] does not undo [setPath]: after [setPath] on [a.b] in
    an object without [a], [deletePath] on [a.b] removes [b] from the
    object that was created for [a], and that object stays. *)
Theorem deletePath_leaves_created h l props a b value :
  h !! l = Some props →
  segment a → segment b →
  a ∉ props.*1 →
  ∃ h1 h2 l1,
    setPath (AObject l) (a ++ "." ++ b) value h = Returns tt h1
    ∧ deletePath (AObject l) (a ++ "." ++ b) h1 = Returns tt h2
    ∧ h !! l1 = None
    ∧ read_chain h2 (AObject l) [a] = Some (AObject l1)
    ∧ read_chain h2 (AObject l) [a; b] = None.
Proof.
  intros Hl Ha Hb Hna.
  assert (Hsegs : Forall segment ([a] ++ [b]))
    by (apply Forall_app; split; by apply Forall_singleton).
  change (a ++ "." ++ b) with (join "." ([a] ++ [b])).
  rewrite setPath_run by done.
  destruct (setPath_loop_creates [a] l props h b value)
    as (h1 & props' & Hrun & Hread & _ & Hroot & _ & Hnew);
    [done|by apply segments_modelled|by left|].
  destruct Hnew as (l1 & Hl1 & Hfresh); [done|]. cbn [hd] in Hl1.
  pose proof Hread as Hchain.
  apply (read_chain_object _ _ a [b]) in Hchain
    as (l' & p' & held & [= <-] & Hp' & Hheld & Hchain).
  assert (p' = props') as -> by congruence.
  assert (held = AObject l1) as -> by congruence.
  apply read_chain_object in Hchain as (l1' & p1 & ? & [= <-] & Hp1 & _).
  assert (Hne : l1 ≠ l) by (intros ->; congruence).
  exists h1, (<[l1:=prop_delete p1 b]> h1), l1.
  split; [exact Hrun|]. split.
  { rewrite deletePath_run by done. unfold bind.
    rewrite (deletePath_loop_existing h1 [a] (AObject l) l1);
      [|apply Forall_singleton, Ha|cbn; rewrite Hroot; cbn; by rewrite Hl1].
    by rewrite (delete_property_object h1 l1 p1) by (done || apply Hb). }
  split; [done|]. split.
  - cbn. rewrite lookup_insert_ne by done. rewrite Hroot. cbn. by rewrite Hl1.
  - apply (read_chain_delete h1 l1 p1 b [a]); [done|].
    cbn. rewrite Hroot. cbn. by rewrite Hl1.
Qed.

(** *** [mapKeys] *)

Section WithMapper.
Variable mapper : string → option SerializedKeyAlias → string.
Variable map : option SerializedKeyAlias.

Abbreviation target := (fun key => mapper key map).

Abbreviation copy_step :=
  (fun (acc : Props) (e : string * Any) =>
     if includes_dot (target (fst e)) || includes_dot (fst e) then acc
     else prop_set acc (target (fst e)) (snd e)).

Lemma mapKeys_copy_run fields mapped props (es : Props) : ∀ acc h,
  h !! fields = Some props → h !! mapped = Some acc → fields ≠ mapped →
  NoDup props.*1 → copies_modelled mapper map props →
  (∀ e, e ∈ es → e ∈ props) →
  mapKeys_copy mapper map es.*1 fields mapped h
  = Returns tt (<[mapped:=fold_left copy_step es acc]> h).
Proof.
  induction es as [|[key held] es IH];
    intros acc h Hfields Hmapped Hne Hnodup Hmod Hsub.
  { cbn. by rewrite insert_id. }
  cbn [fmap list_fmap mapKeys_copy fold_left fst snd].
  assert (Hin : (key, held) ∈ props) by (apply Hsub; left).
  assert (Hrest : ∀ e, e ∈ es → e ∈ props) by (intros e ?; apply Hsub; by right).
  unfold bind at 1.
  destruct (includes_dot (mapper key map) || includes_dot key) eqn:Hdot.
  - unfold ret at 1. by apply IH.
  - destruct (Hmod key) as [Hkey Htarget];
      [by apply (list_elem_of_fmap_2 fst _ (key, held))|done|].
    unfold bind at 1.
    rewrite (get_property_object h fields props) by done.
    rewrite (prop_get_elem props key held) by done. cbn [default id].
    rewrite (set_property_object h mapped acc) by done.
    rewrite (IH (prop_set acc (mapper key map) held));
      [by rewrite insert_insert_eq|by rewrite lookup_insert_ne|
       by rewrite lookup_insert_eq|done..].
Qed.

(** Without a dotted name in the alias map only the first loop runs. *)
Lemma mapKeys_flat_run h fields props :
  h !! fields = Some props →
  NoDup props.*1 → copies_modelled mapper map props →
  nestedMap map = [] →
  ∃ mapped,
    mapKeys mapper map fields h
    = Returns mapped (<[mapped:=renamed target props]> h)
    ∧ h !! mapped = None.
Proof.
  intros Hfields Hnodup Hmod Hflat.
  pose proof (new_object_fresh h) as Hfresh.
  exists (fresh (dom h)). split; [|done].
  set (mapped := fresh (dom h)) in *.
  assert (Hne : fields ≠ mapped) by (intros ->; congruence).
  unfold mapKeys, bind, new_object, own_keys. cbn zeta. fold mapped.
  rewrite lookup_insert_ne by done. rewrite Hfields.
  rewrite (mapKeys_copy_run fields mapped props props []);
    [|by rewrite lookup_insert_ne|by rewrite lookup_insert_eq|done..].
  rewrite Hflat. cbn [mapKeys_nested]. unfold ret.
  by rewrite insert_insert_eq.
Qed.

(** X23: without a dotted name in the alias map, [mapKeys] returns a new
    object and changes no object of the store: the new object has, for each
    key of the argument that has no dot and whose target has none, the
    target as a key with the very value the argument holds, a later key
    replacing an earlier one with the same target. *)
Theorem mapKeys_flat h fields props :
  h !! fields = Some props →
  NoDup props.*1 → copies_modelled mapper map props →
  nestedMap map = [] →
  ∃ mapped h',
    mapKeys mapper map fields h = Returns mapped h'
    ∧ h !! mapped = None
    ∧ h' !! mapped = Some (renamed target props)
    ∧ (∀ l, is_Some (h !! l) → h' !! l = h !! l).
Proof.
  intros Hfields Hnodup Hmod Hflat.
  destruct (mapKeys_flat_run h fields props) as (mapped & Hrun & Hfresh);
    [done..|].
  exists mapped, (<[mapped:=renamed target props]> h).
  split; [exact Hrun|]. split; [done|].
  split; [by rewrite lookup_insert_eq|].
  intros l [p Hl]. rewrite lookup_insert_ne; [done|]. intros ->. congruence.
Qed.

(** X24: an alias that nests a key under another makes [mapKeys] write
    into an object it shares with its argument. With the one alias
    [s -> p.q], where the copy of the argument holds an object under [p],
    the value of [s] is written into that object, which the argument holds
    too, and [s] is deleted from the result. *)
Theorem mapKeys_nests_into_shared h fields props s p q n nprops :
  h !! fields = Some props →
  NoDup props.*1 → copies_modelled mapper map props →
  map = Some [(s, p ++ "." ++ q)] →
  segment s → segment p → segment q →
  prop_get (renamed target props) p = Some (AObject n) →
  h !! n = Some nprops →
  ∃ mapped,
    mapKeys mapper map fields h
    = Returns mapped
        (<[mapped:=prop_delete (renamed target props) s]>
           (<[n:=prop_set nprops q (default AUndefined (prop_get props s))]> h))
    ∧ h !! mapped = None.
Proof.
  intros Hfields Hnodup Hmod Hmap Hs Hp Hq Hshared Hn.
  pose proof (new_object_fresh h) as Hfresh.
  exists (fresh (dom h)). split; [|done].
  set (mapped := fresh (dom h)) in *.
  assert (Hne : fields ≠ mapped) by (intros ->; congruence).
  assert (Hnm : n ≠ mapped) by (intros ->; congruence).
  unfold mapKeys, bind at 1 2 3, new_object, own_keys. cbn zeta. fold mapped.
  rewrite lookup_insert_ne by done. rewrite Hfields.
  rewrite (mapKeys_copy_run fields mapped props props []);
    [|by rewrite lookup_insert_ne|by rewrite lookup_insert_eq|done..].
  rewrite insert_insert_eq.
  unfold renamed in Hshared |- *.
  set (copied := fold_left _ props []) in *.
  assert (Hnested : nestedMap map = [(s, p ++ "." ++ q)]).
  { unfold nestedMap. rewrite Hmap. cbn [default id fst snd].
    rewrite filter_cons, filter_nil. cbn [fst snd].
    assert (Hdot : includes_dot (p ++ "." ++ q) = true).
    { unfold includes_dot. apply bool_decide_eq_true_2.
      clear. induction p as [|c p IH]; [left|right; exact IH]. }
    rewrite Hdot, orb_true_r. by rewrite decide_True. }
  rewrite Hnested. cbn [mapKeys_nested]. unfold bind at 1 2 3 4.
  (* [getPath(fields, source)] *)
  assert (Hget : getPath (AObject fields) s (<[mapped:=copied]> h)
                 = Returns (default AUndefined (prop_get props s))
                     (<[mapped:=copied]> h)).
  { unfold getPath. rewrite split_dot_plain by apply Hs.
    cbn [reverse rev_append getPath_loop]. unfold bind, ret.
    rewrite (get_property_object _ fields props);
      [done|by rewrite lookup_insert_ne|apply Hs]. }
  rewrite Hget.
  (* [setPath(mapped, target, value)] *)
  change (p ++ "." ++ q) with (join "." ([p] ++ [q])).
  rewrite setPath_run
    by (apply Forall_app; split; by apply Forall_singleton).
  unfold bind at 1.
  rewrite (setPath_loop_existing _ [p] (AObject mapped) n);
    [|apply Forall_singleton, Hp
     |cbn; rewrite lookup_insert_eq; cbn; by rewrite Hshared].
  rewrite (set_property_object _ n nprops);
    [|by rewrite lookup_insert_ne|apply Hq].
  (* [deletePath(mapped, source)] *)
  assert (Hdel : ∀ h0, h0 !! mapped = Some copied →
            deletePath (AObject mapped) s h0
            = Returns tt (<[mapped:=prop_delete copied s]> h0)).
  { intros h0 Hh0. unfold deletePath. rewrite split_dot_plain by apply Hs.
    cbn [reverse rev_append deletePath_loop]. unfold bind, ret.
    by rewrite (delete_property_object h0 mapped copied) by (done || apply Hs). }
  rewrite Hdel by (by rewrite lookup_insert_ne, lookup_insert_eq).
  unfold ret. f_equal.
  rewrite (insert_insert_ne _ mapped n) by done.
  by rewrite insert_insert_eq, (insert_insert_ne _ mapped n) by done.
Qed.
End WithMapper.

Lemma renamed_fresh (f : string → string) (es : Props) : ∀ acc : Props,
  NoDup (acc.*1 ++ (f <$> es.*1)) →
  Forall (fun e => includes_dot (f (fst e)) || includes_dot (fst e) = false) es →
  fold_left
    (fun (acc : Props) (e : string * Any) =>
       if includes_dot (f (fst e)) || includes_dot (fst e) then acc
       else prop_set acc (f (fst e)) (snd e))
    es acc
  = (acc ++ ((fun e => (f (fst e), snd e)) <$> es))%list.
Proof.
  induction es as [|[key held] es IH]; intros acc Hnodup Hplain.
  { cbn. by rewrite app_nil_r. }
  apply Forall_cons in Hplain as [Hkey Hplain]. cbn [fst snd] in Hkey.
  cbn [fold_left fmap list_fmap fst snd] in Hnodup |- *. rewrite Hkey.
  assert (Hnew : f key ∉ acc.*1).
  { apply NoDup_app in Hnodup as (_ & Hdisj & _).
    intros Hin. apply (Hdisj _ Hin). left. }
  rewrite prop_set_absent by done.
  rewrite IH; [by rewrite <- app_assoc|
               by rewrite fmap_app, <- app_assoc|done].
Qed.

(** X25: mapping the keys there and back returns the properties. When the
    second mapper takes the target of each key back to the key, the keys
    and the targets have no dot and the alias maps no dotted name, [mapKeys]
    with the first mapper and then with the second gives an object with the
    properties of the argument, in their order, and the argument is as it
    was. *)
Theorem mapKeys_round_trip to from map1 map2 h fields props :
  h !! fields = Some props →
  NoDup props.*1 →
  Forall (fun key => segment key ∧ segment (to key map1)
                     ∧ from (to key map1) map2 = key) props.*1 →
  nestedMap map1 = [] → nestedMap map2 = [] →
  ∃ there h1 back h2,
    mapKeys to map1 fields h = Returns there h1
    ∧ mapKeys from map2 there h1 = Returns back h2
    ∧ h2 !! back = Some props
    ∧ h2 !! fields = Some props
    ∧ back ≠ fields.
Proof.
  intros Hfields Hnodup Hkeys Hflat1 Hflat2.
  set (f := fun key => to key map1). set (g := fun key => from key map2).
  rewrite Forall_forall in Hkeys.
  assert (Hthere : renamed f props = (fun e => (f (fst e), snd e)) <$> props).
  { unfold renamed. rewrite renamed_fresh; [done| |].
    - cbn [fmap list_fmap app].
      apply NoDup_fmap_2_strong; [|done].
      intros k1 k2 H1 H2 E. unfold f in E.
      destruct (Hkeys k1 H1) as (_ & _ & E1).
      destruct (Hkeys k2 H2) as (_ & _ & E2). congruence.
    - apply Forall_forall. intros [key held] Hin.
      destruct (Hkeys key) as ([_ Hk] & [_ Ht] & _);
        [by apply (list_elem_of_fmap_2 fst _ (key, held))|].
      cbn [fst]. unfold f. by rewrite Hk, Ht. }
  assert (Hnames : (renamed f props).*1 = f <$> props.*1).
  { rewrite Hthere, <- !list_fmap_compose. done. }
  assert (Hback : renamed g (renamed f props) = props).
  { unfold renamed at 1. rewrite renamed_fresh.
    - rewrite Hthere, <- list_fmap_compose. cbn [app].
      rewrite <- (list_fmap_id props) at 2. apply list_fmap_ext.
      intros i [key held] Hi. cbn. unfold g, f.
      destruct (Hkeys key) as (_ & _ & ->); [|done].
      apply (list_elem_of_fmap_2 fst _ (key, held)).
      by apply list_elem_of_lookup_2 in Hi.
    - cbn [fmap list_fmap app]. rewrite Hnames, <- list_fmap_compose.
      rewrite (list_fmap_ext (g ∘ f) id props.*1);
        [by rewrite list_fmap_id|].
      intros i key Hi. cbn. unfold f, g.
      by destruct (Hkeys key (list_elem_of_lookup_2 _ _ _ Hi)) as (_ & _ & ->).
    - rewrite Hthere. apply Forall_fmap, Forall_forall.
      intros [key held] Hin. cbn [fst].
      destruct (Hkeys key) as ([_ Hk] & [_ Ht] & E);
        [by apply (list_elem_of_fmap_2 fst _ (key, held))|].
      unfold g, f. cbn [compose fst snd]. rewrite E. by rewrite Hk, Ht. }
  destruct (mapKeys_flat_run to map1 h fields props) as (there & Hrun1 & Hfresh1);
    [done|done| |done|].
  { intros key Hin _. by destruct (Hkeys key Hin) as ([? _] & [? _] & _). }
  fold f in Hrun1.
  destruct (mapKeys_flat_run from map2 (<[there:=renamed f props]> h) there
              (renamed f props)) as (back & Hrun2 & Hfresh2);
    [by rewrite lookup_insert_eq| | |done|].
  { rewrite Hnames. apply NoDup_fmap_2_strong; [|done].
    intros k1 k2 H1 H2 E. unfold f in E.
    destruct (Hkeys k1 H1) as (_ & _ & E1).
    destruct (Hkeys k2 H2) as (_ & _ & E2). congruence. }
  { intros key Hin _. rewrite Hnames in Hin.
    apply list_elem_of_fmap in Hin as (k & -> & Hk).
    destruct (Hkeys k Hk) as ([? _] & [? _] & E).
    fold (f k) in E. by rewrite E. }
  fold g in Hrun2. rewrite Hback in Hrun2.
  assert (Hne1 : fields ≠ there) by (intros ->; congruence).
  assert (Hne2 : back ≠ fields).
  { intros ->. rewrite lookup_insert_ne in Hfresh2 by done. congruence. }
  eexists _, _, _, _. split; [exact Hrun1|]. split; [exact Hrun2|].
  split; [by rewrite lookup_insert_eq|]. split; [|done].
  by rewrite !lookup_insert_ne.
Qed.


(** *** [keyToJson] and [keyFromJson] *)

(** X27: a key comes back from its JSON name. With an alias map and a map
    that takes each alias back to its key, [keyFromJson] undoes
    [keyToJson]: on a key with a non-empty alias through the two maps, and
    on a key without alias through the two case conversions, when the
    second undoes the first on that key and the converted key is no
    alias. *)
Theorem key_round_trip snakeCase camelCase map inverse key :
  key ≠ "" →
  key ∉ Object_prototype_names →
  keyToJson snakeCase key map ∉ Object_prototype_names →
  match alias_of key map with
  | Some alias => alias ≠ "" ∧ alias_of alias inverse = Some key
  | None =>
      alias_of (snakeCase key) inverse = None
      ∧ camelCase (snakeCase key) = key
  end →
  keyFromJson camelCase (keyToJson snakeCase key map) inverse = key.
Proof.
  intros Hkey _ _. unfold keyFromJson, keyToJson.
  destruct (alias_of key map) as [alias|]; cbn [or_else].
  - intros [Halias Hback]. rewrite decide_False by done.
    rewrite Hback. cbn [or_else]. by rewrite decide_False.
  - intros [Hnone Hcase]. by rewrite Hnone.
Qed.

(** *** The theorems at work on the example *)

Ltac segments :=
  repeat (apply Forall_cons_2; [split; reflexivity|]); apply Forall_nil_2.

Ltac decided := apply (bool_decide_unpack _); vm_compute; exact I.

Lemma getPath_reads_reversed_witness :
  getPath (AObject 0) "modelName.lc_kwargs" example_heap
  = Returns (AStr "m") example_heap.
Proof.
  apply (getPath_reads_reversed example_heap (AObject 0)
           ["modelName"; "lc_kwargs"]); [done|segments|reflexivity].
Defined.

Lemma getPath_stops_witness :
  getPath (AObject 0) "model.stop" example_heap
  = Throws (JsError "Aliasing arrays is not supported") example_heap.
Proof.
  apply (proj2 (getPath_stops example_heap (AObject 0) "model" [] "stop" [] 0
                  [("id", ANum (NInt 1)); ("lc_kwargs", AObject 1);
                   ("stop", AArray 0)]
                  ltac:(segments) eq_refl eq_refl) 0).
  reflexivity.
Defined.

Lemma setPath_creates_witness :
  ∃ h',
    setPath (AObject 0) "a.b" ANull example_heap = Returns tt h'
    ∧ read_chain h' (AObject 0) ["a"; "b"] = Some ANull
    ∧ h' !! 1 = example_heap !! 1.
Proof.
  destruct (setPath_creates example_heap 0
              [("id", ANum (NInt 1)); ("lc_kwargs", AObject 1);
               ("stop", AArray 0)] "a" ["b"] ANull)
    as (h' & props' & Hrun & Hread & Hframe & _);
    [reflexivity|segments|left; decided|].
  exists h'. split; [exact Hrun|]. split; [exact Hread|].
  apply Hframe; [done|by eexists].
Defined.

Lemma getPath_after_setPath_witness :
  ∃ h',
    setPath (AObject 0) "a.b" ANull example_heap = Returns tt h'
    ∧ getPath (AObject 0) "b.a" h' = Returns ANull h'.
Proof.
  apply (getPath_after_setPath example_heap 0
           [("id", ANum (NInt 1)); ("lc_kwargs", AObject 1);
            ("stop", AArray 0)] "a" ["b"] ANull);
    [reflexivity|segments|left; decided].
Defined.

Lemma getPath_setPath_two_segments_witness :
  ∃ h',
    setPath (AObject 0) "a.b" ANull example_heap = Returns tt h'
    ∧ getPath (AObject 0) "a.b" h' = Returns AUndefined h'
    ∧ getPath (AObject 0) "b.a" h' = Returns ANull h'.
Proof.
  apply (getPath_setPath_two_segments example_heap 0
           [("id", ANum (NInt 1)); ("lc_kwargs", AObject 1);
            ("stop", AArray 0)] "a" "b" ANull);
    [reflexivity|split; reflexivity|split; reflexivity|discriminate
    |decided|decided].
Defined.

Lemma setPath_writes_through_witness :
  setPath (AObject 0) "lc_kwargs.modelName" (AStr "n") example_heap
  = Returns tt
      (<[1:=[("modelName", AStr "n"); ("temperature", ANum (NInt 0))]]>
         example_heap).
Proof.
  apply (setPath_writes_through example_heap (AObject 0) ["lc_kwargs"]
           "modelName" (AStr "n") 1
           [("modelName", AStr "m"); ("temperature", ANum (NInt 0))]);
    [segments|reflexivity|reflexivity].
Defined.

Lemma deletePath_removes_witness :
  ∃ h', deletePath (AObject 0) "lc_kwargs.modelName" example_heap
        = Returns tt h'.
Proof.
  apply (proj2 (deletePath_removes example_heap (AObject 0)
                  ["lc_kwargs"; "modelName"]
                  ltac:(discriminate) ltac:(segments))).
  by eexists.
Defined.

Lemma deletePath_absent_witness :
  deletePath (AObject 0) "a.b" example_heap = Returns tt example_heap.
Proof.
  apply (deletePath_absent example_heap 0
           [("id", ANum (NInt 1)); ("lc_kwargs", AObject 1);
            ("stop", AArray 0)] "a" ["b"]);
    [reflexivity|segments|decided].
Defined.

Lemma deletePath_leaves_created_witness :
  ∃ h1 h2 l1,
    setPath (AObject 0) "a.b" ANull example_heap = Returns tt h1
    ∧ deletePath (AObject 0) "a.b" h1 = Returns tt h2
    ∧ example_heap !! l1 = None
    ∧ read_chain h2 (AObject 0) ["a"] = Some (AObject l1)
    ∧ read_chain h2 (AObject 0) ["a"; "b"] = None.
Proof.
  apply (deletePath_leaves_created example_heap 0
           [("id", ANum (NInt 1)); ("lc_kwargs", AObject 1);
            ("stop", AArray 0)] "a" "b" ANull);
    [reflexivity|split; reflexivity|split; reflexivity|decided].
Defined.

Lemma example_copies_modelled mapper map props :
  Forall (fun key => modelled key = true ∧ modelled (mapper key map) = true)
    props.*1 →
  copies_modelled mapper map props.
Proof. intros Hall key Hin _. by apply (proj1 (Forall_forall _ _) Hall). Qed.

Lemma mapKeys_flat_witness :
  ∃ mapped h',
    mapKeys (keyToJson example_snakeCase) None 1 example_heap
    = Returns mapped h'
    ∧ example_heap !! mapped = None
    ∧ h' !! mapped
      = Some [("model_name", AStr "m"); ("temperature", ANum (NInt 0))]
    ∧ (∀ l, is_Some (example_heap !! l) → h' !! l = example_heap !! l).
Proof.
  apply (mapKeys_flat (keyToJson example_snakeCase) None example_heap 1
           [("modelName", AStr "m"); ("temperature", ANum (NInt 0))]);
    [reflexivity|decided| |reflexivity].
  apply example_copies_modelled. repeat constructor.
Defined.

Lemma mapKeys_nests_into_shared_witness :
  ∃ mapped,
    mapKeys (keyToJson example_snakeCase) (Some [("id", "lc_kwargs.id")]) 0
      example_heap
    = Returns mapped
        (<[mapped:=[("lc_kwargs", AObject 1); ("stop", AArray 0)]]>
           (<[1:=[("modelName", AStr "m"); ("temperature", ANum (NInt 0));
                  ("id", ANum (NInt 1))]]> example_heap))
    ∧ example_heap !! mapped = None.
Proof.
  apply (mapKeys_nests_into_shared (keyToJson example_snakeCase)
           (Some [("id", "lc_kwargs.id")]) example_heap 0
           [("id", ANum (NInt 1)); ("lc_kwargs", AObject 1);
            ("stop", AArray 0)]
           "id" "lc_kwargs" "id" 1
           [("modelName", AStr "m"); ("temperature", ANum (NInt 0))]);
    [reflexivity|decided| |reflexivity|split; reflexivity|split; reflexivity
    |split; reflexivity|reflexivity|reflexivity].
  apply example_copies_modelled. repeat constructor.
Defined.

Lemma mapKeys_round_trip_witness :
  ∃ there h1 back h2,
    mapKeys (keyToJson example_snakeCase) None 1 example_heap
    = Returns there h1
    ∧ mapKeys (keyFromJson example_camelCase) None there h1 = Returns back h2
    ∧ h2 !! back = Some [("modelName", AStr "m"); ("temperature", ANum (NInt 0))]
    ∧ h2 !! 1 = Some [("modelName", AStr "m"); ("temperature", ANum (NInt 0))]
    ∧ back ≠ 1.
Proof.
  apply (mapKeys_round_trip (keyToJson example_snakeCase)
           (keyFromJson example_camelCase) None None example_heap 1
           [("modelName", AStr "m"); ("temperature", ANum (NInt 0))]);
    [reflexivity|decided| |reflexivity|reflexivity].
  repeat constructor.
Defined.

Lemma key_round_trip_witness :
  keyFromJson example_camelCase
    (keyToJson example_snakeCase "modelName" (Some [("modelName", "model")]))
    (Some [("model", "modelName")])
  = "modelName".
Proof.
  apply key_round_trip; [discriminate|decided|decided|].
  split; [discriminate|reflexivity].
Defined.

End MapKeysFacts.

(** ** A refused message *)

Module ConversionFacts.
Import Eff PromptValues PromptValuesFacts.

Lemma Array_map_inl_witness :
  _convertInputToPromptValue coerce_human
    (InputArray (["Hello"] ++ "" :: ["there!"; ""]))
  = inl (JsError "Unable to coerce message").
Proof.
  apply Array_map_inl; [|reflexivity].
  apply Forall_singleton. by eexists.
Defined.

End ConversionFacts.
